(** * ShadowGuard / OPTIC-1: tiled analysis orchestrator with catalog
      reconciliation

    A shallow embedding of the algorithmic core of the repository:

    - [src/utils.ts]                    : [cleanPrice], [toSeverity] and the
                                          data types of the audit;
    - [src/components/AuditOverlay.tsx] : the overlay component and, in the
                                          second document of that file, the
                                          analysis service
                                          ([calculateSafetyMetrics],
                                          [tryParsePartialJSON],
                                          [stripMarkdown],
                                          [clampCoordinates],
                                          [analyzeUIScreen]);
    - [src/App.tsx]                     : [persistScanState], the tile loop of
                                          [handleScan] and
                                          [sortedScansForOverlay].

    Conventions of the embedding.

    - A JavaScript number is a [jsnum]: NaN, the two infinities, or a finite
      value carried as a rational.  [JS.round64] rounds a rational to the
      nearest IEEE-754 binary64 value, ties to even, with gradual underflow
      and overflow to the infinities; [JS.fadd], [JS.fsub], [JS.fmul] and
      [JS.fdiv] are the four operations of JavaScript, each the exact result
      rounded once.  They are used by the price comparison of the catalog
      merge, by the coordinate remapper and by [parseFloat].  The geometry of
      the overlay (stroke width, area of a box) is carried with the exact
      operations [JS.add], [JS.sub], [JS.mul] and [JS.div].  The sign of zero
      is not represented.
    - Image heights, tile offsets and tile heights are integers ([Z]); the
      [Math.floor] and [Math.ceil] of the partitioner are integer division.
    - A JavaScript string is a [string] of bytes, the UTF-8 form of the
      text.  [trim] and the class [\s] remove and match every white space
      and line terminator of ECMAScript, in their UTF-8 form.  [toLowerCase]
      is the map on the letters A to Z where the code looks for fixed ASCII
      words ([cleanPrice], [toSeverity]); where two names are compared it is
      the function of the host, which follows the Unicode case mapping.
    - Asynchronous code runs in a small state-and-exception monad over a
      [World] that carries a logical clock in milliseconds, the instant at
      which the abort controller fires, the backend as an oracle indexed by
      call number, the React state written by the setters and the two
      entries of the local storage. *)

From Stdlib Require Import ZArith QArith Qabs Qround Qpower Qreduction.
From Stdlib Require Import String Ascii Bool Lia Lqa.
From Stdlib Require Import Sorted Permutation.
From Stdlib Require Qcanon.
From stdpp Require Import list.

Local Open Scope Z_scope.

(** ** JavaScript numbers *)

Module JS.

Inductive jsnum : Type :=
| NaN
| PInf
| NInf
| Fin (q : Q).

Definition zero : jsnum := Fin 0.
Definition ofZ (z : Z) : jsnum := Fin (inject_Z z).

Definition inf_of_sign (negative : bool) : jsnum :=
  if negative then NInf else PInf.

Definition Qneg (q : Q) : bool := negb (Qle_bool 0 q).
Definition Qzero (q : Q) : bool := Qeq_bool q 0.

Definition neg (a : jsnum) : jsnum :=
  match a with
  | NaN => NaN
  | PInf => NInf
  | NInf => PInf
  | Fin q => Fin (Qred (- q))
  end.

Definition add (a b : jsnum) : jsnum :=
  match a, b with
  | NaN, _ | _, NaN => NaN
  | PInf, NInf | NInf, PInf => NaN
  | PInf, _ | _, PInf => PInf
  | NInf, _ | _, NInf => NInf
  | Fin p, Fin q => Fin (Qred (p + q))
  end.

Definition sub (a b : jsnum) : jsnum := add a (neg b).

Definition mul (a b : jsnum) : jsnum :=
  match a, b with
  | NaN, _ | _, NaN => NaN
  | Fin p, Fin q => Fin (Qred (p * q))
  | Fin p, PInf | PInf, Fin p =>
      if Qzero p then NaN else inf_of_sign (Qneg p)
  | Fin p, NInf | NInf, Fin p =>
      if Qzero p then NaN else inf_of_sign (negb (Qneg p))
  | PInf, PInf | NInf, NInf => PInf
  | PInf, NInf | NInf, PInf => NInf
  end.

Definition div (a b : jsnum) : jsnum :=
  match a, b with
  | NaN, _ | _, NaN => NaN
  | Fin p, Fin q =>
      if Qzero q
      then (if Qzero p then NaN else inf_of_sign (Qneg p))
      else Fin (Qred (p / q))
  | Fin _, (PInf | NInf) => zero
  | PInf, Fin q => inf_of_sign (Qneg q)
  | NInf, Fin q => inf_of_sign (negb (Qneg q))
  | (PInf | NInf), (PInf | NInf) => NaN
  end.

(** [Math.abs] *)
Definition abs (a : jsnum) : jsnum :=
  match a with
  | NaN => NaN
  | PInf | NInf => PInf
  | Fin q => Fin (Qred (Qabs q))
  end.

(** [a > b] *)
Definition gt (a b : jsnum) : bool :=
  match a, b with
  | NaN, _ | _, NaN => false
  | PInf, PInf => false
  | PInf, _ => true
  | _, PInf => false
  | NInf, _ => false
  | Fin _, NInf => true
  | Fin p, Fin q => negb (Qle_bool p q)
  end.

(** [a === b] on numbers *)
Definition strict_eq (a b : jsnum) : bool :=
  match a, b with
  | PInf, PInf | NInf, NInf => true
  | Fin p, Fin q => Qeq_bool p q
  | _, _ => false
  end.

(** Truthiness of a number: NaN and zero are falsy. *)
Definition truthy (a : jsnum) : bool :=
  match a with
  | NaN => false
  | Fin q => negb (Qzero q)
  | _ => true
  end.

(** [a || b] on numbers *)
Definition or_else (a b : jsnum) : jsnum := if truthy a then a else b.

(** [Math.round]: the nearest integer, ties towards +Infinity. *)
Definition round (a : jsnum) : jsnum :=
  match a with
  | Fin q => Fin (inject_Z (Qfloor (q + (1 # 2))))
  | other => other
  end.

(** [Math.min(a, b)] and [Math.max(a, b)] *)
Definition min (a b : jsnum) : jsnum :=
  match a, b with
  | NaN, _ | _, NaN => NaN
  | NInf, _ | _, NInf => NInf
  | PInf, x | x, PInf => x
  | Fin p, Fin q => if Qle_bool p q then a else b
  end.

Definition max (a b : jsnum) : jsnum :=
  match a, b with
  | NaN, _ | _, NaN => NaN
  | PInf, _ | _, PInf => PInf
  | NInf, x | x, NInf => x
  | Fin p, Fin q => if Qle_bool p q then b else a
  end.

(** A finite number that is an integer of the closed range [lo, hi]. *)
Definition int_in_range (lo hi : Z) (a : jsnum) : Prop :=
  exists z : Z, a = Fin (inject_Z z) /\ lo <= z <= hi.

(** A finite number of the closed range [lo, hi]. *)
Definition in_range (lo hi : Q) (a : jsnum) : Prop :=
  exists q : Q, a = Fin q /\ (lo <= q <= hi)%Q.

(** Equality up to the representation of the rational. *)
Definition same (a b : jsnum) : Prop :=
  match a, b with
  | NaN, NaN | PInf, PInf | NInf, NInf => True
  | Fin p, Fin q => (p == q)%Q
  | _, _ => False
  end.

(** [a <= b] *)
Definition lte (a b : jsnum) : bool :=
  match a, b with
  | NaN, _ | _, NaN => false
  | NInf, _ | _, PInf => true
  | Fin p, Fin q => Qle_bool p q
  | _, _ => false
  end.

(** *** IEEE-754 binary64

    A finite double is an integer multiple of a power of two, [m * 2^k] with
    [|m| < 2^53] and [-1074 <= k], below [2^1024] in magnitude. *)

Definition pow2 (e : Z) : Q := (2 ^ e)%Q.

(** [floor (log2 x)] for a positive [x]. *)
Definition ilog2 (x : Q) : Z :=
  let e := Z.log2 (Qnum x) - Z.log2 (Zpos (Qden x)) in
  if Qle_bool (pow2 e) x then e else e - 1.

(** The nearest integer, ties to the even one. *)
Definition rne (x : Q) : Z :=
  let f := Qfloor x in
  match (x - inject_Z f ?= 1 # 2)%Q with
  | Lt => f
  | Gt => f + 1
  | Eq => if Z.even f then f else f + 1
  end.

(** The exponent of the unit in the last place of a positive [x]: 53
    significant bits, and no exponent below that of the subnormals. *)
Definition ulp_exponent (x : Q) : Z := Z.max (ilog2 x - 52) (-1074).

(** A positive [x] rounded to a multiple of its unit in the last place. *)
Definition round_pos (x : Q) : Q :=
  (inject_Z (rne (x / pow2 (ulp_exponent x))) * pow2 (ulp_exponent x))%Q.

(** The Number value of a real: round to nearest, ties to even; a rounded
    magnitude of [2^1024] or more is an infinity. *)
Definition round64 (x : Q) : jsnum :=
  match (x ?= 0)%Q with
  | Eq => Fin 0
  | Gt => let r := round_pos x in
          if Qle_bool (pow2 1024) r then PInf else Fin (Qred r)
  | Lt => let r := round_pos (- x) in
          if Qle_bool (pow2 1024) r then NInf else Fin (Qred (- r))
  end.

(** [a + b], [a - b], [a * b] and [a / b] on doubles: the exact result,
    rounded. *)
Definition fadd (a b : jsnum) : jsnum :=
  match a, b with
  | Fin p, Fin q => round64 (p + q)
  | _, _ => add a b
  end.

Definition fsub (a b : jsnum) : jsnum :=
  match a, b with
  | Fin p, Fin q => round64 (p - q)
  | _, _ => sub a b
  end.

Definition fmul (a b : jsnum) : jsnum :=
  match a, b with
  | Fin p, Fin q => round64 (p * q)
  | _, _ => mul a b
  end.

Definition fdiv (a b : jsnum) : jsnum :=
  match a, b with
  | Fin p, Fin q => if Qzero q then div a b else round64 (p / q)
  | _, _ => div a b
  end.

End JS.

Import JS.

(** ** Partitioner ([handleScan], src/App.tsx lines 230-235 and 262-263) *)

Definition maxTileHeight : Z := 1536.
Definition overlap : Z := 150.
Definition effectiveTileHeight : Z := maxTileHeight - overlap.

(** [Math.ceil(a / b)] for integers [a] and [b > 0]. *)
Definition ceil_div (a b : Z) : Z := - ((- a) / b).

Definition numTiles (fullHeight : Z) : Z :=
  if fullHeight <=? maxTileHeight then 1
  else ceil_div (fullHeight - overlap) effectiveTileHeight.

Definition offsetY (i : Z) : Z := i * effectiveTileHeight.

Definition currentTileHeight (fullHeight i : Z) : Z :=
  Z.min maxTileHeight (fullHeight - offsetY i).

(** Rows of the full image drawn into tile [i]. *)
Definition in_tile (fullHeight i y : Z) : Prop :=
  offsetY i <= y < offsetY i + currentTileHeight fullHeight i.

(** ** JavaScript strings *)

Module Str.

Local Open Scope string_scope.
Local Open Scope nat_scope.

Definition is_digit (c : ascii) : bool :=
  let n := nat_of_ascii c in (48 <=? n) && (n <=? 57).

(** A printable ASCII character other than the space. *)
Definition plain (c : ascii) : bool :=
  let n := nat_of_ascii c in (33 <=? n) && (n <=? 126).

Definition lower_ascii (c : ascii) : ascii :=
  let n := nat_of_ascii c in
  if (65 <=? n) && (n <=? 90) then ascii_of_nat (n + 32) else c.

(** [toLowerCase] on the letters A to Z; every other byte is kept. *)
Fixpoint toLowerCase (s : string) : string :=
  match s with
  | EmptyString => EmptyString
  | String c r => String (lower_ascii c) (toLowerCase r)
  end.

Fixpoint all_chars (p : ascii -> bool) (s : string) : bool :=
  match s with
  | EmptyString => true
  | String c r => p c && all_chars p r
  end.

Fixpoint any_char (p : ascii -> bool) (s : string) : bool :=
  match s with
  | EmptyString => false
  | String c r => p c || any_char p r
  end.

(** [s.substring(i)] *)
Fixpoint drop (i : nat) (s : string) : string :=
  match i, s with
  | O, _ => s
  | S j, String _ r => drop j r
  | S _, EmptyString => EmptyString
  end.

(** [s.substring(0, n)] *)
Fixpoint take (n : nat) (s : string) : string :=
  match n, s with
  | S m, String c r => String c (take m r)
  | _, _ => EmptyString
  end.

Definition is_empty (s : string) : bool :=
  match s with EmptyString => true | _ => false end.

Fixpoint bytes (l : list nat) : string :=
  match l with
  | [] => EmptyString
  | n :: r => String (ascii_of_nat n) (bytes r)
  end.

(** The white space and the line terminators of ECMAScript, which
    [String.prototype.trim] removes and the class [\s] matches, in UTF-8. *)
Definition white_space : list string :=
  map bytes
    [ [9]; [10]; [11]; [12]; [13]; [32];              (* TAB, LF, VT, FF, CR, SPACE *)
      [194; 160];                                     (* U+00A0 *)
      [225; 154; 128];                                (* U+1680 *)
      [226; 128; 128]; [226; 128; 129]; [226; 128; 130]; [226; 128; 131];
      [226; 128; 132]; [226; 128; 133]; [226; 128; 134]; [226; 128; 135];
      [226; 128; 136]; [226; 128; 137]; [226; 128; 138];   (* U+2000 to U+200A *)
      [226; 128; 168]; [226; 128; 169];               (* U+2028, U+2029 *)
      [226; 128; 175];                                (* U+202F *)
      [226; 129; 159];                                (* U+205F *)
      [227; 128; 128];                                (* U+3000 *)
      [239; 187; 191] ].                              (* U+FEFF *)

(** The number of bytes of the white space at the head of [s]; 0 when [s]
    does not start with white space. *)
Definition white_len (s : string) : nat :=
  match List.find (fun w => String.prefix w s) white_space with
  | Some w => String.length w
  | None => 0
  end.

(** [trimStart]: at most one white space is removed per byte of the text. *)
Fixpoint trimStart_upto (fuel : nat) (s : string) : string :=
  match fuel with
  | O => s
  | S f =>
      match white_len s with
      | O => s
      | n => trimStart_upto f (drop n s)
      end
  end.

Definition trimStart (s : string) : string := trimStart_upto (String.length s) s.

(** Nothing but white space. *)
Definition blank (s : string) : bool := is_empty (trimStart s).

Fixpoint trimEnd (s : string) : string :=
  match s with
  | EmptyString => EmptyString
  | String c r => if blank s then EmptyString else String c (trimEnd r)
  end.

Definition trim (s : string) : string := trimEnd (trimStart s).

(** The prefix that ends before the first white space: [s.split(/\s+/)[0]]
    on a text that does not start with white space. *)
Fixpoint until_white (s : string) : string :=
  match s with
  | EmptyString => EmptyString
  | String c r => if white_len s =? 0 then String c (until_white r) else EmptyString
  end.

Definition startsWith (s pre : string) : bool := String.prefix pre s.

(** [s.includes(needle)] *)
Fixpoint includes (s needle : string) : bool :=
  String.prefix needle s ||
  match s with
  | EmptyString => false
  | String _ r => includes r needle
  end.

(** [s.indexOf(c)] for a one-character pattern; [None] stands for -1. *)
Fixpoint indexOf (c : ascii) (s : string) : option nat :=
  match s with
  | EmptyString => None
  | String d r => if Ascii.eqb c d then Some 0 else option_map S (indexOf c r)
  end.

(** [s.lastIndexOf(c)] for a one-character pattern; [None] stands for -1. *)
Fixpoint lastIndexOf (c : ascii) (s : string) : option nat :=
  match s with
  | EmptyString => None
  | String d r =>
      match lastIndexOf c r with
      | Some i => Some (S i)
      | None => if Ascii.eqb c d then Some 0 else None
      end
  end.

(** [(s.match(/c/g) || []).length] for a one-character pattern. *)
Fixpoint count (c : ascii) (s : string) : nat :=
  match s with
  | EmptyString => 0
  | String d r => (if Ascii.eqb c d then 1 else 0) + count c r
  end.

(** [s.replace(/[^...]/g, '')]: keep the characters of a class. *)
Fixpoint keep (p : ascii -> bool) (s : string) : string :=
  match s with
  | EmptyString => EmptyString
  | String c r => if p c then String c (keep p r) else keep p r
  end.

(** [s.replace(/c/g, '')] *)
Definition remove_all (c : ascii) (s : string) : string :=
  keep (fun d => negb (Ascii.eqb c d)) s.

(** [s.replace(c, by)] with a string pattern: the first occurrence only. *)
Fixpoint replace_first (c : ascii) (by_ : string) (s : string) : string :=
  match s with
  | EmptyString => EmptyString
  | String d r => if Ascii.eqb c d then by_ ++ r else String d (replace_first c by_ r)
  end.

(** The longest prefix whose characters are all in a class, and the rest. *)
Fixpoint span (p : ascii -> bool) (s : string) : string * string :=
  match s with
  | String c r =>
      if p c then let '(a, b) := span p r in (String c a, b) else (EmptyString, s)
  | EmptyString => (EmptyString, EmptyString)
  end.

Fixpoint repeat (c : ascii) (n : nat) : string :=
  match n with
  | O => EmptyString
  | S m => String c (repeat c m)
  end.

(** [s[s.length - 1]] *)
Fixpoint last_char (s : string) : option ascii :=
  match s with
  | EmptyString => None
  | String c r =>
      match last_char r with
      | Some d => Some d
      | None => Some c
      end
  end.

End Str.

(** ** Price normalizer ([cleanPrice], src/utils.ts lines 10-51) *)

Module Price.

Import Str.
Local Open Scope string_scope.
Local Open Scope nat_scope.

(** The class [[\d,.]] *)
Definition is_price_char (c : ascii) : bool :=
  is_digit c || Ascii.eqb c "," || Ascii.eqb c ".".

(** [([\$€£¥]|USD|EUR|GBP|CAD|AUD)] under the [i] flag: the alternatives in
    lower case, compared with the lower-cased text.  No alternative is a
    prefix of another, so at most one of them matches at a position. *)
Definition currency_anchors : list string :=
  ["$"; "€"; "£"; "¥"; "usd"; "eur"; "gbp"; "cad"; "aud"].

Fixpoint strip_anchor (anchors : list string) (s : string) : option string :=
  match anchors with
  | [] => None
  | a :: more =>
      if String.prefix a (toLowerCase s) then Some (drop (String.length a) s)
      else strip_anchor more s
  end.

Definition match_currency (s : string) : option string :=
  strip_anchor currency_anchors s.

(** The ways [\s?] can match at the head of [s], the greedy one first. *)
Definition opt_space (s : string) : list string :=
  match white_len s with
  | O => [s]
  | n => [drop n s; s]
  end.

Definition ends_with_digit (s : string) : bool :=
  match String.get (String.length s - 1) s with
  | Some c => is_digit c
  | None => false
  end.

(** The ways [[\d,.]+\d] can match a prefix of [s] of at most [k] characters,
    the longest first, each with the text that follows it. *)
Fixpoint number_candidates (s : string) (k : nat) : list (string * string) :=
  match k with
  | O => []
  | S j =>
      (if (2 <=? k) && ends_with_digit (take k s) then [(take k s, drop k s)] else [])
      ++ number_candidates s j
  end.

Definition number_matches (s : string) : list (string * string) :=
  number_candidates s (String.length (fst (span is_price_char s))).

Fixpoint first_some {A B : Type} (f : A -> option B) (l : list A) : option B :=
  match l with
  | [] => None
  | x :: r => match f x with Some y => Some y | None => first_some f r end
  end.

(** First alternative at the head of [s]: anchor, [\s?], number (group 2). *)
Definition match_anchor_first (s : string) : option string :=
  match match_currency s with
  | None => None
  | Some after =>
      first_some (fun t => option_map fst (head (number_matches t))) (opt_space after)
  end.

(** Second alternative at the head of [s]: number (group 3), [\s?], anchor. *)
Definition match_number_first (s : string) : option string :=
  first_some
    (fun '(num, after) =>
       first_some (fun t => option_map (fun _ => num) (match_currency t)) (opt_space after))
    (number_matches s).

(** [val.match(...)]: the leftmost match, [priceMatch[2] || priceMatch[3]]. *)
Fixpoint price_match (s : string) : option string :=
  match match_anchor_first s with
  | Some g => Some g
  | None =>
      match match_number_first s with
      | Some g => Some g
      | None =>
          match s with
          | String _ r => price_match r
          | EmptyString => None
          end
      end
  end.

(** [val.trim().split(/\s+/)[0]] *)
Definition first_word (s : string) : string := until_white (trim s).

Fixpoint digits_value (s : string) (acc : Z) : Z :=
  match s with
  | EmptyString => acc
  | String c r => digits_value r (10 * acc + Z.of_nat (nat_of_ascii c - 48))%Z
  end.

(** [parseFloat] on an unsigned decimal literal: the longest prefix of the
    form digits, digits.digits, digits. or .digits; NaN when there is none;
    the Number value of the decimal otherwise.  Signs, exponents and the
    literal Infinity are left out: [cleanPrice] calls it on text made of
    digits, commas and dots only. *)
Definition parseFloat (s : string) : jsnum :=
  let '(ip, rest) := span is_digit (trimStart s) in
  let fp := match rest with
            | String "." r => fst (span is_digit r)
            | _ => EmptyString
            end in
  if is_empty ip && is_empty fp then NaN
  else JS.round64 (inject_Z (digits_value ip 0)
                   + inject_Z (digits_value fp 0) / inject_Z (10 ^ Z.of_nat (String.length fp))).

Definition cleanPrice (val : option string) : jsnum :=
  match val with
  | None => NaN
  | Some val =>
      if is_empty val || is_empty (trim val) then NaN
      else
        let lower := toLowerCase val in
        if includes lower "free" || includes lower "gratis" then Fin 0
        else
          let raw :=
            match price_match val with
            | Some g => keep is_price_char g
            | None => keep is_price_char (first_word val)
            end in
          if negb (any_char is_digit raw) then NaN
          else
            let cleaned :=
              match lastIndexOf "," raw, lastIndexOf "." raw with
              | Some lastComma, Some lastDot =>
                  if lastDot <? lastComma
                  then replace_first "," "." (remove_all "." raw)
                  else remove_all "," raw
              | Some lastComma, None =>
                  if String.length raw - 1 - lastComma =? 2
                  then replace_first "," "." raw
                  else replace_first "," "" raw
              | None, Some lastDot =>
                  if String.length raw - 1 - lastDot =? 2
                  then raw
                  else remove_all "." raw
              | None, None => raw
              end in
            parseFloat cleaned
  end.

End Price.


(** ** Data model (the type declarations of src/utils.ts) *)

Inductive Severity : Type := Low | Medium | High.

Inductive DefensiveStatus : Type :=
| Safe          (* 'DESIGN VERIFIED' *)
| Caution       (* 'MANIPULATIVE DESIGN' *)
| Compromised.  (* 'CRITICAL DECEPTION' *)

Definition Severity_eqb (a b : Severity) : bool :=
  match a, b with
  | Low, Low | Medium, Medium | High, High => true
  | _, _ => false
  end.

Definition DefensiveStatus_eqb (a b : DefensiveStatus) : bool :=
  match a, b with
  | Safe, Safe | Caution, Caution | Compromised, Compromised => true
  | _, _ => false
  end.

(** A value produced by [JSON.parse], as far as the service inspects it. *)
#[warnings="-register-all"]
Inductive jsval : Type :=
| JUndefined
| JNull
| JBool (b : bool)
| JNum (n : jsnum)
| JStr (s : string)
| JArr (l : list jsval)
| JObj.

(** [String(val || '')] then [toLowerCase], [includes]: src/utils.ts 69-74.
    The raw severity is a string or absent. *)
Definition toSeverity (val : option string) : Severity :=
  let s := Str.toLowerCase (match val with Some v => v | None => EmptyString end) in
  if Str.includes s "high" then High
  else if Str.includes s "low" then Low
  else Medium.

Module CatalogAnchor.
(** [numeric_price], [original_price] and [original_numeric_price] may be
    absent ([undefined] or [null]); the other fields are required by the
    response schema. *)
Record t : Type := mk {
  id : string;
  name : string;
  price : string;
  numeric_price : option jsnum;
  original_price : option string;
  original_numeric_price : option jsnum;
  coordinates : list jsnum;
  is_violation : bool;
  is_currently_visible : bool
}.
End CatalogAnchor.

Module DarkPatternScan.
Record t : Type := mk {
  pattern_type : string;
  coordinates : list jsnum;   (* [ymin, xmin, ymax, xmax] *)
  severity : Severity;
  truth_label : string;
  action_fix : string
}.
End DarkPatternScan.

(** A finding as the backend reports it, before clamping. *)
Module RawScan.
Record t : Type := mk {
  pattern_type : string;
  coordinates : jsval;
  severity : option string;
  truth_label : string;
  action_fix : string
}.
End RawScan.

Module HistoryItem.
Record t : Type := mk { type : string; label : string }.
End HistoryItem.

(** The [thought_signature] object, which is also the session signature
    ([Record<string, any>]): a key that is absent is [None]; an absent
    [catalog_anchors] reads as the empty list at each of its uses. *)
Module Signature.
Record t : Type := mk {
  reasoning_path : option string;
  security_brief : option string;
  catalog_anchors : list CatalogAnchor.t
}.
Definition empty : t := mk None None [].
(** [{ ...a, ...b }], for a [b] that carries the key [catalog_anchors]
    (every [thought_signature] the service returns does). *)
Definition spread (a b : t) : t :=
  mk (match reasoning_path b with Some x => Some x | None => reasoning_path a end)
     (match security_brief b with Some x => Some x | None => security_brief a end)
     (catalog_anchors b).
End Signature.

Module ViewportMeta.
Record t : Type := mk {
  threat_count : nat;
  status : DefensiveStatus;
  advice : string
}.
End ViewportMeta.

Module ScanResponse.
Record t : Type := mk {
  viewport_meta : ViewportMeta.t;
  scans : list DarkPatternScan.t;
  thought_signature : Signature.t;
  error : option string
}.
End ScanResponse.

(** The object [JSON.parse] returns for a response text: [scans] may be
    absent ([parsed.scans || []]); an absent [thought_signature] makes
    [parsed.thought_signature.catalog_anchors] raise a TypeError. *)
Module Parsed.
Record t : Type := mk {
  scans : option (list RawScan.t);
  thought_signature : option Signature.t
}.
End Parsed.

(** What the host environment provides: [JSON.parse] on a response text
    ([None] when it raises SyntaxError), the conversion to a number that
    [Number(c)] applies to a string, an array or an object, and
    [String.prototype.toLowerCase] with the case mapping of Unicode. *)
Class Host : Type := {
  JSON_parse : string -> option Parsed.t;
  coerce : jsval -> jsnum;
  String_toLowerCase : string -> string
}.

(** ** The analysis service (src/components/AuditOverlay.tsx, second part) *)

Module Service.

Local Open Scope string_scope.
Local Open Scope Z_scope.

(** [-1] for an index that was not found. *)
Definition index_or_minus1 (o : option nat) : Z :=
  match o with
  | Some i => Z.of_nat i
  | None => -1
  end.

Definition severity_score (s : Severity) : nat :=
  match s with
  | High => 10
  | Medium => 3
  | Low => 1
  end.

(** [calculateSafetyMetrics], lines 153-179 *)
Definition calculateSafetyMetrics (scans : list DarkPatternScan.t) : ViewportMeta.t :=
  let threatCount := length scans in
  let score :=
    fold_left (fun acc s => (acc + severity_score (DarkPatternScan.severity s))%nat) scans 0%nat in
  let hasBaitSwitch :=
    existsb (fun s => Str.includes (DarkPatternScan.pattern_type s) "SWITCH"
                      || Str.includes (DarkPatternScan.pattern_type s) "BAIT") scans in
  let hasFinancialRisk :=
    existsb (fun s => Str.includes (DarkPatternScan.pattern_type s) "SNEAK"
                      || Str.includes (DarkPatternScan.pattern_type s) "HIDDEN_FEE") scans in
  if (15 <=? score)%nat || hasBaitSwitch || hasFinancialRisk then
    ViewportMeta.mk threatCount Compromised
      "High deceptive load or financial risk. Verify all totals."
  else if (0 <? score)%nat then
    ViewportMeta.mk threatCount Caution "Manipulative patterns detected. Stay objective."
  else
    ViewportMeta.mk threatCount Safe "Interface appears transparent. Safe to proceed.".

(** [stripMarkdown], lines 204-207.  The pattern [/\{[\s\S]*\}/] matches from
    the first open brace to the last close brace of the text, when that
    close brace comes after it; there is no match otherwise. *)
Definition stripMarkdown (text : string) : string :=
  match Str.indexOf "{" text, Str.lastIndexOf "}" text with
  | Some i, Some j =>
      if (i <? j)%nat then Str.take (j + 1 - i) (Str.drop i text) else text
  | _, _ => text
  end.

(** Lines 185-189: the text trimmed, then cut to start at its first brace. *)
Definition from_first_brace (text : string) : string :=
  let recovered := Str.trim text in
  if Str.startsWith recovered "{" then recovered
  else
    match Str.indexOf "{" recovered with
    | Some firstBrace => Str.drop firstBrace recovered
    | None => recovered
    end.

(** Line 190 *)
Definition openBraces (recovered : string) : Z :=
  Z.of_nat (Str.count "{" recovered) - Z.of_nat (Str.count "}" recovered).

(** Lines 191-193: the guarded loop that appends closing braces. *)
Definition close_braces (recovered : string) : string :=
  if (index_or_minus1 (Str.lastIndexOf "}" recovered) <? Z.of_nat (String.length recovered) - 1)
     && (0 <? openBraces recovered)
  then recovered ++ Str.repeat "}" (Z.to_nat (openBraces recovered))
  else recovered.

(** The text the second [JSON.parse] of [tryParsePartialJSON] receives. *)
Definition recovered (text : string) : string :=
  close_braces (from_first_brace text).

(** The text the third [JSON.parse] receives, when line 198 is reached and
    its guard [lastBrace > 0] holds. *)
Definition truncated (text : string) : option string :=
  match Str.lastIndexOf "}" (recovered text) with
  | Some lastBrace =>
      if (0 <? lastBrace)%nat then Some (Str.take (lastBrace + 1) (recovered text))
      else None
  | None => None
  end.

Section WithHost.
Context {host : Host}.

(** [tryParsePartialJSON], lines 181-202; [None] when it raises. *)
Definition tryParsePartialJSON (text : string) : option Parsed.t :=
  match JSON_parse text with
  | Some v => Some v
  | None =>
      match JSON_parse (recovered text) with
      | Some v => Some v
      | None =>
          match truncated text with
          | Some prefix => JSON_parse prefix
          | None => None
          end
      end
  end.

(** [Number(c)] *)
Definition Number (c : jsval) : jsnum :=
  match c with
  | JUndefined => NaN
  | JNull => Fin 0
  | JBool b => if b then Fin 1 else Fin 0
  | JNum n => n
  | other => coerce other
  end.

Definition clampComponent (c : jsval) : jsnum :=
  JS.max (Fin 0) (JS.min (Fin 1000) (JS.round (JS.or_else (Number c) (Fin 0)))).

(** [clampCoordinates], lines 209-212 *)
Definition clampCoordinates (coords : jsval) : list jsnum :=
  match coords with
  | JArr l =>
      if (length l <? 4)%nat then [Fin 0; Fin 0; Fin 0; Fin 0]
      else map clampComponent l
  | _ => [Fin 0; Fin 0; Fin 0; Fin 0]
  end.

(** Lines 294-298 *)
Definition clampScan (s : RawScan.t) : DarkPatternScan.t :=
  DarkPatternScan.mk
    (RawScan.pattern_type s)
    (clampCoordinates (RawScan.coordinates s))
    (toSeverity (RawScan.severity s))
    (RawScan.truth_label s)
    (RawScan.action_fix s).

(** [Array.prototype.findIndex]; [None] stands for -1. *)
Fixpoint findIndex {A : Type} (p : A -> bool) (l : list A) : option nat :=
  match l with
  | [] => None
  | x :: r => if p x then Some 0%nat else option_map S (findIndex p r)
  end.

(** Line 306: [name.trim().toLowerCase()] *)
Definition normal_name (s : string) : string := String_toLowerCase (Str.trim s).

(** Lines 304-307 *)
Definition existingIdx (mergedAnchors : list CatalogAnchor.t) (inAnchor : CatalogAnchor.t)
  : option nat :=
  match findIndex (fun a => String.eqb (CatalogAnchor.id a) (CatalogAnchor.id inAnchor))
                  mergedAnchors with
  | Some i => Some i
  | None =>
      if negb (Str.is_empty (CatalogAnchor.name inAnchor)) then
        findIndex (fun a => String.eqb (normal_name (CatalogAnchor.name a))
                                       (normal_name (CatalogAnchor.name inAnchor)))
                  mergedAnchors
      else None
  end.

(** [x ?? 0] *)
Definition or_zero (x : option jsnum) : jsnum :=
  match x with
  | Some n => n
  | None => Fin 0
  end.

(** Line 311: [existing.original_numeric_price ?? inAnchor.numeric_price] *)
Definition origNumeric (existing inAnchor : CatalogAnchor.t) : option jsnum :=
  match CatalogAnchor.original_numeric_price existing with
  | Some n => Some n
  | None => CatalogAnchor.numeric_price inAnchor
  end.

(** Line 312: the subtraction is that of doubles. *)
Definition priceDiff (existing inAnchor : CatalogAnchor.t) : jsnum :=
  JS.abs (JS.fsub (or_zero (CatalogAnchor.numeric_price inAnchor))
                  (or_zero (origNumeric existing inAnchor))).

(** The literal [0.01]: the double nearest to one hundredth. *)
Definition threshold : jsnum := JS.round64 (1 # 100).

(** Line 313 *)
Definition isViolation (existing inAnchor : CatalogAnchor.t) : bool :=
  JS.gt (priceDiff existing inAnchor) threshold
  || (CatalogAnchor.is_violation inAnchor && JS.gt (priceDiff existing inAnchor) threshold).

(** Lines 315-321: the anchor written over a matched entry. *)
Definition mergedWith (existing inAnchor : CatalogAnchor.t) : CatalogAnchor.t :=
  CatalogAnchor.mk
    (CatalogAnchor.id existing)
    (CatalogAnchor.name inAnchor)
    (CatalogAnchor.price inAnchor)
    (CatalogAnchor.numeric_price inAnchor)
    (match CatalogAnchor.original_price existing with
     | Some p => if Str.is_empty p then CatalogAnchor.original_price inAnchor else Some p
     | None => CatalogAnchor.original_price inAnchor
     end)
    (origNumeric existing inAnchor)
    (CatalogAnchor.coordinates inAnchor)
    (isViolation existing inAnchor)
    (CatalogAnchor.is_currently_visible inAnchor).

(** Lines 323-328: the anchor pushed at a first sighting. *)
Definition firstSighting (inAnchor : CatalogAnchor.t) : CatalogAnchor.t :=
  CatalogAnchor.mk
    (CatalogAnchor.id inAnchor)
    (CatalogAnchor.name inAnchor)
    (CatalogAnchor.price inAnchor)
    (CatalogAnchor.numeric_price inAnchor)
    (Some (CatalogAnchor.price inAnchor))
    (CatalogAnchor.numeric_price inAnchor)
    (CatalogAnchor.coordinates inAnchor)
    false
    (CatalogAnchor.is_currently_visible inAnchor).

(** One turn of the [forEach] of lines 303-330. *)
Definition mergeAnchor (mergedAnchors : list CatalogAnchor.t) (inAnchor : CatalogAnchor.t)
  : list CatalogAnchor.t :=
  match existingIdx mergedAnchors inAnchor with
  | Some i =>
      match mergedAnchors !! i with
      | Some existing => <[i := mergedWith existing inAnchor]> mergedAnchors
      | None => mergedAnchors
      end
  | None => mergedAnchors ++ [firstSighting inAnchor]
  end.

(** Lines 300-330 *)
Definition mergeAnchors (previous incoming : list CatalogAnchor.t) : list CatalogAnchor.t :=
  fold_left mergeAnchor incoming previous.

End WithHost.

End Service.

(** ** Asynchronous runs: clock, abort signal, backend and React state *)

Module Run.

Local Open Scope string_scope.
Local Open Scope Z_scope.

Record Exn : Type := mkExn { exn_name : string; exn_message : string }.

(** [new Error("AbortError")] *)
Definition abortSentinel : Exn := mkExn "Error" "AbortError".
Definition syntaxError : Exn := mkExn "SyntaxError" "Unexpected end of JSON input".
Definition typeError : Exn := mkExn "TypeError" "Cannot read properties of undefined".

(** What [ai.models.generateContent] does on one call: it resolves with a
    response whose [text] may be absent, or it rejects, with an error object
    or with [undefined] or [null]. *)
Inductive Reply : Type :=
| Replied (text : option string)
| Rejected (e : Exn)
| RejectedNullish.

(** The two entries of the local storage that the application writes. *)
Inductive StorageKey : Type := SIGNATURE | HISTORY.

Inductive Event : Type :=
| EvCall (n : nat)      (* the n-th request is sent to the backend *)
| EvWait (ms : Z).      (* a timer of [ms] milliseconds runs to its end *)

(** The React state the tile loop writes, and in [persisted] the two
    entries of the local storage: the signature and the history last
    stored, if any. *)
Record UI : Type := mkUI {
  scans : list DarkPatternScan.t;
  viewportMeta : option ViewportMeta.t;
  lastSignature : Signature.t;
  auditHistory : list HistoryItem.t;
  error : option string;
  loading : bool;
  hasCompletedInitialScan : bool;
  persisted : option Signature.t * option (list HistoryItem.t)
}.

(** The surroundings of one run: when [abort()] is called on the run's
    controller (if ever), what the backend answers to its n-th request, how
    long that request takes, and whether [localStorage.setItem] raises on a
    key (the quota is exceeded). *)
Record Env : Type := mkEnv {
  cancelAt : option Z;
  backend : nat -> Reply;
  latency : nat -> Z;
  storageFull : StorageKey -> bool
}.

Record World : Type := mkWorld {
  now : Z;
  calls : nat;
  trace : list Event;
  ui : UI
}.

Inductive Result (A : Type) : Type :=
| Returned (a : A)
| Threw (e : Exn).
Arguments Returned {A} a.
Arguments Threw {A} e.

Definition M (A : Type) : Type := Env -> World -> Result A * World.

Definition ret {A : Type} (a : A) : M A := fun _ w => (Returned a, w).

Definition bind {A B : Type} (m : M A) (k : A -> M B) : M B :=
  fun env w =>
    match m env w with
    | (Returned a, w') => k a env w'
    | (Threw e, w') => (Threw e, w')
    end.

Definition throw {A : Type} (e : Exn) : M A := fun _ w => (Threw e, w).

Definition try_catch {A : Type} (m : M A) (handler : Exn -> M A) : M A :=
  fun env w =>
    match m env w with
    | (Returned a, w') => (Returned a, w')
    | (Threw e, w') => handler e env w'
    end.

Notation "'do' x <- m ; k" := (bind m (fun x => k))
  (at level 10, x name, m at level 100, k at level 200).
Notation "'run' m ; k" := (bind m (fun _ => k))
  (at level 10, m at level 100, k at level 200).

(** [signal.aborted], read at the instant [now w] *)
Definition signal_aborted (env : Env) (w : World) : bool :=
  match cancelAt env with
  | Some t => t <=? now w
  | None => false
  end.

Definition aborted : M bool := fun env w => (Returned (signal_aborted env w), w).

(** The world once a timer of [ms] milliseconds has fired. *)
Definition after_wait (ms : Z) (w : World) : World :=
  mkWorld (now w + ms) (calls w) (trace w ++ [EvWait ms]) (ui w).

(** [await new Promise(res => setTimeout(res, ms))]: the promise resolves
    when the timer fires; nothing else resolves or rejects it. *)
Definition wait (ms : Z) : M unit := fun _ w => (Returned tt, after_wait ms w).

(** The world once the next request to the backend has settled. *)
Definition after_call (env : Env) (w : World) : World :=
  mkWorld (now w + latency env (calls w)) (S (calls w)) (trace w ++ [EvCall (calls w)]) (ui w).

(** [ai.models.generateContent(...)] until its promise settles; the signal
    is not passed on. *)
Definition generateContent : M Reply :=
  fun env w => (Returned (backend env (calls w)), after_call env w).

Definition setUI (f : UI -> UI) : M unit :=
  fun _ w => (Returned tt, mkWorld (now w) (calls w) (trace w) (f (ui w))).

Definition setScans (x : list DarkPatternScan.t) : M unit :=
  setUI (fun u => mkUI x (viewportMeta u) (lastSignature u) (auditHistory u) (error u)
                       (loading u) (hasCompletedInitialScan u) (persisted u)).
Definition setViewportMeta (x : option ViewportMeta.t) : M unit :=
  setUI (fun u => mkUI (scans u) x (lastSignature u) (auditHistory u) (error u)
                       (loading u) (hasCompletedInitialScan u) (persisted u)).
Definition setLastSignature (x : Signature.t) : M unit :=
  setUI (fun u => mkUI (scans u) (viewportMeta u) x (auditHistory u) (error u)
                       (loading u) (hasCompletedInitialScan u) (persisted u)).
Definition setAuditHistory (x : list HistoryItem.t) : M unit :=
  setUI (fun u => mkUI (scans u) (viewportMeta u) (lastSignature u) x (error u)
                       (loading u) (hasCompletedInitialScan u) (persisted u)).
Definition setError (x : option string) : M unit :=
  setUI (fun u => mkUI (scans u) (viewportMeta u) (lastSignature u) (auditHistory u) x
                       (loading u) (hasCompletedInitialScan u) (persisted u)).
Definition setLoading (x : bool) : M unit :=
  setUI (fun u => mkUI (scans u) (viewportMeta u) (lastSignature u) (auditHistory u) (error u)
                       x (hasCompletedInitialScan u) (persisted u)).
Definition setHasCompletedInitialScan (x : bool) : M unit :=
  setUI (fun u => mkUI (scans u) (viewportMeta u) (lastSignature u) (auditHistory u) (error u)
                       (loading u) x (persisted u)).
Definition setPersisted (x : option Signature.t * option (list HistoryItem.t)) : M unit :=
  setUI (fun u => mkUI (scans u) (viewportMeta u) (lastSignature u) (auditHistory u) (error u)
                       (loading u) (hasCompletedInitialScan u) x).

(** [localStorage.setItem(key, ...)]: raises when the quota is exceeded. *)
Definition quotaExceeded : Exn := mkExn "QuotaExceededError" "The quota has been exceeded.".

Definition setItem (key : StorageKey) (store : UI -> option Signature.t * option (list HistoryItem.t))
  : M unit :=
  fun env w =>
    if storageFull env key then (Threw quotaExceeded, w)
    else setPersisted (store (ui w)) env w.

(** [persistScanState], src/App.tsx lines 112-119: the signature, then the
    last 100 entries of the history; a write that raises is dropped, and the
    write after it with it. *)
Definition persistScanState (sig : Signature.t) (history : list HistoryItem.t) : M unit :=
  try_catch
    (run setItem SIGNATURE (fun u => (Some sig, snd (persisted u)));
     setItem HISTORY
       (fun u => (fst (persisted u), Some (drop (length history - 100)%nat history))))
    (fun _ => ret tt).

End Run.

(** ** [analyzeUIScreen] (src/components/AuditOverlay.tsx lines 214-360) *)

Module Analysis.

Import Run Service.
Local Open Scope string_scope.
Local Open Scope Z_scope.

Definition maxRetries : nat := 2.

(** [text || fallback] on a possibly absent string *)
Definition text_or (text : option string) (fallback : string) : string :=
  match text with
  | Some t => if Str.is_empty t then fallback else t
  | None => fallback
  end.

(** Lines 222-225 *)
Definition filteredPrevious (previousSignature : Signature.t) : Signature.t :=
  Signature.mk None
    (Some (text_or (Signature.security_brief previousSignature) "Session Start."))
    (Signature.catalog_anchors previousSignature).

(** Lines 346-351 *)
Definition degraded (previousSignature : Signature.t) : ScanResponse.t :=
  ScanResponse.mk
    (ViewportMeta.mk 0 Caution "System Focus Failed.")
    []
    (Signature.mk (Some "Audit halted due to resource constraints.")
       (Signature.security_brief (filteredPrevious previousSignature))
       (Signature.catalog_anchors (filteredPrevious previousSignature)))
    (Some "Neural Link Failure (Rate Limited or Busy).").

Section WithHost.
Context {host : Host}.

(** Lines 294-337: the value returned for a parsed object whose
    [thought_signature] is [ts]. *)
Definition assembled (previousSignature : Signature.t) (parsed : Parsed.t) (ts : Signature.t)
  : ScanResponse.t :=
  let clampedScans :=
    map clampScan (match Parsed.scans parsed with Some l => l | None => [] end) in
  let incomingAnchors := Signature.catalog_anchors ts in
  let mergedAnchors :=
    mergeAnchors (Signature.catalog_anchors (filteredPrevious previousSignature))
                 incomingAnchors in
  ScanResponse.mk
    (calculateSafetyMetrics clampedScans)
    clampedScans
    (Signature.mk (Signature.reasoning_path ts) (Signature.security_brief ts) mergedAnchors)
    None.

(** Lines 294-337: from the parsed object to the value returned. *)
Definition interpret (previousSignature : Signature.t) (parsed : Parsed.t) : M ScanResponse.t :=
  match Parsed.thought_signature parsed with
  | None => throw typeError
  | Some ts => ret (assembled previousSignature parsed ts)
  end.

(** The rest of the [try] block once the response has arrived, lines
    292-337. *)
Definition receive (previousSignature : Signature.t) (text : option string)
  : M ScanResponse.t :=
  match tryParsePartialJSON (stripMarkdown (text_or text "{}")) with
  | None => throw syntaxError
  | Some parsed => interpret previousSignature parsed
  end.

(** The [catch] clause, lines 338-352, on the value it caught: an error
    object, or [None] for [undefined] or [null], on which [err.name] raises a
    TypeError.  [retry] is the rest of the loop when a retry is left. *)
Definition caught (previousSignature : Signature.t) (retryCount : nat)
    (retry : option (M ScanResponse.t)) (err : option Exn) : M ScanResponse.t :=
  match err with
  | None => throw typeError
  | Some err =>
      if String.eqb (exn_name err) "AbortError" then throw err
      else
        match retry with
        | Some again =>
            run wait (Z.of_nat (S retryCount) * 5000);
            again
        | None => ret (degraded previousSignature)
        end
  end.

(** The [while] loop of lines 227-353, by recursion on
    [maxRetries - retryCount].  The [await] of line 230 either gives the
    response to the rest of the [try] block or throws the reason of the
    rejection into the [catch] clause.  The loop leaves only through a
    [return] or a [throw]: [retryCount] is incremented under the guard
    [retryCount < maxRetries], so the test of the [while] never fails and the
    statement after the loop (lines 354-359) is not reached. *)
Fixpoint attempts (previousSignature : Signature.t) (remaining : nat) : M ScanResponse.t :=
  let retryCount := (maxRetries - remaining)%nat in
  let retry :=
    match remaining with
    | S fewer => Some (attempts previousSignature fewer)
    | O => None
    end in
  do isAborted <- aborted;
  if isAborted then throw abortSentinel
  else
    do reply <- generateContent;
    match reply with
    | Replied text =>
        try_catch (receive previousSignature text)
                  (fun err => caught previousSignature retryCount retry (Some err))
    | Rejected err => caught previousSignature retryCount retry (Some err)
    | RejectedNullish => caught previousSignature retryCount retry None
    end.

Definition analyzeUIScreen (previousSignature : Signature.t) : M ScanResponse.t :=
  attempts previousSignature maxRetries.

(** The [n]-th request ends in an error that the [catch] clause retries: the
    backend rejects it with an error object that is not an abort, or its
    text cannot be parsed, or the parsed object has no [thought_signature]. *)
Definition attempt_fails (env : Env) (n : nat) : bool :=
  match backend env n with
  | Rejected e => negb (String.eqb (exn_name e) "AbortError")
  | RejectedNullish => false
  | Replied text =>
      match tryParsePartialJSON (stripMarkdown (text_or text "{}")) with
      | None => true
      | Some parsed =>
          match Parsed.thought_signature parsed with
          | None => true
          | Some _ => false
          end
      end
  end.

End WithHost.

(** The events of a call that goes through every retry, from the request
    number [n] on, with [remaining] retries left. *)
Fixpoint schedule (remaining : nat) (n : nat) : list Event :=
  EvCall n ::
  match remaining with
  | S fewer => EvWait (Z.of_nat (S (maxRetries - remaining)) * 5000) :: schedule fewer (S n)
  | O => []
  end.

End Analysis.

(** ** The tile loop of [handleScan] (src/App.tsx lines 216-340) *)

Module Orchestrator.

Import Run Service Analysis.
Local Open Scope string_scope.
Local Open Scope Z_scope.

Definition TILE_COOLDOWN : Z := 5000.

(** A component of a destructured box; an absent one is [undefined], which
    the arithmetic turns into NaN. *)
Definition component (coordinates : list jsnum) (i : nat) : jsnum :=
  nth i coordinates NaN.

(** [coordinates.every(c => c === 0)] *)
Definition all_zero (coordinates : list jsnum) : bool :=
  forallb (fun c => JS.strict_eq c (Fin 0)) coordinates.

(** Lines 288-289 and 304-305:
    [(((ly / 1000 * currentTileHeight) + offsetY) / fullHeight) * 1000], in the
    arithmetic of doubles. *)
Definition remapY (ly : jsnum) (tileHeight offset fullHeight : Z) : jsnum :=
  JS.fmul (JS.fdiv (JS.fadd (JS.fmul (JS.fdiv ly (Fin 1000)) (JS.ofZ tileHeight))
                            (JS.ofZ offset))
                   (JS.ofZ fullHeight))
          (Fin 1000).

(** [[gy1, lxmin, gy2, lxmax]] *)
Definition remap (coordinates : list jsnum) (tileHeight offset fullHeight : Z) : list jsnum :=
  [ remapY (component coordinates 0) tileHeight offset fullHeight;
    component coordinates 1;
    remapY (component coordinates 2) tileHeight offset fullHeight;
    component coordinates 3 ].

(** Lines 291-297 *)
Definition syntheticFinding (anchor : CatalogAnchor.t) (tileHeight offset fullHeight : Z)
  : DarkPatternScan.t :=
  DarkPatternScan.mk
    "BAIT-AND-SWITCH"
    (remap (CatalogAnchor.coordinates anchor) tileHeight offset fullHeight)
    High
    (CatalogAnchor.name anchor ++ ": Price hiked since session start.")
    "Suspicious price movement detected. Re-verify the total before confirming.".

(** Line 286 *)
Definition reportable (anchor : CatalogAnchor.t) : bool :=
  CatalogAnchor.is_violation anchor
  && CatalogAnchor.is_currently_visible anchor
  && negb (all_zero (CatalogAnchor.coordinates anchor)).

(** Lines 282-308 *)
Definition tileSpecificScans (result : ScanResponse.t) (tileHeight offset fullHeight : Z)
  : list DarkPatternScan.t :=
  map (fun anchor => syntheticFinding anchor tileHeight offset fullHeight)
      (List.filter reportable
              (Signature.catalog_anchors (ScanResponse.thought_signature result)))
  ++
  map (fun scan =>
         DarkPatternScan.mk (DarkPatternScan.pattern_type scan)
           (remap (DarkPatternScan.coordinates scan) tileHeight offset fullHeight)
           (DarkPatternScan.severity scan)
           (DarkPatternScan.truth_label scan)
           (DarkPatternScan.action_fix scan))
      (List.filter (fun scan => negb (all_zero (DarkPatternScan.coordinates scan)))
              (ScanResponse.scans result)).

(** The variables of the loop, lines 240-244. *)
Record Loop : Type := mkLoop {
  loopSignature : Signature.t;
  currentTotalScans : list DarkPatternScan.t;
  loopHistory : list HistoryItem.t;
  finalStatus : DefensiveStatus;
  finalAdvice : string
}.

(** Lines 314-320 *)
Definition foldStatus (meta : ViewportMeta.t) (st : Loop) : DefensiveStatus * string :=
  if DefensiveStatus_eqb (ViewportMeta.status meta) Compromised then
    (Compromised, ViewportMeta.advice meta)
  else if DefensiveStatus_eqb (ViewportMeta.status meta) Caution
          && negb (DefensiveStatus_eqb (finalStatus st) Compromised) then
    (Caution, ViewportMeta.advice meta)
  else (finalStatus st, finalAdvice st).

(** Lines 310-322: the loop variables after a tile that returned no error. *)
Definition absorb (result : ScanResponse.t) (tileHeight offset fullHeight : Z) (st : Loop)
  : Loop :=
  let found := tileSpecificScans result tileHeight offset fullHeight in
  mkLoop
    (Signature.spread (loopSignature st) (ScanResponse.thought_signature result))
    (currentTotalScans st ++ found)
    (loopHistory st
     ++ map (fun m => HistoryItem.mk (DarkPatternScan.pattern_type m)
                                     (DarkPatternScan.truth_label m)) found)
    (fst (foldStatus (ScanResponse.viewport_meta result) st))
    (snd (foldStatus (ScanResponse.viewport_meta result) st)).

(** Lines 325-328 *)
Definition emit (st : Loop) : M unit :=
  run setScans (currentTotalScans st);
  run setAuditHistory (loopHistory st);
  run setViewportMeta
        (Some (ViewportMeta.mk (length (currentTotalScans st)) (finalStatus st) (finalAdvice st)));
  setLastSignature (loopSignature st).

Section WithHost.
Context {host : Host}.

(** The [for] loop of lines 250-329 over the tile indices still to do.  The
    progress indicator and the drawing of the tile on the canvas are left
    out: the canvas gives its 2D context (the loop does not leave at line
    268; [tileLoopOn] below keeps that exit) and the drawing does not raise;
    the tile reaches the backend as the request number of the call. *)
Fixpoint tileLoop (fullHeight : Z) (todo : list Z) (st : Loop) : M Loop :=
  match todo with
  | [] => ret st
  | i :: later =>
      do isAborted <- aborted;
      if isAborted then throw abortSentinel
      else
        run (if 0 <? i then wait TILE_COOLDOWN else ret tt);
        let offset := offsetY i in
        let tileHeight := currentTileHeight fullHeight i in
        do result <- analyzeUIScreen (loopSignature st);
        if negb (Str.is_empty (text_or (ScanResponse.error result) ""))
        then
          run setError (ScanResponse.error result);
          ret st
        else
          let st' := absorb result tileHeight offset fullHeight st in
          run emit st';
          tileLoop fullHeight later st'
  end.

(** The indices [0 .. numTiles - 1] *)
Definition tileIndices (fullHeight : Z) : list Z :=
  map Z.of_nat (seq 0 (Z.to_nat (numTiles fullHeight))).

(** Lines 240-244 *)
Definition initialLoop (u : UI) : Loop :=
  mkLoop (lastSignature u) [] (auditHistory u) Safe
         "Interface appears transparent. Safe to proceed.".

(** [handleScan] from line 223 on, for a loaded image of height
    [fullHeight] and an idle application (the guards of lines 217-222 and
    the presence of the canvas and of its 2D context are taken for granted;
    [handleScanOn] below keeps the exit of line 268). *)
Definition handleScan (fullHeight : Z) : M unit :=
  fun env w =>
    let body : M unit :=
      run setLoading true;
      run setError None;
      run setScans [];
      try_catch
        (do st <- tileLoop fullHeight (tileIndices fullHeight) (initialLoop (ui w));
         run persistScanState (loopSignature st) (loopHistory st);
         setHasCompletedInitialScan true)
        (fun err =>
           if String.eqb (exn_message err) "AbortError" then ret tt
           else setError (Some "Audit Failure. System Overload.")) in
    (run body; setLoading false) env w.

(** The same loop with line 268 kept: [context2d i] tells whether
    [canvas.getContext('2d')] gives a context at tile [i].  Without it
    [handleScan] returns from inside the loop, after the cooldown and before
    the request; the result [None] stands for that [return]. *)
Fixpoint tileLoopOn (context2d : Z -> bool) (fullHeight : Z) (todo : list Z) (st : Loop)
  : M (option Loop) :=
  match todo with
  | [] => ret (Some st)
  | i :: later =>
      do isAborted <- aborted;
      if isAborted then throw abortSentinel
      else
        run (if 0 <? i then wait TILE_COOLDOWN else ret tt);
        let offset := offsetY i in
        let tileHeight := currentTileHeight fullHeight i in
        if negb (context2d i) then ret None
        else
          do result <- analyzeUIScreen (loopSignature st);
          if negb (Str.is_empty (text_or (ScanResponse.error result) ""))
          then
            run setError (ScanResponse.error result);
            ret (Some st)
          else
            let st' := absorb result tileHeight offset fullHeight st in
            run emit st';
            tileLoopOn context2d fullHeight later st'
  end.

(** [handleScan] with that [return]: it leaves the [try] block, skipping
    lines 331-332, and the [finally] block runs. *)
Definition handleScanOn (context2d : Z -> bool) (fullHeight : Z) : M unit :=
  fun env w =>
    let body : M unit :=
      run setLoading true;
      run setError None;
      run setScans [];
      try_catch
        (do ended <- tileLoopOn context2d fullHeight (tileIndices fullHeight)
                                (initialLoop (ui w));
         match ended with
         | Some st =>
             run persistScanState (loopSignature st) (loopHistory st);
             setHasCompletedInitialScan true
         | None => ret tt
         end)
        (fun err =>
           if String.eqb (exn_message err) "AbortError" then ret tt
           else setError (Some "Audit Failure. System Overload.")) in
    (run body; setLoading false) env w.

End WithHost.

(** The outcome of a run started in the world [w]. *)
Definition final {A : Type} (m : M A) (env : Env) (w : World) : World := snd (m env w).

End Orchestrator.

(** ** Concrete hosts and runs *)

Module Scenario.

Import Run Service Analysis Orchestrator.
Local Open Scope string_scope.
Local Open Scope Z_scope.

(** A host whose [JSON.parse] decodes the texts of a table (each text stands
    for the JSON serialisation of the object next to it) and raises on any
    other text, whose [Number] gives NaN on strings, arrays and objects, and
    whose [toLowerCase] is that of the letters A to Z (the names of the
    scenarios are ASCII). *)
Definition tableHost (table : list (string * Parsed.t)) : Host :=
  {| JSON_parse := fun text =>
       option_map snd (List.find (fun entry => String.eqb (fst entry) text) table);
     coerce := fun _ => NaN;
     String_toLowerCase := Str.toLowerCase |}.

Definition idleUI : UI := mkUI [] None Signature.empty [] None false false (None, None).

(** A fresh session: time zero, nothing stored, nothing displayed. *)
Definition freshWorld : World := mkWorld 0 0 [] idleUI.

(** An observation of the item "sku1". *)
Definition sku1 (price : string) (numeric : Q) (box : list jsnum) : CatalogAnchor.t :=
  CatalogAnchor.mk "sku1" "Pro plan" price (Some (Fin numeric)) None None box false true.

Definition box1 : list jsnum := [Fin 100; Fin 100; Fin 200; Fin 300].

(** A response without findings that reports the given anchors. *)
Definition reports (anchors : list CatalogAnchor.t) : Parsed.t :=
  Parsed.mk (Some []) (Some (Signature.mk (Some "trace") (Some "brief") anchors)).

Definition tile1 : Parsed.t := reports [sku1 "$10.00" 10 box1].
Definition tile2 : Parsed.t := reports [sku1 "$12.00" 12 box1].

Definition twoTileHost : Host := tableHost [("{tile-1}", tile1); ("{tile-2}", tile2)].

(** The backend answers the first request with tile 1's response and every
    later one with tile 2's; each request takes [d] milliseconds. *)
Definition twoTileEnv (cancel : option Z) (d : Z) : Env :=
  mkEnv cancel
        (fun n => match n with
                  | O => Replied (Some "{tile-1}")
                  | _ => Replied (Some "{tile-2}")
                  end)
        (fun _ => d)
        (fun _ => false).

(** The double quote, and a text between double quotes. *)
Definition dq : string := String (ascii_of_nat 34) EmptyString.
Definition quoted (s : string) : string := dq ++ s ++ dq.

(** A backend that rejects every request for a reason other than an abort. *)
Definition busyEnv (cancel : option Z) : Env :=
  mkEnv cancel (fun _ => Rejected (mkExn "ApiError" "429 Too Many Requests")) (fun _ => 1000)
        (fun _ => false).

(** A response whose finding and whose anchor both carry the box
    [1200, -5, 1500.5, 2000]. *)
Definition wideBox : list jsnum := [Fin 1200; Fin (-5); Fin (3001 # 2); Fin 2000].

Definition wideResponse : Parsed.t :=
  Parsed.mk
    (Some [RawScan.mk "SCARCITY" (JArr (map JNum wideBox)) (Some "Medium")
             "Only 2 left" "Ignore the counter."])
    (Some (Signature.mk (Some "trace") (Some "brief") [sku1 "$10.00" 10 wideBox])).

Definition wideHost : Host := tableHost [("{wide}", wideResponse)].

Definition wideEnv : Env :=
  mkEnv None (fun _ => Replied (Some "{wide}")) (fun _ => 1000) (fun _ => false).

(** The loop variables after an earlier tile that produced one finding. *)
Definition earlierFinding : DarkPatternScan.t :=
  DarkPatternScan.mk "SCARCITY" [Fin 10; Fin 20; Fin 30; Fin 40] Medium
    "Only 2 left" "Ignore the counter.".

Definition midLoop : Loop :=
  mkLoop Signature.empty [earlierFinding] [] Caution
         "Manipulative patterns detected. Stay objective.".

Definition midWorld : World :=
  mkWorld 1000 1 [EvCall 0]
    (mkUI [earlierFinding]
          (Some (ViewportMeta.mk 1 Caution "Manipulative patterns detected. Stay objective."))
          Signature.empty [] None true false (None, None)).

(** A response cut by the output limit just before its last brace:
    [{"thought_signature":{"catalog_anchors":[]}] *)
Definition cutResponse : string :=
  "{" ++ quoted "thought_signature" ++ ":{" ++ quoted "catalog_anchors" ++ ":[]}".

(** A response that lost its last brace and is wrapped in text and white
    space. *)
Definition paddedResponse : string := "  junk {" ++ quoted "scans" ++ ":[]   ".


(** A host that parses the completed text [cutResponse ++ "}"]. *)
Definition completingHost : Host :=
  tableHost [(cutResponse ++ "}", Parsed.mk None (Some Signature.empty))].

End Scenario.

(** ** The recovery procedure in the words of the specification (4.4) *)

Module SpecWords.

Local Open Scope string_scope.

Section WithHost.
Context {host : Host}.

(** On a text that fails strict parsing: append as many closing braces as
    the open braces exceed the close braces and parse; if that fails, parse
    the prefix that ends at the last closing brace; fail otherwise. *)
Definition spec_recovery (text : string) : option Parsed.t :=
  match JSON_parse text with
  | Some v => Some v
  | None =>
      let excess := (Str.count "{" text - Str.count "}" text)%nat in
      match JSON_parse (text ++ Str.repeat "}" excess) with
      | Some v => Some v
      | None =>
          match Str.lastIndexOf "}" text with
          | Some lastBrace => JSON_parse (Str.take (lastBrace + 1) text)
          | None => None
          end
      end
  end.

End WithHost.

End SpecWords.

(** ** The overlay boxes (src/components/AuditOverlay.tsx lines 15-46 and
       src/App.tsx lines 342-350) *)

Module Overlay.

Import Orchestrator.
Local Open Scope Z_scope.

(** Line 16: the component renders nothing for a box of zeros. *)
Definition hidden (scan : DarkPatternScan.t) : bool :=
  all_zero (DarkPatternScan.coordinates scan).

(** Lines 27-28 *)
Definition boxHeight (coordinates : list jsnum) : jsnum :=
  JS.sub (component coordinates 2) (component coordinates 0).
Definition boxWidth (coordinates : list jsnum) : jsnum :=
  JS.sub (component coordinates 3) (component coordinates 1).


(** Lines 35-38: [top], [left], [width] and [height], in percent. *)
Definition boxTop (coordinates : list jsnum) : jsnum :=
  JS.div (component coordinates 0) (Fin 10).
Definition boxLeft (coordinates : list jsnum) : jsnum :=
  JS.div (component coordinates 1) (Fin 10).
Definition boxWidthPercent (coordinates : list jsnum) : jsnum :=
  JS.div (boxWidth coordinates) (Fin 10).
Definition boxHeightPercent (coordinates : list jsnum) : jsnum :=
  JS.div (boxHeight coordinates) (Fin 10).












End Overlay.

(** ** Orderings and relations used in the statements *)

(** Safe, then Caution, then Compromised. *)
Definition status_rank (s : DefensiveStatus) : nat :=
  match s with
  | Safe => 0
  | Caution => 1
  | Compromised => 2
  end.

(** What the catalog keeps of an anchor [a] in the anchor [a'] that takes its
    place: the id, the baseline price once it is set, and the baseline text
    once it is set and not empty. *)
Definition kept (a a' : CatalogAnchor.t) : Prop :=
  CatalogAnchor.id a' = CatalogAnchor.id a
  /\ (forall b, CatalogAnchor.original_numeric_price a = Some b ->
                CatalogAnchor.original_numeric_price a' = Some b)
  /\ (forall p, CatalogAnchor.original_price a = Some p -> p <> EmptyString ->
                CatalogAnchor.original_price a' = Some p).

(** The anchors of [cat] are still in [cat'], each at its index, as [kept]
    says. *)
Definition keeps_catalog (cat cat' : list CatalogAnchor.t) : Prop :=
  forall i a, cat !! i = Some a -> exists a', cat' !! i = Some a' /\ kept a a'.



(* ================================================================== *)
(** * Properties *)
(* ================================================================== *)

(** ** Partitioner *)

Section Partition.

Ltac tile_constants :=
  unfold in_tile, currentTileHeight, offsetY, effectiveTileHeight, maxTileHeight, overlap in *.

Lemma ceil_div_spec (a b : Z) :
  0 < b -> b * (ceil_div a b - 1) < a <= b * ceil_div a b.
Proof.
  intros Hb. unfold ceil_div.
  pose proof (Z.div_mod (- a) b ltac:(lia)) as Hdm.
  pose proof (Z.mod_pos_bound (- a) b Hb) as Hmod.
  lia.
Qed.

Lemma numTiles_tall (H : Z) :
  maxTileHeight < H ->
  numTiles H = ceil_div (H - overlap) effectiveTileHeight
  /\ effectiveTileHeight * (numTiles H - 1) < H - overlap <= effectiveTileHeight * numTiles H
  /\ 2 <= numTiles H.
Proof.
  intros Htall. unfold numTiles.
  destruct (Z.leb_spec H maxTileHeight) as [Hle | _]; [lia |].
  pose proof (ceil_div_spec (H - overlap) effectiveTileHeight ltac:(reflexivity)) as Hc.
  repeat split; try lia.
  tile_constants. lia.
Qed.

Lemma numTiles_short (H : Z) : H <= maxTileHeight -> numTiles H = 1.
Proof.
  intros Hle. unfold numTiles.
  destruct (Z.leb_spec H maxTileHeight); [reflexivity | lia].
Qed.

(** Every tile lies inside the image, and is not empty unless the image is. *)
Lemma tile_within (H i : Z) :
  0 <= H -> 0 <= i < numTiles H ->
  0 <= offsetY i
  /\ 0 <= currentTileHeight H i
  /\ offsetY i + currentTileHeight H i <= H
  /\ (0 < H -> 0 < currentTileHeight H i).
Proof.
  intros HH Hi. unfold offsetY, currentTileHeight.
  destruct (Z_le_gt_dec H maxTileHeight) as [Hshort | Htall].
  - rewrite (numTiles_short H Hshort) in Hi.
    assert (i = 0) by lia. subst i.
    tile_constants. lia.
  - destruct (numTiles_tall H ltac:(lia)) as (_ & Hc & _).
    tile_constants. lia.
Qed.

(** All tiles but the last have the full height. *)
Lemma inner_tile_full (H i : Z) :
  0 <= i -> i + 1 < numTiles H -> currentTileHeight H i = maxTileHeight.
Proof.
  intros Hi Hnext. unfold currentTileHeight, offsetY.
  destruct (Z_le_gt_dec H maxTileHeight) as [Hshort | Htall].
  - rewrite (numTiles_short H Hshort) in Hnext. lia.
  - destruct (numTiles_tall H ltac:(lia)) as (_ & Hc & _).
    tile_constants. lia.
Qed.

(** C5: for every image height [H >= 0], with [T = 1536] and [O = 150]: one
    tile when [H <= T], and [ceil((H - O) / (T - O))] tiles otherwise (the
    least [n] with [H - O <= n * (T - O)]); tile [i] starts at row
    [i * (T - O)] and has [min(T, H - offset)] rows; every row of [0, H) is in
    some tile and no tile leaves the image; every tile but the last has the
    full height [T], and the rows that two consecutive tiles share are
    exactly the [O] rows that start at the offset of the second. *)
Theorem partition_covers_with_overlap (H : Z) :
  0 <= H ->
  (H <= maxTileHeight -> numTiles H = 1)
  /\ (maxTileHeight < H ->
      numTiles H = ceil_div (H - overlap) (maxTileHeight - overlap)
      /\ (maxTileHeight - overlap) * (numTiles H - 1) < H - overlap
         <= (maxTileHeight - overlap) * numTiles H)
  /\ (forall i, offsetY i = i * (maxTileHeight - overlap)
                /\ currentTileHeight H i = Z.min maxTileHeight (H - offsetY i))
  /\ (forall y, 0 <= y < H -> exists i, 0 <= i < numTiles H /\ in_tile H i y)
  /\ (forall i y, 0 <= i < numTiles H -> in_tile H i y -> 0 <= y < H)
  /\ (forall i, 0 <= i -> i + 1 < numTiles H ->
        currentTileHeight H i = maxTileHeight
        /\ forall y, in_tile H i y /\ in_tile H (i + 1) y
                     <-> offsetY (i + 1) <= y < offsetY (i + 1) + overlap).
Proof.
  intros HH. split; [apply numTiles_short |].
  split.
  { intros Htall. destruct (numTiles_tall H Htall) as (Hn & Hc & _).
    split; [exact Hn | exact Hc]. }
  split; [intros i; split; reflexivity |].
  split.
  { intros y Hy.
    destruct (Z_le_gt_dec H maxTileHeight) as [Hshort | Htall].
    - exists 0. rewrite (numTiles_short H Hshort).
      unfold in_tile, offsetY, currentTileHeight in *. tile_constants. lia.
    - destruct (numTiles_tall H ltac:(lia)) as (_ & Hc & Hn).
      exists (Z.min (y / effectiveTileHeight) (numTiles H - 1)).
      pose proof (Z.div_mod y effectiveTileHeight ltac:(discriminate)) as Hdm.
      pose proof (Z.mod_pos_bound y effectiveTileHeight ltac:(reflexivity)) as Hmod.
      assert (0 <= y / effectiveTileHeight)
        by (apply Z.div_pos; [lia | reflexivity]).
      unfold in_tile, offsetY, currentTileHeight in *.
      tile_constants. lia. }
  split.
  { intros i y Hi Hy.
    destruct (tile_within H i HH Hi) as (Ho & Hh & Hend & _).
    unfold in_tile in Hy. lia. }
  intros i Hi Hnext.
  pose proof (inner_tile_full H i Hi Hnext) as Hfull.
  split; [exact Hfull |].
  intros y.
  destruct (tile_within H (i + 1) HH ltac:(lia)) as (_ & _ & _ & _).
  assert (Hlast : overlap < currentTileHeight H (i + 1)).
  { unfold currentTileHeight, offsetY.
    destruct (Z_le_gt_dec H maxTileHeight) as [Hshort | Htall].
    - rewrite (numTiles_short H Hshort) in Hnext. lia.
    - destruct (numTiles_tall H ltac:(lia)) as (_ & Hc & _).
      tile_constants. lia. }
  unfold in_tile. rewrite Hfull.
  unfold offsetY in *. tile_constants. lia.
Qed.

Lemma partition_covers_with_overlap_witness :
  0 <= 2000
  /\ numTiles 2000 = 2
  /\ (forall y, 0 <= y < 2000 -> exists i, 0 <= i < numTiles 2000 /\ in_tile 2000 i y).
Proof.
  split; [lia |]. split; [reflexivity |].
  exact (proj1 (proj2 (proj2 (proj2 (partition_covers_with_overlap 2000 ltac:(lia)))))).
Defined.

End Partition.

(** ** Rounding to binary64 *)

Section Rounding.

Local Open Scope Q_scope.


Lemma pow2_pos (e : Z) : 0 < pow2 e.
Proof. apply Qpower_0_lt. reflexivity. Qed.

Lemma pow2_add (a b : Z) : pow2 (a + b) == pow2 a * pow2 b.
Proof. apply Qpower_plus. discriminate. Qed.

Lemma pow2_le (a b : Z) : (a <= b)%Z -> pow2 a <= pow2 b.
Proof. intros H. apply Qpower_le_compat_l; [exact H | discriminate]. Qed.

Lemma pow2_lt (a b : Z) : (a < b)%Z -> pow2 a < pow2 b.
Proof. intros H. apply Qpower_lt_compat_l; [exact H | reflexivity]. Qed.

Lemma pow2_Z (e : Z) : (0 <= e)%Z -> pow2 e == inject_Z (2 ^ e).
Proof. intros H. unfold pow2. rewrite Zpower_Qpower by exact H. reflexivity. Qed.

Lemma pow2_le_inv (a b : Z) : pow2 a <= pow2 b -> (a <= b)%Z.
Proof. intros H. apply (Qpower_le_compat_l_inv 2); [exact H | reflexivity]. Qed.

Lemma pow2_lt_inv (a b : Z) : pow2 a < pow2 b -> (a < b)%Z.
Proof. intros H. apply (Qpower_lt_compat_l_inv 2); [exact H | reflexivity]. Qed.

Lemma pow2_sub (a b : Z) : pow2 (a - b) == pow2 a / pow2 b.
Proof.
  unfold Z.sub. rewrite pow2_add. unfold pow2 at 2. rewrite Qpower_opp. reflexivity.
Qed.

Lemma Q_as_fraction (x : Q) : x == inject_Z (Qnum x) / inject_Z (Zpos (Qden x)).
Proof. destruct x as [n d]. simpl. rewrite Qmake_Qdiv. reflexivity. Qed.

Lemma ilog2_spec (x : Q) : 0 < x -> pow2 (ilog2 x) <= x < pow2 (ilog2 x + 1).
Proof.
  intros Hx.
  assert (Hn : (0 < Qnum x)%Z) by (unfold Qlt in Hx; simpl in Hx; lia).
  pose proof (Z.log2_spec (Qnum x) Hn) as [Hn1 Hn2].
  pose proof (Z.log2_spec (Zpos (Qden x)) eq_refl) as [Hd1 Hd2].
  pose proof (Z.log2_nonneg (Qnum x)) as Ha.
  pose proof (Z.log2_nonneg (Zpos (Qden x))) as Hb.
  set (a := Z.log2 (Qnum x)) in *. set (b := Z.log2 (Zpos (Qden x))) in *.
  assert (Hdq : 0 < inject_Z (Zpos (Qden x))) by reflexivity.
  assert (Hup : x < pow2 (a - b + 1)).
  { replace (a - b + 1)%Z with (Z.succ a - b)%Z by lia.
    rewrite pow2_sub, (pow2_Z (Z.succ a)), (pow2_Z b) by lia.
    rewrite (Q_as_fraction x) at 1.
    apply Qlt_shift_div_l; [unfold Qlt; simpl; lia |].
    unfold Qdiv. rewrite <- Qmult_assoc, (Qmult_comm (/ _)), Qmult_assoc.
    apply Qlt_shift_div_r; [exact Hdq |].
    rewrite <- !inject_Z_mult. rewrite <- Zlt_Qlt. nia. }
  assert (Hlo : pow2 (a - b - 1) < x).
  { replace (a - b - 1)%Z with (a - Z.succ b)%Z by lia.
    rewrite pow2_sub, (pow2_Z a), (pow2_Z (Z.succ b)) by lia.
    rewrite (Q_as_fraction x) at 1.
    apply Qlt_shift_div_r; [unfold Qlt; simpl; lia |].
    unfold Qdiv. rewrite <- Qmult_assoc, (Qmult_comm (/ _)), Qmult_assoc.
    apply Qlt_shift_div_l; [exact Hdq |].
    rewrite <- !inject_Z_mult. rewrite <- Zlt_Qlt. nia. }
  unfold ilog2. fold a b.
  destruct (Qle_bool (pow2 (a - b)) x) eqn:E.
  - apply Qle_bool_iff in E. split; assumption.
  - replace (a - b - 1 + 1)%Z with (a - b)%Z by lia.
    split; [apply Qlt_le_weak; exact Hlo |].
    apply Qnot_le_lt. intros Hle. apply Qle_bool_iff in Hle. congruence.
Qed.

Lemma ilog2_unique (x : Q) (e : Z) : pow2 e <= x < pow2 (e + 1) -> ilog2 x = e.
Proof.
  intros [Hlo Hhi].
  assert (Hx : 0 < x) by (eapply Qlt_le_trans; [apply (pow2_pos e) | exact Hlo]).
  destruct (ilog2_spec x Hx) as [Slo Shi].
  assert (ilog2 x < e + 1)%Z by (apply pow2_lt_inv; eapply Qle_lt_trans; eassumption).
  assert (e < ilog2 x + 1)%Z by (apply pow2_lt_inv; eapply Qle_lt_trans; eassumption).
  lia.
Qed.

Lemma ilog2_mono (x y : Q) : 0 < x -> x <= y -> (ilog2 x <= ilog2 y)%Z.
Proof.
  intros Hx Hxy.
  assert (Hy : 0 < y) by (eapply Qlt_le_trans; eassumption).
  destruct (ilog2_spec x Hx) as [Xlo Xhi]. destruct (ilog2_spec y Hy) as [Ylo Yhi].
  assert (ilog2 x < ilog2 y + 1)%Z; [| lia].
  apply pow2_lt_inv. eapply Qle_lt_trans; [exact Xlo |]. eapply Qle_lt_trans; eassumption.
Qed.

Lemma ilog2_comp (x y : Q) : 0 < x -> x == y -> ilog2 x = ilog2 y.
Proof.
  intros Hx Hxy. symmetry. apply ilog2_unique. rewrite <- Hxy. apply ilog2_spec. exact Hx.
Qed.

(** *** Nearest integer, ties to even *)

Lemma rne_comp (x y : Q) : x == y -> rne x = rne y.
Proof.
  intros H. unfold rne. rewrite (Qfloor_comp x y H).
  assert (Hc : (x - inject_Z (Qfloor y) ?= 1 # 2) = (y - inject_Z (Qfloor y) ?= 1 # 2)).
  { apply Qcompare_comp; [| reflexivity]. rewrite H. reflexivity. }
  rewrite Hc. reflexivity.
Qed.

Lemma rne_floor (x : Q) : (Qfloor x <= rne x <= Qfloor x + 1)%Z.
Proof.
  unfold rne. destruct (_ ?= _); [destruct (Z.even _) | |]; lia.
Qed.

Lemma rne_Z (z : Z) : rne (inject_Z z) = z.
Proof.
  unfold rne. rewrite Qfloor_Z.
  assert (H : (inject_Z z - inject_Z z ?= 1 # 2) = Lt).
  { apply (proj1 (Qlt_alt _ _)). lra. }
  rewrite H. reflexivity.
Qed.

Lemma rne_mono (x y : Q) : x <= y -> (rne x <= rne y)%Z.
Proof.
  intros Hxy.
  pose proof (Qfloor_resp_le x y Hxy) as Hf.
  pose proof (rne_floor x) as Hx. pose proof (rne_floor y) as Hy.
  destruct (Z.eq_dec (Qfloor x) (Qfloor y)) as [Heq | Hne]; [| lia].
  unfold rne in *. rewrite <- Heq in *.
  destruct (Qcompare_spec (x - inject_Z (Qfloor x)) (1 # 2)) as [Ex | Ex | Ex];
    destruct (Qcompare_spec (y - inject_Z (Qfloor x)) (1 # 2)) as [Ey | Ey | Ey];
    try (destruct (Z.even (Qfloor x))); try lia; exfalso; lra.
Qed.

Lemma rne_le_Z (x : Q) (n : Z) : x <= inject_Z n -> (rne x <= n)%Z.
Proof. intros H. rewrite <- (rne_Z n). apply rne_mono. exact H. Qed.

Lemma rne_ge_Z (x : Q) (n : Z) : inject_Z n <= x -> (n <= rne x)%Z.
Proof. intros H. rewrite <- (rne_Z n). apply rne_mono. exact H. Qed.

Lemma rne_err (x : Q) : Qabs (inject_Z (rne x) - x) <= 1 # 2.
Proof.
  pose proof (Qfloor_le x) as Hlo. pose proof (Qlt_floor x) as Hhi.
  rewrite inject_Z_plus in Hhi. change (inject_Z 1) with 1 in Hhi.
  apply Qabs_Qle_condition. unfold rne.
  destruct (Qcompare_spec (x - inject_Z (Qfloor x)) (1 # 2)) as [E | E | E];
    [destruct (Z.even (Qfloor x)) | |];
    rewrite ?inject_Z_plus; change (inject_Z 1) with 1; split; lra.
Qed.

(** *** Rounding of a positive rational *)

Lemma ulp_exponent_mono (x y : Q) : 0 < x -> x <= y -> (ulp_exponent x <= ulp_exponent y)%Z.
Proof.
  intros Hx Hxy. unfold ulp_exponent. pose proof (ilog2_mono x y Hx Hxy). lia.
Qed.

Lemma ulp_exponent_comp (x y : Q) : 0 < x -> x == y -> ulp_exponent x = ulp_exponent y.
Proof. intros Hx Hxy. unfold ulp_exponent. rewrite (ilog2_comp x y Hx Hxy). reflexivity. Qed.

(** A grid point: an integer multiple of a power of two that is at least
    the unit in the last place of [x]. *)
Lemma grid_scaled (m j k : Z) :
  (k <= j)%Z -> inject_Z m * pow2 j / pow2 k == inject_Z (m * 2 ^ (j - k)).
Proof.
  intros Hkj. rewrite inject_Z_mult, <- (pow2_Z (j - k)) by lia.
  rewrite pow2_sub. unfold Qdiv. ring.
Qed.

Lemma scale_back (a : Q) (k : Z) : a / pow2 k * pow2 k == a.
Proof.
  pose proof (pow2_pos k). field. intros E. rewrite E in H. discriminate.
Qed.

Lemma round_pos_le_grid (x : Q) (m j : Z) :
  (ulp_exponent x <= j)%Z -> x <= inject_Z m * pow2 j -> round_pos x <= inject_Z m * pow2 j.
Proof.
  intros Hj Hle. unfold round_pos. set (k := ulp_exponent x) in *.
  pose proof (pow2_pos k) as Hk.
  rewrite <- (scale_back (inject_Z m * pow2 j) k).
  apply Qmult_le_compat_r; [| apply Qlt_le_weak; exact Hk].
  rewrite (grid_scaled m j k Hj). rewrite <- Zle_Qle. apply rne_le_Z.
  rewrite <- (grid_scaled m j k Hj).
  apply Qmult_le_compat_r; [exact Hle |]. apply Qlt_le_weak, Qinv_lt_0_compat, Hk.
Qed.

Lemma round_pos_ge_grid (x : Q) (m j : Z) :
  (ulp_exponent x <= j)%Z -> inject_Z m * pow2 j <= x -> inject_Z m * pow2 j <= round_pos x.
Proof.
  intros Hj Hle. unfold round_pos. set (k := ulp_exponent x) in *.
  pose proof (pow2_pos k) as Hk.
  rewrite <- (scale_back (inject_Z m * pow2 j) k).
  apply Qmult_le_compat_r; [| apply Qlt_le_weak; exact Hk].
  rewrite (grid_scaled m j k Hj). rewrite <- Zle_Qle. apply rne_ge_Z.
  rewrite <- (grid_scaled m j k Hj).
  apply Qmult_le_compat_r; [exact Hle |]. apply Qlt_le_weak, Qinv_lt_0_compat, Hk.
Qed.

Lemma round_pos_grid (x : Q) (m j : Z) :
  (ulp_exponent x <= j)%Z -> x == inject_Z m * pow2 j -> round_pos x == x.
Proof.
  intros Hj Heq. apply Qle_antisym.
  - rewrite Heq at 2. apply round_pos_le_grid; [exact Hj | rewrite Heq; apply Qle_refl].
  - rewrite Heq at 1. apply round_pos_ge_grid; [exact Hj | rewrite Heq; apply Qle_refl].
Qed.

Lemma round_pos_comp (x y : Q) : 0 < x -> x == y -> round_pos x == round_pos y.
Proof.
  intros Hx Hxy. unfold round_pos. rewrite (ulp_exponent_comp x y Hx Hxy).
  rewrite (rne_comp (x / pow2 (ulp_exponent y)) (y / pow2 (ulp_exponent y)))
    by (rewrite Hxy; reflexivity).
  reflexivity.
Qed.

Lemma round_pos_nonneg (x : Q) : 0 < x -> 0 <= round_pos x.
Proof.
  intros Hx. unfold round_pos. pose proof (pow2_pos (ulp_exponent x)) as Hk.
  apply Qmult_le_0_compat; [| apply Qlt_le_weak; exact Hk].
  change 0 with (inject_Z 0). rewrite <- Zle_Qle. apply rne_ge_Z.
  change (inject_Z 0) with 0. apply Qle_shift_div_l; [exact Hk | lra].
Qed.

Lemma one_pow2 (e : Z) : pow2 e == inject_Z 1 * pow2 e.
Proof. change (inject_Z 1) with 1. ring. Qed.

Lemma round_pos_mono (x y : Q) : 0 < x -> x <= y -> round_pos x <= round_pos y.
Proof.
  intros Hx Hxy.
  assert (Hy : 0 < y) by (eapply Qlt_le_trans; eassumption).
  pose proof (ulp_exponent_mono x y Hx Hxy) as Hk.
  destruct (Z.eq_dec (ulp_exponent x) (ulp_exponent y)) as [Heq | Hne].
  - unfold round_pos. rewrite Heq. pose proof (pow2_pos (ulp_exponent y)) as Hp.
    apply Qmult_le_compat_r; [| apply Qlt_le_weak; exact Hp].
    rewrite <- Zle_Qle. apply rne_mono.
    apply Qmult_le_compat_r; [exact Hxy |]. apply Qlt_le_weak, Qinv_lt_0_compat, Hp.
  - destruct (ilog2_spec x Hx) as [_ Xhi]. destruct (ilog2_spec y Hy) as [Ylo _].
    pose proof (ilog2_mono x y Hx Hxy) as He.
    unfold ulp_exponent in Hk, Hne.
    assert (Hlt : (ilog2 x + 1 <= ilog2 y)%Z) by lia.
    apply Qle_trans with (pow2 (ilog2 y)).
    + rewrite (one_pow2 (ilog2 y)). apply round_pos_le_grid.
      * unfold ulp_exponent. lia.
      * rewrite <- one_pow2. apply Qlt_le_weak. eapply Qlt_le_trans; [exact Xhi |].
        apply pow2_le. exact Hlt.
    + rewrite (one_pow2 (ilog2 y)). apply round_pos_ge_grid.
      * unfold ulp_exponent. lia.
      * rewrite <- one_pow2. exact Ylo.
Qed.

(** *** Rounding to binary64 *)

Lemma round64_zero (x : Q) : x == 0 -> round64 x = Fin 0.
Proof. intros H. unfold round64. rewrite (proj1 (Qeq_alt _ _) H). reflexivity. Qed.

Lemma round64_pos (x : Q) :
  0 < x ->
  round64 x = if Qle_bool (pow2 1024) (round_pos x) then PInf else Fin (Qred (round_pos x)).
Proof.
  intros H. unfold round64. rewrite (proj1 (Qgt_alt _ _) H). reflexivity.
Qed.

Lemma round64_neg (x : Q) :
  x < 0 ->
  round64 x = if Qle_bool (pow2 1024) (round_pos (- x)) then NInf
              else Fin (Qred (- round_pos (- x))).
Proof.
  intros H. unfold round64. rewrite (proj1 (Qlt_alt _ _) H). reflexivity.
Qed.

Lemma round64_comp (x y : Q) : x == y -> round64 x = round64 y.
Proof.
  intros Hxy.
  destruct (Q_dec x 0) as [[Hneg | Hpos] | Hz].
  - rewrite (round64_neg x Hneg), (round64_neg y) by (rewrite <- Hxy; exact Hneg).
    assert (Hr : round_pos (- x) == round_pos (- y))
      by (apply round_pos_comp; [lra | rewrite Hxy; reflexivity]).
    rewrite (Qleb_comp _ _ (Qeq_refl (pow2 1024)) _ _ Hr).
    destruct (Qle_bool _ _); [reflexivity |].
    f_equal. apply Qred_complete. rewrite Hr. reflexivity.
  - rewrite (round64_pos x Hpos), (round64_pos y) by (rewrite <- Hxy; exact Hpos).
    assert (Hr : round_pos x == round_pos y) by (apply round_pos_comp; assumption).
    rewrite (Qleb_comp _ _ (Qeq_refl (pow2 1024)) _ _ Hr).
    destruct (Qle_bool _ _); [reflexivity |].
    f_equal. apply Qred_complete. exact Hr.
  - rewrite (round64_zero x Hz), (round64_zero y) by (rewrite <- Hxy; exact Hz). reflexivity.
Qed.

Lemma round64_mono (x y : Q) : x <= y -> lte (round64 x) (round64 y) = true.
Proof.
  intros Hxy.
  assert (Hfin : forall a b : Q, a <= b -> lte (Fin (Qred a)) (Fin (Qred b)) = true).
  { intros a b Hab. cbv [lte]. apply Qle_bool_iff. rewrite !Qred_correct. exact Hab. }
  assert (Hover : forall a b : Q,
             a <= b -> Qle_bool (pow2 1024) a = true -> Qle_bool (pow2 1024) b = true).
  { intros a b Hab Ha. apply Qle_bool_iff. apply Qle_bool_iff in Ha. lra. }
  destruct (Q_dec x 0) as [[Hx | Hx] | Hx]; destruct (Q_dec y 0) as [[Hy | Hy] | Hy];
    try (exfalso; lra).
  - rewrite (round64_neg x Hx), (round64_neg y Hy).
    assert (Hm : round_pos (- y) <= round_pos (- x)) by (apply round_pos_mono; lra).
    destruct (Qle_bool (pow2 1024) (round_pos (- y))) eqn:Ey.
    + rewrite (Hover _ _ Hm Ey). reflexivity.
    + destruct (Qle_bool (pow2 1024) (round_pos (- x))); [reflexivity |].
      apply Hfin. lra.
  - rewrite (round64_neg x Hx), (round64_pos y Hy).
    pose proof (round_pos_nonneg (- x) ltac:(lra)). pose proof (round_pos_nonneg y Hy).
    destruct (Qle_bool _ (round_pos (- x))); destruct (Qle_bool _ (round_pos y));
      try reflexivity.
    apply Hfin. lra.
  - rewrite (round64_neg x Hx), (round64_zero y Hy).
    pose proof (round_pos_nonneg (- x) ltac:(lra)).
    destruct (Qle_bool _ _); [reflexivity |].
    cbv [lte]. apply Qle_bool_iff. rewrite Qred_correct. lra.
  - rewrite (round64_pos x Hx), (round64_pos y Hy).
    assert (Hm : round_pos x <= round_pos y) by (apply round_pos_mono; assumption).
    destruct (Qle_bool (pow2 1024) (round_pos x)) eqn:Ex.
    + rewrite (Hover _ _ Hm Ex). reflexivity.
    + destruct (Qle_bool (pow2 1024) (round_pos y)); [reflexivity |].
      apply Hfin. exact Hm.
  - rewrite (round64_zero x Hx), (round64_pos y Hy).
    pose proof (round_pos_nonneg y Hy).
    destruct (Qle_bool _ _); [reflexivity |].
    cbv [lte]. apply Qle_bool_iff. rewrite Qred_correct. lra.
  - rewrite (round64_zero x Hx), (round64_zero y Hy). reflexivity.
Qed.

Lemma Qred_inject_Z (z : Z) : Qred (inject_Z z) = inject_Z z.
Proof.
  apply Qcanon.Qred_identity. simpl. apply Z.gcd_1_r.
Qed.

Lemma Qle_bool_false (a b : Q) : b < a -> Qle_bool a b = false.
Proof.
  intros H. apply not_true_iff_false. rewrite Qle_bool_iff. lra.
Qed.

(** A positive grid point below the overflow threshold is left as it is. *)
Lemma round64_grid (x : Q) (m j : Z) :
  0 < x -> (ulp_exponent x <= j)%Z -> x == inject_Z m * pow2 j -> x < pow2 1024 ->
  round64 x = Fin (Qred x).
Proof.
  intros Hx Hj Hgrid Hmax.
  pose proof (round_pos_grid x m j Hj Hgrid) as Hr.
  rewrite (round64_pos x Hx), Qle_bool_false by (rewrite Hr; exact Hmax).
  apply (f_equal Fin). apply Qred_complete. exact Hr.
Qed.

Lemma round64_opp (x : Q) (r : Q) : round64 x = Fin r -> round64 (- x) = Fin (Qred (- r)).
Proof.
  destruct (Q_dec x 0) as [[Hx | Hx] | Hx].
  - rewrite (round64_neg x Hx), (round64_pos (- x)) by lra.
    destruct (Qle_bool _ _); [discriminate |].
    intros Heq. assert (Hr : r = Qred (- round_pos (- x))) by congruence. subst r.
    apply (f_equal Fin). apply Qred_complete. rewrite Qred_correct. ring.
  - rewrite (round64_pos x Hx), (round64_neg (- x)) by lra.
    rewrite (Qleb_comp _ _ (Qeq_refl (pow2 1024)) _ _
               (round_pos_comp (- - x) x ltac:(lra) ltac:(ring))).
    destruct (Qle_bool _ _); [discriminate |].
    intros Heq. assert (Hr : r = Qred (round_pos x)) by congruence. subst r.
    apply (f_equal Fin). apply Qred_complete.
    rewrite Qred_correct, (round_pos_comp (- - x) x) by (lra || ring). reflexivity.
  - rewrite (round64_zero x Hx), (round64_zero (- x)) by lra.
    intros Heq. assert (Hr : r = 0) by congruence. subst r. reflexivity.
Qed.

Lemma ulp_exponent_below (x : Q) (e : Z) :
  0 < x -> x < pow2 e -> (-1074 <= e - 53)%Z -> (ulp_exponent x <= e - 53)%Z.
Proof.
  intros Hx Hlt He. destruct (ilog2_spec x Hx) as [Hlo _]. unfold ulp_exponent.
  assert (ilog2 x < e)%Z by (apply pow2_lt_inv; eapply Qle_lt_trans; eassumption).
  lia.
Qed.

(** Integers of magnitude at most 2^53 are represented exactly. *)
Lemma round64_Z (z : Z) :
  (- 2 ^ 53 <= z <= 2 ^ 53)%Z -> round64 (inject_Z z) = Fin (inject_Z z).
Proof.
  assert (Hpos : forall n : Z, (0 < n <= 2 ^ 53)%Z -> round64 (inject_Z n) = Fin (inject_Z n)).
  { intros n [Hn0 Hn1].
    assert (Hx : 0 < inject_Z n) by (rewrite <- (Zlt_Qlt 0); exact Hn0).
    rewrite <- (Qred_inject_Z n) at 2.
    destruct (Z.eq_dec n (2 ^ 53)%Z) as [-> | Hne].
    - reflexivity.
    - apply (round64_grid _ n 0).
      + exact Hx.
      + replace 0%Z with (53 - 53)%Z by reflexivity. apply ulp_exponent_below.
        * exact Hx.
        * rewrite (pow2_Z 53) by lia. rewrite <- Zlt_Qlt. lia.
        * lia.
      + change (pow2 0) with 1. ring.
      + rewrite (pow2_Z 1024) by lia. rewrite <- Zlt_Qlt.
        eapply Z.le_lt_trans; [exact Hn1 | reflexivity]. }
  intros [Hlo Hhi].
  destruct (Z.lt_trichotomy z 0) as [Hz | [-> | Hz]].
  - assert (Hm : round64 (inject_Z (- z)) = Fin (inject_Z (- z))) by (apply Hpos; lia).
    apply round64_opp in Hm.
    rewrite (round64_comp (inject_Z z) (- inject_Z (- z))) by (rewrite inject_Z_opp; ring).
    rewrite Hm. apply (f_equal Fin). rewrite <- (Qred_inject_Z z). apply Qred_complete.
    rewrite inject_Z_opp. ring.
  - reflexivity.
  - apply Hpos. lia.
Qed.

(** The error of one rounding: at most 2^-53 of the value, or half the
    smallest subnormal. *)
Lemma round_pos_err (x : Q) :
  0 < x -> Qabs (round_pos x - x) <= x * pow2 (-53) + pow2 (-1075).
Proof.
  intros Hx. unfold round_pos. set (k := ulp_exponent x).
  pose proof (pow2_pos k) as Hk.
  pose proof (rne_err (x / pow2 k)) as Herr.
  assert (Hscaled : Qabs (inject_Z (rne (x / pow2 k)) * pow2 k - x) <= (1 # 2) * pow2 k).
  { assert (E : inject_Z (rne (x / pow2 k)) * pow2 k - x
                == (inject_Z (rne (x / pow2 k)) - x / pow2 k) * pow2 k).
    { field. intros Z0. rewrite Z0 in Hk. discriminate. }
    rewrite E, Qabs_Qmult, (Qabs_pos (pow2 k)) by (apply Qlt_le_weak; exact Hk).
    apply Qmult_le_compat_r; [exact Herr | apply Qlt_le_weak; exact Hk]. }
  eapply Qle_trans; [exact Hscaled |].
  assert (Hhalf : forall e, (1 # 2) * pow2 e == pow2 (e - 1)).
  { intros e. rewrite pow2_sub. change (pow2 1) with 2. field. }
  rewrite Hhalf.
  destruct (ilog2_spec x Hx) as [Hlo _].
  pose proof (pow2_pos (-1075)) as Hsub.
  assert (Hrel : 0 <= x * pow2 (-53))
    by (apply Qmult_le_0_compat; [lra | apply Qlt_le_weak, pow2_pos]).
  unfold k, ulp_exponent.
  destruct (Z.max_spec (ilog2 x - 52) (-1074)) as [[_ ->] | [_ ->]].
  - change (-1074 - 1)%Z with (-1075)%Z. lra.
  - replace (ilog2 x - 52 - 1)%Z with (ilog2 x + -53)%Z by lia.
    rewrite pow2_add.
    apply Qle_trans with (x * pow2 (-53)); [| lra].
    apply Qmult_le_compat_r; [exact Hlo | apply Qlt_le_weak, pow2_pos].
Qed.

Lemma round64_err (x : Q) :
  0 <= x -> x <= pow2 1023 ->
  exists r, round64 x = Fin r /\ 0 <= r /\ Qabs (r - x) <= x * pow2 (-53) + pow2 (-1075).
Proof.
  intros Hx Hmax.
  destruct (Qle_lt_or_eq _ _ Hx) as [Hpos | Hzero].
  - rewrite (round64_pos x Hpos).
    assert (Hr : round_pos x <= pow2 1023).
    { rewrite (one_pow2 1023). apply round_pos_le_grid.
      - replace 1023%Z with (1076 - 53)%Z by reflexivity. apply ulp_exponent_below.
        + exact Hpos.
        + eapply Qle_lt_trans; [exact Hmax |]. apply pow2_lt. lia.
        + lia.
      - rewrite <- one_pow2. exact Hmax. }
    rewrite Qle_bool_false
      by (eapply Qle_lt_trans; [exact Hr | apply pow2_lt; lia]).
    exists (Qred (round_pos x)). split; [reflexivity |].
    rewrite Qred_correct. split; [apply round_pos_nonneg; exact Hpos |].
    apply round_pos_err. exact Hpos.
  - exists 0. split; [apply round64_zero; symmetry; exact Hzero |].
    split; [lra |]. rewrite <- Hzero.
    pose proof (pow2_pos (-1075)) as Hsub.
    set (tiny := pow2 (-1075)) in *. set (eps := pow2 (-53)).
    apply Qabs_Qle_condition. split; lra.
Qed.

End Rounding.

(** ** Coordinate remapper *)

Section Remap.

Import Orchestrator.

Lemma Qzero_inject_pos (z : Z) : 0 < z -> JS.Qzero (inject_Z z) = false.
Proof.
  intros Hz. unfold JS.Qzero.
  destruct (Qeq_bool (inject_Z z) 0) eqn:E; [| reflexivity].
  apply Qeq_bool_iff in E. unfold Qeq in E. simpl in E. lia.
Qed.

(** A value between two integers of magnitude at most 2^53 is rounded to a
    finite double between them, with the error of one rounding. *)
Lemma round64_between (x : Q) (lo hi : Z) :
  0 <= lo -> hi <= 2 ^ 53 ->
  (inject_Z lo <= x <= inject_Z hi)%Q ->
  exists r : Q,
    round64 x = Fin r
    /\ (inject_Z lo <= r <= inject_Z hi)%Q
    /\ (Qabs (r - x) <= x * pow2 (-53) + pow2 (-1075))%Q.
Proof.
  intros Hlo Hhi [Hx0 Hx1].
  assert (Hlo_q : (0 <= inject_Z lo)%Q) by (rewrite <- (Zle_Qle 0); exact Hlo).
  assert (Hle : lo <= hi) by (rewrite Zle_Qle; lra).
  destruct (round64_err x) as (r & Hr & _ & Herr).
  - lra.
  - apply Qle_trans with (inject_Z hi); [exact Hx1 |].
    rewrite (pow2_Z 1023) by lia. rewrite <- Zle_Qle.
    eapply Z.le_trans; [exact Hhi | discriminate].
  - exists r. split; [exact Hr |]. split; [| exact Herr].
    pose proof (round64_mono _ _ Hx0) as Mlo. pose proof (round64_mono _ _ Hx1) as Mhi.
    rewrite (round64_Z lo), Hr in Mlo by lia. rewrite (round64_Z hi), Hr in Mhi by lia.
    cbv [JS.lte] in Mlo, Mhi. apply Qle_bool_iff in Mlo, Mhi. split; assumption.
Qed.

Lemma scaled_bound (t delta h H : Q) :
  (- delta <= t <= delta)%Q -> (0 <= h <= H)%Q ->
  (- (delta * H) <= t * h <= delta * H)%Q.
Proof.
  intros [Ht0 Ht1] [Hh0 Hh1].
  assert (Hd : (0 <= delta)%Q) by lra.
  assert (H1 : (t * h <= delta * h)%Q) by (apply Qmult_le_compat_r; assumption).
  assert (H2 : (- delta * h <= t * h)%Q) by (apply Qmult_le_compat_r; assumption).
  assert (H3 : (delta * h <= delta * H)%Q).
  { rewrite (Qmult_comm delta h), (Qmult_comm delta H). apply Qmult_le_compat_r; assumption. }
  split; lra.
Qed.

(** The four steps of the remapping of an ordinate of [0, 1000] into a tile
    that lies inside the image. *)
Lemma remapY_steps (y : Q) (h off H : Z) :
  0 < H <= 2 ^ 53 -> 0 <= h -> 0 <= off -> off + h <= H ->
  (0 <= y <= 1000)%Q ->
  exists a b c d g : Q,
    round64 (y / 1000) = Fin a
    /\ round64 (a * inject_Z h) = Fin b
    /\ round64 (b + inject_Z off) = Fin c
    /\ round64 (c / inject_Z H) = Fin d
    /\ round64 (d * 1000) = Fin g
    /\ remapY (Fin y) h off H = Fin g
    /\ (0 <= g <= 1000)%Q
    /\ (Qabs (g - (y / 1000 * inject_Z h + inject_Z off) / inject_Z H * 1000)
        <= 1 # 1000000000000)%Q.
Proof.
  intros [HH0 HH1] Hh Hoff Hend [Hy0 Hy1].
  assert (HHq : (1 <= inject_Z H)%Q) by (rewrite <- (Zle_Qle 1); lia).
  assert (Hhq : (0 <= inject_Z h)%Q) by (rewrite <- (Zle_Qle 0); lia).
  assert (Hoq : (0 <= inject_Z off)%Q) by (rewrite <- (Zle_Qle 0); lia).
  assert (HhH : (inject_Z h <= inject_Z H)%Q) by (rewrite <- Zle_Qle; lia).
  assert (Hsum : (inject_Z off + inject_Z h <= inject_Z H)%Q)
    by (rewrite <- inject_Z_plus, <- Zle_Qle; lia).
  set (u := (y / 1000)%Q).
  assert (Hu : (0 <= u <= 1)%Q).
  { unfold u. split.
    - apply Qle_shift_div_l; [reflexivity | lra].
    - apply Qle_shift_div_r; [reflexivity | lra]. }
  destruct (round64_between u 0 1) as (a & Ea & [Ha0 Ha1] & Erra);
    [lia | lia | exact Hu |].
  change (inject_Z 0) with 0%Q in Ha0. change (inject_Z 1) with 1%Q in Ha1.
  assert (Hah : (0 <= a * inject_Z h <= inject_Z h)%Q).
  { split; [apply Qmult_le_0_compat; assumption |].
    rewrite <- (Qmult_1_l (inject_Z h)) at 2. apply Qmult_le_compat_r; assumption. }
  destruct (round64_between (a * inject_Z h) 0 h) as (b & Eb & [Hb0 Hb1] & Errb);
    [lia | lia | exact Hah |].
  change (inject_Z 0) with 0%Q in Hb0.
  destruct (round64_between (b + inject_Z off) 0 H) as (c & Ec & [Hc0 Hc1] & Errc);
    [lia | lia | change (inject_Z 0) with 0%Q; split; lra |].
  change (inject_Z 0) with 0%Q in Hc0.
  set (v := (c / inject_Z H)%Q).
  assert (HvH : (v * inject_Z H == c)%Q) by (unfold v; field; lra).
  assert (Hv : (0 <= v <= 1)%Q).
  { unfold v. split.
    - apply Qle_shift_div_l; lra.
    - apply Qle_shift_div_r; lra. }
  destruct (round64_between v 0 1) as (d & Ed & [Hd0 Hd1] & Errd);
    [lia | lia | exact Hv |].
  change (inject_Z 0) with 0%Q in Hd0. change (inject_Z 1) with 1%Q in Hd1.
  destruct (round64_between (d * 1000) 0 1000) as (g & Eg & [Hg0 Hg1] & Errg);
    [lia | lia | change (inject_Z 0) with 0%Q; change (inject_Z 1000) with 1000%Q; split; lra |].
  change (inject_Z 0) with 0%Q in Hg0. change (inject_Z 1000) with 1000%Q in Hg1.
  exists a, b, c, d, g.
  split; [exact Ea |]. split; [exact Eb |]. split; [exact Ec |].
  split; [exact Ed |]. split; [exact Eg |].
  split.
  { unfold remapY, JS.ofZ, JS.fdiv at 2. change (JS.Qzero 1000) with false. cbv iota.
    fold u. rewrite Ea. unfold JS.fmul at 2. rewrite Eb. unfold JS.fadd. rewrite Ec.
    unfold JS.fdiv. rewrite (Qzero_inject_pos H HH0). fold v. rewrite Ed.
    unfold JS.fmul. exact Eg. }
  split; [split; assumption |].
  (* the error of the five roundings *)
  apply Qabs_Qle_condition in Erra, Errb, Errc, Errd, Errg.
  set (eps := pow2 (-53)) in *. set (tiny := pow2 (-1075)) in *.
  assert (Heps : (0 < eps <= 1 # 9007199254740992)%Q).
  { split; [apply pow2_pos | unfold eps, pow2; vm_compute; discriminate]. }
  assert (Htiny : (0 < tiny <= 1 # 1000000000000000000000000)%Q).
  { split; [apply pow2_pos | unfold tiny, pow2; vm_compute; discriminate]. }
  clearbody eps tiny.
  assert (Hscale : forall x B : Q, (x <= B)%Q -> (x * eps <= B * eps)%Q).
  { intros x B Hx. apply Qmult_le_compat_r; lra. }
  set (F := ((u * inject_Z h + inject_Z off) / inject_Z H)%Q).
  assert (HFH : (F * inject_Z H == u * inject_Z h + inject_Z off)%Q)
    by (unfold F; field; lra).
  set (ah := (a * inject_Z h)%Q) in *. set (uh := (u * inject_Z h)%Q) in *.
  pose proof (Hscale u 1%Q ltac:(lra)) as Pu.
  pose proof (Hscale ah (inject_Z H) ltac:(lra)) as Pah.
  pose proof (Hscale (b + inject_Z off)%Q (inject_Z H) ltac:(lra)) as Pb.
  pose proof (Hscale v 1%Q ltac:(lra)) as Pv.
  pose proof (Hscale (d * 1000)%Q 1000%Q ltac:(lra)) as Pd.
  assert (PtH : (tiny <= tiny * inject_Z H)%Q).
  { rewrite <- (Qmult_1_r tiny) at 1.
    rewrite (Qmult_comm tiny 1), (Qmult_comm tiny (inject_Z H)).
    apply Qmult_le_compat_r; lra. }
  assert (Hdelta : (- (eps + tiny) <= a - u <= eps + tiny)%Q) by (split; lra).
  assert (Hdiff : (- ((eps + tiny) * inject_Z H) <= ah - uh <= (eps + tiny) * inject_Z H)%Q).
  { assert (E : (ah - uh == (a - u) * inject_Z h)%Q) by (unfold ah, uh; ring).
    rewrite E. apply scaled_bound; [exact Hdelta | split; assumption]. }
  assert (HvF : (- (3 * eps + 3 * tiny) <= v - F <= 3 * eps + 3 * tiny)%Q).
  { assert (Hscaled : (- ((3 * eps + 3 * tiny) * inject_Z H) <= (v - F) * inject_Z H
                       <= (3 * eps + 3 * tiny) * inject_Z H)%Q).
    { assert (E : ((v - F) * inject_Z H == c - (uh + inject_Z off))%Q)
        by (rewrite <- HvH, <- HFH; ring).
      rewrite E. split; lra. }
    destruct Hscaled as [S1 S2]. split.
    - apply (Qmult_le_r _ _ (inject_Z H)); lra.
    - apply (Qmult_le_r _ _ (inject_Z H)); lra. }
  change ((y / 1000 * inject_Z h + inject_Z off) / inject_Z H * 1000)%Q with (F * 1000)%Q.
  apply Qabs_Qle_condition. split; lra.
Qed.

Lemma remapY_tile0_ends (H : Z) :
  0 < H <= 2 ^ 53 ->
  remapY (Fin 0) H 0 H = Fin 0 /\ remapY (Fin 1000) H 0 H = Fin 1000.
Proof.
  intros [HH0 HH1].
  assert (HHq : ~ (inject_Z H == 0)%Q) by (unfold Qeq; simpl; lia).
  unfold remapY, JS.ofZ, JS.fdiv at 2 4. change (JS.Qzero 1000) with false. cbv iota.
  split.
  - change (round64 (0 / 1000)) with (Fin 0). unfold JS.fmul at 2.
    rewrite (round64_zero (0 * inject_Z H)) by ring.
    unfold JS.fadd. change (round64 (0 + inject_Z 0)) with (Fin 0).
    unfold JS.fdiv. rewrite (Qzero_inject_pos H HH0).
    rewrite (round64_zero (0 / inject_Z H)) by (field; exact HHq).
    reflexivity.
  - change (round64 (1000 / 1000)) with (Fin 1). unfold JS.fmul at 2.
    rewrite (round64_comp (1 * inject_Z H) (inject_Z H)) by ring.
    rewrite (round64_Z H) by lia.
    unfold JS.fadd.
    rewrite (round64_comp (inject_Z H + inject_Z 0) (inject_Z H))
      by (change (inject_Z 0) with 0%Q; ring).
    rewrite (round64_Z H) by lia.
    unfold JS.fdiv. rewrite (Qzero_inject_pos H HH0).
    rewrite (round64_comp (inject_Z H / inject_Z H) 1) by (field; exact HHq).
    reflexivity.
Qed.

(** C6, as the code has it: for an image of height [0 < H <= 2^53], a tile
    [i] of the partition with offset [off] and height [h], and a box whose
    ordinates are finite numbers of [0, 1000], the remapped box has the
    abscissas it was given and the ordinates
    [((y / 1000 * h) + off) / H * 1000] evaluated in the arithmetic of
    doubles, which differ from the exact value of that expression by at most
    10^-12; both ordinates stay in [0, 1000]; when the tile starts at row 0
    and spans the whole image the ordinates are unchanged up to that
    rounding error, and 0 and 1000 are unchanged exactly; and the ordinate
    1000 of a tile with offset 500 and height 1000 in an image of height 2000
    is remapped to 750. *)
Theorem remap_formula_and_range (H i : Z) (y1 y2 : Q) (x1 x2 : jsnum) :
  0 < H <= 2 ^ 53 ->
  0 <= i < numTiles H ->
  (0 <= y1 <= 1000)%Q ->
  (0 <= y2 <= 1000)%Q ->
  let h := currentTileHeight H i in
  let off := offsetY i in
  let exact (y : Q) := ((y / 1000 * inject_Z h + inject_Z off) / inject_Z H * 1000)%Q in
  let double (y : Q) :=
    JS.fmul (JS.fdiv (JS.fadd (JS.fmul (JS.fdiv (Fin y) (Fin 1000)) (Fin (inject_Z h)))
                              (Fin (inject_Z off)))
                     (Fin (inject_Z H)))
            (Fin 1000) in
  (exists g1 g2 : Q,
      remap [Fin y1; x1; Fin y2; x2] h off H = [Fin g1; x1; Fin g2; x2]
      /\ double y1 = Fin g1 /\ double y2 = Fin g2
      /\ (Qabs (g1 - exact y1) <= 1 # 1000000000000)%Q
      /\ (Qabs (g2 - exact y2) <= 1 # 1000000000000)%Q
      /\ (0 <= g1 <= 1000)%Q /\ (0 <= g2 <= 1000)%Q
      /\ (off = 0 -> h = H ->
          (Qabs (g1 - y1) <= 1 # 1000000000000)%Q
          /\ (Qabs (g2 - y2) <= 1 # 1000000000000)%Q))
  /\ remapY (Fin 0) H 0 H = Fin 0
  /\ remapY (Fin 1000) H 0 H = Fin 1000
  /\ remapY (Fin 1000) 1000 500 2000 = Fin 750.
Proof.
  intros HH Hi Hy1 Hy2 h off exact double.
  destruct (tile_within H i ltac:(lia) Hi) as (Hoff & Hh & Hend & _).
  fold h off in Hoff, Hh, Hend.
  split; [| split; [exact (proj1 (remapY_tile0_ends H HH)) |];
            split; [exact (proj2 (remapY_tile0_ends H HH)) | vm_compute; reflexivity]].
  destruct (remapY_steps y1 h off H HH Hh Hoff Hend Hy1)
    as (a1 & b1 & c1 & d1 & g1 & _ & _ & _ & _ & _ & E1 & R1 & F1).
  destruct (remapY_steps y2 h off H HH Hh Hoff Hend Hy2)
    as (a2 & b2 & c2 & d2 & g2 & _ & _ & _ & _ & _ & E2 & R2 & F2).
  exists g1, g2. unfold remap, component. simpl nth.
  rewrite E1, E2. split; [reflexivity |].
  split; [exact E1 |]. split; [exact E2 |].
  split; [exact F1 |]. split; [exact F2 |].
  split; [exact R1 |]. split; [exact R2 |].
  intros Hzero Hfull.
  assert (HHq : ~ (inject_Z H == 0)%Q) by (unfold Qeq; simpl; lia).
  assert (Hid : forall y : Q, (exact y == y)%Q).
  { intros y. unfold exact. rewrite Hzero, Hfull. change (inject_Z 0) with 0%Q.
    field. exact HHq. }
  pose proof (Hid y1) as I1. pose proof (Hid y2) as I2. unfold exact in I1, I2.
  match type of F1 with (Qabs (_ - ?e) <= _)%Q => set (e1 := e) in * end.
  match type of F2 with (Qabs (_ - ?e) <= _)%Q => set (e2 := e) in * end.
  clearbody e1 e2.
  apply Qabs_Qle_condition in F1, F2.
  split; apply Qabs_Qle_condition; split; lra.
Qed.

Lemma remap_formula_and_range_witness :
  exists g1 g2 : Q,
    remap [Fin 0; Fin 10; Fin 1000; Fin 20] (currentTileHeight 2000 1) (offsetY 1) 2000
    = [Fin g1; Fin 10; Fin g2; Fin 20]
    /\ (0 <= g1 <= 1000)%Q /\ (0 <= g2 <= 1000)%Q.
Proof.
  destruct (remap_formula_and_range 2000 1 0 1000 (Fin 10) (Fin 20))
    as [(g1 & g2 & E & _ & _ & _ & _ & B1 & B2 & _) _].
  - split; [lia | discriminate].
  - split; [lia | reflexivity].
  - split; discriminate.
  - split; discriminate.
  - exists g1, g2. auto.
Defined.

(** C6, the two particulars of the claim.  The ordinate 1000 of a tile with
    offset 500 and height 1000 in an image of height 2000 is not remapped to
    1000.  And a box of the single tile of an image is not always mapped to
    itself: in an image of height 1080 the ordinate 31 comes back as
    30.999999999999996, the double just below 31. *)
Lemma remap_example_not_1000 :
  ~ JS.same (remapY (Fin 1000) 1000 500 2000) (Fin 1000)
  /\ numTiles 1080 = 1 /\ offsetY 0 = 0 /\ currentTileHeight 1080 0 = 1080
  /\ remapY (Fin 31) 1080 0 1080 = Fin (8725724278030335 # 281474976710656)
  /\ ~ JS.same (remapY (Fin 31) 1080 0 1080) (Fin 31).
Proof.
  split; [vm_compute; discriminate |].
  split; [reflexivity |]. split; [reflexivity |]. split; [reflexivity |].
  split; [vm_compute; reflexivity | vm_compute; discriminate].
Qed.

End Remap.

(** ** Catalog reconciliation *)

Section Reconciliation.

Import Service.

Context {host : Host}.

Lemma findIndex_lt {A : Type} (p : A -> bool) (l : list A) (i : nat) :
  findIndex p l = Some i -> (i < length l)%nat.
Proof.
  revert i. induction l as [| x r IH]; intros i Hfind; simpl in *.
  - discriminate.
  - destruct (p x).
    + injection Hfind as <-. lia.
    + destruct (findIndex p r) as [j |]; simpl in Hfind; [| discriminate].
      injection Hfind as <-. specialize (IH j eq_refl). lia.
Qed.

Lemma existingIdx_lt (cat : list CatalogAnchor.t) (obs : CatalogAnchor.t) (i : nat) :
  existingIdx cat obs = Some i -> (i < length cat)%nat.
Proof.
  unfold existingIdx. intros Hidx.
  destruct (findIndex _ cat) as [j |] eqn:Eid.
  - injection Hidx as <-. eapply findIndex_lt; eassumption.
  - destruct (negb _); [| discriminate].
    eapply findIndex_lt; eassumption.
Qed.

(** The double nearest to 0.01, and the doubles nearest to the two bounds of
    the statement. *)
Lemma threshold_value :
  threshold = Fin (5764607523034235 # 576460752303423488)
  /\ round64 (- (1 # 100)) = Fin (- (5764607523034235 # 576460752303423488))
  /\ round64 ((1 # 100) + (2 # 1000000000000000000))
     = Fin (1441151880758559 # 144115188075855872)
  /\ round64 (- ((1 # 100) + (2 # 1000000000000000000)))
     = Fin (- (1441151880758559 # 144115188075855872)).
Proof. vm_compute. repeat split; reflexivity. Qed.

Lemma lte_Fin_l (q : Q) (a : jsnum) :
  JS.lte (Fin q) a = true -> a = PInf \/ exists r, a = Fin r /\ (q <= r)%Q.
Proof.
  destruct a as [| | | r]; simpl; try discriminate; [left; reflexivity |].
  intros Hle. right. exists r. split; [reflexivity | apply Qle_bool_iff; exact Hle].
Qed.

Lemma lte_Fin_r (a : jsnum) (q : Q) :
  JS.lte a (Fin q) = true -> a = NInf \/ exists r, a = Fin r /\ (r <= q)%Q.
Proof.
  destruct a as [| | | r]; simpl; try discriminate; [left; reflexivity |].
  intros Hle. right. exists r. split; [reflexivity | apply Qle_bool_iff; exact Hle].
Qed.

Lemma gt_abs_Fin (r t : Q) :
  JS.gt (JS.abs (Fin r)) (Fin t) = true <-> (t < Qabs r)%Q.
Proof.
  simpl. rewrite negb_true_iff, <- not_true_iff_false, Qle_bool_iff, Qred_correct.
  split; [apply Qnot_le_lt | apply Qlt_not_le].
Qed.

(** The comparison of line 313 on finite prices: a difference of at most
    0.01 is not above the threshold, a difference of at least
    0.010000000000000002 is. *)
Lemma priceDiff_near (x : Q) :
  (Qabs x <= 1 # 100)%Q -> JS.gt (JS.abs (round64 x)) threshold = false.
Proof.
  intros Hx. apply Qabs_Qle_condition in Hx. destruct Hx as [Hlo Hhi].
  destruct threshold_value as (Et & Eneg & _ & _).
  pose proof (round64_mono _ _ Hlo) as Mlo. pose proof (round64_mono _ _ Hhi) as Mhi.
  fold threshold in Mhi. rewrite Eneg in Mlo. rewrite Et in *.
  destruct (lte_Fin_l _ _ Mlo) as [E | (r & E & Hr)]; rewrite E in *; [discriminate |].
  apply lte_Fin_r in Mhi. destruct Mhi as [E' | (r' & E' & Hr')]; [discriminate |].
  injection E' as <-.
  apply not_true_iff_false. rewrite gt_abs_Fin. apply Qle_not_lt.
  apply Qabs_Qle_condition. split; assumption.
Qed.

Lemma priceDiff_far (x : Q) :
  ((1 # 100) + (2 # 1000000000000000000) <= Qabs x)%Q ->
  JS.gt (JS.abs (round64 x)) threshold = true.
Proof.
  intros Hx. destruct threshold_value as (Et & _ & Epos & Eneg). rewrite Et.
  destruct (Qlt_le_dec x 0) as [Hneg | Hpos].
  - rewrite (Qabs_neg x) in Hx by lra.
    assert (Hle : (x <= - ((1 # 100) + (2 # 1000000000000000000)))%Q) by lra.
    pose proof (round64_mono _ _ Hle) as M. rewrite Eneg in M.
    apply lte_Fin_r in M. destruct M as [-> | (r & -> & Hr)]; [reflexivity |].
    apply gt_abs_Fin. rewrite Qabs_neg by (eapply Qle_trans; [exact Hr | discriminate]).
    eapply Qlt_le_trans; [| apply Qopp_le_compat; exact Hr]. reflexivity.
  - rewrite (Qabs_pos x) in Hx by exact Hpos.
    pose proof (round64_mono _ _ Hx) as M. rewrite Epos in M.
    apply lte_Fin_l in M. destruct M as [-> | (r & -> & Hr)]; [reflexivity |].
    apply gt_abs_Fin. rewrite Qabs_pos by (eapply Qle_trans; [| exact Hr]; discriminate).
    eapply Qlt_le_trans; [| exact Hr]. reflexivity.
Qed.

(** C2, as the code has it: when an observation matches an anchor of the
    catalog, the merge rewrites the anchor's violation flag from that
    observation alone, whatever the flag was before: the flag is set exactly
    when the difference between the observed numeric price and the anchor's
    baseline, computed and compared as doubles, exceeds 0.01.  On finite
    prices the flag is therefore cleared when the two differ by at most 0.01
    and set when they differ by at least 0.010000000000000002.  The baseline,
    once set, is kept, and no anchor is added or removed. *)
Theorem merge_flag_follows_baseline
    (cat : list CatalogAnchor.t) (obs : CatalogAnchor.t) (i : nat) :
  existingIdx cat obs = Some i ->
  exists existing merged : CatalogAnchor.t,
    cat !! i = Some existing
    /\ mergeAnchor cat obs !! i = Some merged
    /\ length (mergeAnchor cat obs) = length cat
    /\ CatalogAnchor.is_violation merged
       = JS.gt (JS.abs (JS.fsub (or_zero (CatalogAnchor.numeric_price obs))
                                (or_zero (origNumeric existing obs))))
               (round64 (1 # 100))
    /\ (forall b, CatalogAnchor.original_numeric_price existing = Some b ->
                  CatalogAnchor.original_numeric_price merged = Some b)
    /\ (forall p b : Q,
          CatalogAnchor.numeric_price obs = Some (Fin p) ->
          CatalogAnchor.original_numeric_price existing = Some (Fin b) ->
          ((Qabs (p - b) <= 1 # 100)%Q -> CatalogAnchor.is_violation merged = false)
          /\ (((1 # 100) + (2 # 1000000000000000000) <= Qabs (p - b))%Q ->
              CatalogAnchor.is_violation merged = true)).
Proof.
  intros Hidx.
  pose proof (existingIdx_lt cat obs i Hidx) as Hlt.
  destruct (lookup_lt_is_Some_2 cat i Hlt) as [existing Hex].
  exists existing, (mergedWith existing obs).
  unfold mergeAnchor. rewrite Hidx, Hex.
  split; [reflexivity |].
  split; [apply list_lookup_insert_eq; exact Hlt |].
  split; [apply length_insert |].
  assert (Hflag : CatalogAnchor.is_violation (mergedWith existing obs)
                  = JS.gt (priceDiff existing obs) threshold).
  { simpl. unfold isViolation.
    destruct (JS.gt (priceDiff existing obs) threshold); simpl;
      [reflexivity | apply andb_false_r]. }
  split; [exact Hflag |].
  split.
  - intros b Hb. simpl. unfold origNumeric. rewrite Hb. reflexivity.
  - intros p b Hp Hb. rewrite Hflag. unfold priceDiff, origNumeric. rewrite Hp, Hb.
    cbn [or_zero JS.fsub]. split; [apply priceDiff_near | apply priceDiff_far].
Qed.

End Reconciliation.

Section ReconciliationRuns.

Import Service Scenario.

Lemma merge_flag_follows_baseline_witness :
  existingIdx (host := twoTileHost)
    [firstSighting (sku1 "$10.00" 10 box1)] (sku1 "$12.00" 12 box1) = Some 0%nat
  /\ exists merged : CatalogAnchor.t,
       mergeAnchor (host := twoTileHost)
         [firstSighting (sku1 "$10.00" 10 box1)] (sku1 "$12.00" 12 box1) !! 0%nat
       = Some merged
       /\ CatalogAnchor.is_violation merged = true.
Proof.
  split; [reflexivity |].
  destruct (merge_flag_follows_baseline (host := twoTileHost)
              [firstSighting (sku1 "$10.00" 10 box1)] (sku1 "$12.00" 12 box1) 0 eq_refl)
    as (existing & merged & Hex & Hm & _ & _ & _ & Hflag).
  exists merged. split; [exact Hm |].
  injection Hex as <-.
  apply (proj2 (Hflag 12%Q 10%Q eq_refl eq_refl)). vm_compute. discriminate.
Defined.

(** C2, as stated, fails: "sku1" is first seen at 10.00, then at 12.00, which
    sets its flag; a third sighting back at 10.00 matches the same anchor,
    is within 0.01 of the baseline, and leaves the flag cleared. *)
Lemma violation_flag_cleared_on_revert :
  let first := mergeAnchors (host := twoTileHost) [] [sku1 "$10.00" 10 box1] in
  let second := mergeAnchors (host := twoTileHost) first [sku1 "$12.00" 12 box1] in
  let third := mergeAnchors (host := twoTileHost) second [sku1 "$10.00" 10 box1] in
  map CatalogAnchor.is_violation second = [true]
  /\ existingIdx (host := twoTileHost) second (sku1 "$10.00" 10 box1) = Some 0%nat
  /\ map CatalogAnchor.original_numeric_price third = [Some (Fin 10)]
  /\ map CatalogAnchor.is_violation third = [false].
Proof.
  vm_compute. repeat split; reflexivity.
Qed.

End ReconciliationRuns.

(** ** White space *)

Section WhiteSpace.

Import Str.
Local Open Scope string_scope.

Lemma append_nil_r (s : string) : s ++ "" = s.
Proof. induction s as [| c r IH]; simpl; [reflexivity | rewrite IH; reflexivity]. Qed.

Lemma append_assoc (a b c : string) : (a ++ b) ++ c = a ++ (b ++ c).
Proof. induction a as [| x r IH]; simpl; [reflexivity | rewrite IH; reflexivity]. Qed.

Lemma length_append (a b : string) :
  String.length (a ++ b) = (String.length a + String.length b)%nat.
Proof. induction a as [| c r IH]; simpl; [reflexivity | rewrite IH; reflexivity]. Qed.

Lemma take_drop (n : nat) (s : string) : take n s ++ drop n s = s.
Proof.
  revert s. induction n as [| n IH]; intros [| c r]; simpl; try reflexivity.
  rewrite IH. reflexivity.
Qed.

Lemma take_S (n : nat) (c : ascii) (r : string) :
  take (S n) (String c r) = String c (take n r).
Proof. reflexivity. Qed.

Lemma drop_S (n : nat) (c : ascii) (r : string) : drop (S n) (String c r) = drop n r.
Proof. reflexivity. Qed.

Lemma last_char_cons (c : ascii) (r : string) :
  last_char (String c r) = match last_char r with Some d => Some d | None => Some c end.
Proof. reflexivity. Qed.

Lemma last_char_None (s : string) : last_char s = None -> s = "".
Proof.
  destruct s as [| c r]; [reflexivity |]. simpl.
  destruct (last_char r); discriminate.
Qed.

Lemma any_char_app (p : ascii -> bool) (a b : string) :
  any_char p (a ++ b) = any_char p a || any_char p b.
Proof.
  induction a as [| c r IH]; simpl; [reflexivity |]. rewrite IH. apply orb_assoc.
Qed.

Lemma any_char_last (p : ascii -> bool) (s : string) (c : ascii) :
  last_char s = Some c -> p c = true -> any_char p s = true.
Proof.
  induction s as [| d r IH]; simpl; [discriminate |].
  destruct (last_char r) as [e |] eqn:E.
  - intros Heq Hp. rewrite (IH Heq Hp). apply orb_true_r.
  - intros Heq Hp. injection Heq as ->. rewrite Hp. reflexivity.
Qed.

Lemma prefix_take (w s : string) :
  String.prefix w s = true -> take (String.length w) s = w.
Proof.
  revert s. induction w as [| a w IH]; intros s Hpre; [destruct s; reflexivity |].
  destruct s as [| b r]; simpl in Hpre; [discriminate |].
  destruct (ascii_dec a b) as [-> | Hne]; [| discriminate].
  simpl. rewrite (IH r Hpre). reflexivity.
Qed.

(** No white space has a printable ASCII byte other than the space. *)
Lemma white_space_not_plain (w : string) :
  In w white_space -> any_char plain w = false /\ String.length w <> 0%nat.
Proof.
  unfold white_space. simpl. intros Hin.
  repeat (destruct Hin as [<- | Hin]; [split; [reflexivity | discriminate] |]).
  contradiction.
Qed.

Lemma white_len_take (s : string) (k : nat) :
  white_len s = S k -> any_char plain (take (S k) s) = false.
Proof.
  unfold white_len. destruct (List.find _ white_space) as [w |] eqn:E; [| discriminate].
  apply List.find_some in E. destruct E as [Hin Hpre].
  intros Hlen. rewrite <- Hlen, (prefix_take w s Hpre).
  apply white_space_not_plain. exact Hin.
Qed.

Lemma white_len_plain (c : ascii) (r : string) :
  plain c = true -> white_len (String c r) = 0%nat.
Proof.
  destruct c as [[] [] [] [] [] [] [] []]; intros Hc; try discriminate Hc; reflexivity.
Qed.

Lemma trimStart_upto_suffix (fuel : nat) (s : string) :
  exists pre, s = pre ++ trimStart_upto fuel s.
Proof.
  revert s. induction fuel as [| f IH]; intros s; cbn [trimStart_upto].
  - exists "". reflexivity.
  - destruct (white_len s) as [| k]; [exists ""; reflexivity |].
    destruct (IH (drop (S k) s)) as [pre Hpre].
    exists (take (S k) s ++ pre).
    rewrite append_assoc, <- Hpre. symmetry. apply take_drop.
Qed.

Lemma trimStart_suffix (s : string) : exists pre, s = pre ++ trimStart s.
Proof. apply trimStart_upto_suffix. Qed.

Lemma trimEnd_prefix (s : string) : exists post, s = trimEnd s ++ post.
Proof.
  induction s as [| c r IH]; [exists ""; reflexivity |].
  unfold trimEnd; fold trimEnd.
  destruct (blank (String c r)).
  - exists (String c r). reflexivity.
  - destruct IH as [post Hpost]. exists post. simpl. rewrite <- Hpost. reflexivity.
Qed.

(** A character of the trimmed text is a character of the text. *)
Lemma any_char_trim (p : ascii -> bool) (s : string) :
  any_char p (trim s) = true -> any_char p s = true.
Proof.
  unfold trim. intros Hany.
  destruct (trimStart_suffix s) as [pre Hpre].
  destruct (trimEnd_prefix (trimStart s)) as [post Hpost].
  rewrite Hpre, Hpost, !any_char_app, Hany. rewrite orb_true_r. reflexivity.
Qed.

Lemma trimStart_upto_plain (fuel : nat) (s : string) :
  any_char plain s = true -> any_char plain (trimStart_upto fuel s) = true.
Proof.
  revert s. induction fuel as [| f IH]; intros s Hany; cbn [trimStart_upto]; [exact Hany |].
  destruct (white_len s) as [| k] eqn:E; [exact Hany |].
  apply IH. rewrite <- (take_drop (S k) s), any_char_app, (white_len_take s k E) in Hany.
  exact Hany.
Qed.

Lemma plain_not_blank (s : string) : any_char plain s = true -> blank s = false.
Proof.
  intros Hany. unfold blank, trimStart.
  pose proof (trimStart_upto_plain (String.length s) s Hany) as Hkept.
  destruct (trimStart_upto _ s); [discriminate | reflexivity].
Qed.

(** A text with a printable ASCII character other than the space is neither
    empty nor blank. *)
Lemma not_blank (s : string) :
  any_char plain s = true -> is_empty s = false /\ is_empty (trim s) = false.
Proof.
  intros Hany. split; [destruct s; [discriminate | reflexivity] |].
  unfold trim, trimStart.
  pose proof (trimStart_upto_plain (String.length s) s Hany) as Hkept.
  destruct (trimStart_upto _ s) as [| c r] eqn:E; [discriminate |].
  unfold trimEnd; fold trimEnd. rewrite (plain_not_blank _ Hkept). reflexivity.
Qed.

Lemma trimStart_plain (c : ascii) (r : string) :
  plain c = true -> trimStart (String c r) = String c r.
Proof.
  intros Hc. unfold trimStart. simpl String.length. cbn [trimStart_upto].
  rewrite (white_len_plain c r Hc). reflexivity.
Qed.

Lemma trimEnd_id (s : string) (c : ascii) :
  last_char s = Some c -> plain c = true -> trimEnd s = s.
Proof.
  intros Hlast Hc. induction s as [| d r IH]; [reflexivity |].
  unfold trimEnd; fold trimEnd.
  rewrite (plain_not_blank _ (any_char_last plain _ c Hlast Hc)).
  f_equal. rewrite last_char_cons in Hlast.
  destruct (last_char r) as [e |] eqn:E.
  - apply IH. exact Hlast.
  - apply last_char_None in E. subst r. reflexivity.
Qed.

(** The no-break space and the byte order mark are white space: they are
    trimmed, and they end the first word of a text. *)
Lemma trim_examples :
  trim (bytes [194; 160]%nat ++ " Pro plan" ++ bytes [239; 187; 191; 10]%nat) = "Pro plan"
  /\ until_white ("12" ++ bytes [194; 160]%nat ++ "USD") = "12"
  /\ blank (bytes [226; 128; 175; 32; 227; 128; 128]%nat) = true.
Proof. vm_compute. repeat split; reflexivity. Qed.

End WhiteSpace.

(** ** Price normalizer *)

Section PriceNormalizer.

Import Str Price.
Local Open Scope string_scope.

Lemma plain_lower (c : ascii) : plain (lower_ascii c) = plain c.
Proof.
  destruct c as [[] [] [] [] [] [] [] []]; reflexivity.
Qed.

Lemma includes_head (c : ascii) (rest s : string) :
  includes s (String c rest) = true -> any_char (Ascii.eqb c) s = true.
Proof.
  induction s as [| d r IH]; simpl.
  - discriminate.
  - intros Hinc. apply orb_true_iff in Hinc. apply orb_true_iff.
    destruct Hinc as [Hpre | Hlater].
    + left. destruct (ascii_dec c d) as [-> | Hne].
      * apply Ascii.eqb_refl.
      * discriminate.
    + right. apply IH. simpl in Hlater. exact Hlater.
Qed.

Lemma lowered_letter_plain (c : ascii) (s : string) :
  plain c = true ->
  any_char (Ascii.eqb c) (toLowerCase s) = true ->
  any_char plain s = true.
Proof.
  intros Hc. induction s as [| d r IH]; simpl.
  - discriminate.
  - intros Hany. apply orb_true_iff in Hany. apply orb_true_iff.
    destruct Hany as [Heq | Hlater].
    + left. apply Ascii.eqb_eq in Heq.
      rewrite <- plain_lower, <- Heq. exact Hc.
    + right. apply IH. exact Hlater.
Qed.

(** C10: for every text whose lower-cased form contains "free" or "gratis"
    anywhere, [cleanPrice] returns 0, whatever else the text holds. *)
Theorem free_or_gratis_is_zero (val : string) :
  includes (toLowerCase val) "free" = true \/ includes (toLowerCase val) "gratis" = true ->
  cleanPrice (Some val) = Fin 0.
Proof.
  intros Hword.
  assert (Hany : any_char plain val = true).
  { destruct Hword as [Hfree | Hgratis].
    - apply (lowered_letter_plain "f"); [reflexivity |].
      apply (includes_head "f" "ree"). exact Hfree.
    - apply (lowered_letter_plain "g"); [reflexivity |].
      apply (includes_head "g" "ratis"). exact Hgratis. }
  destruct (not_blank val Hany) as [Hne Htrim].
  unfold cleanPrice. rewrite Hne, Htrim. cbn [orb].
  destruct Hword as [-> | ->]; [reflexivity |].
  rewrite orb_true_r. reflexivity.
Qed.

Lemma free_or_gratis_is_zero_witness :
  includes (toLowerCase "Free trial, then $9.99") "free" = true
  /\ cleanPrice (Some "Free trial, then $9.99") = Fin 0
  /\ cleanPrice (Some "Sugar-free cola $1.99") = Fin 0.
Proof.
  split; [reflexivity |].
  split; apply free_or_gratis_is_zero; left; reflexivity.
Defined.

(** The two worked examples of C7: both give the double nearest to
    1234.56, the value of the literal [1234.56]. *)
Lemma cleanPrice_examples :
  cleanPrice (Some "$1,234.56") = round64 (123456 # 100)
  /\ cleanPrice (Some "1.234,56 €") = round64 (123456 # 100)
  /\ cleanPrice (Some "Free") = Fin 0
  /\ cleanPrice (Some "N/A") = NaN.
Proof.
  vm_compute. repeat split; reflexivity.
Qed.

(** C7 at a text with two thousands separators: only the first comma is
    removed ([raw.replace(',', '')] replaces one occurrence), [parseFloat]
    stops at the second, and the result is 1234, not 1234567.  With dots in
    place of the commas, all of them are removed ([/\./g]). *)
Theorem cleanPrice_keeps_second_comma :
  cleanPrice (Some "$1,234,567") = Fin 1234
  /\ cleanPrice (Some "$1.234.567") = Fin 1234567.
Proof.
  split; vm_compute; reflexivity.
Qed.

End PriceNormalizer.

(** ** Response recovery parser *)

Section Recovery.

Import Str Service Scenario.
Local Open Scope string_scope.

Lemma count_app (c : ascii) (a b : string) :
  count c (a ++ b) = (count c a + count c b)%nat.
Proof.
  induction a as [| d r IH]; simpl; [reflexivity |]. rewrite IH. lia.
Qed.

Lemma count_repeat (c d : ascii) (n : nat) :
  count c (repeat d n) = if Ascii.eqb c d then n else 0%nat.
Proof.
  induction n as [| n IH]; simpl.
  - destruct (Ascii.eqb c d); reflexivity.
  - rewrite IH. destruct (Ascii.eqb c d); reflexivity.
Qed.

Lemma lastIndexOf_None_count (c : ascii) (s : string) :
  lastIndexOf c s = None -> count c s = 0%nat.
Proof.
  induction s as [| d r IH]; simpl; [reflexivity |].
  destruct (lastIndexOf c r); [discriminate |].
  destruct (Ascii.eqb c d); [discriminate |].
  intros _. apply IH. reflexivity.
Qed.

(** The prefix that ends at the last occurrence ends with the character,
    and the character does not occur after it. *)
Lemma lastIndexOf_split (c : ascii) (s : string) (j : nat) :
  lastIndexOf c s = Some j ->
  last_char (take (S j) s) = Some c
  /\ count c (drop (S j) s) = 0%nat
  /\ (j < String.length s)%nat.
Proof.
  revert j. induction s as [| d r IH]; intros j Hlast; simpl in Hlast.
  - discriminate.
  - destruct (lastIndexOf c r) as [i |] eqn:E.
    + injection Hlast as <-. destruct (IH i eq_refl) as (Hl & Hc & Hlen).
      rewrite take_S, drop_S, last_char_cons, Hl. simpl String.length.
      repeat split; [exact Hc | lia].
    + destruct (Ascii.eqb c d) eqn:Ecd; [| discriminate].
      injection Hlast as <-. apply Ascii.eqb_eq in Ecd. subst d.
      rewrite take_S, drop_S. simpl.
      repeat split; [| lia].
      apply lastIndexOf_None_count. exact E.
Qed.

Lemma last_char_lastIndexOf (c : ascii) (s : string) :
  last_char s = Some c -> lastIndexOf c s = Some (String.length s - 1)%nat.
Proof.
  induction s as [| d r IH]; simpl; [discriminate |].
  destruct (last_char r) as [e |] eqn:E.
  - intros Heq. rewrite (IH Heq).
    destruct r; [discriminate |]. simpl. f_equal. lia.
  - intros Heq. injection Heq as ->. apply last_char_None in E. subst r.
    simpl. rewrite Ascii.eqb_refl. reflexivity.
Qed.

Lemma indexOf_drop (c : ascii) (s : string) (i : nat) :
  indexOf c s = Some i -> exists post, drop i s = String c post.
Proof.
  revert i. induction s as [| d r IH]; intros i Hidx; simpl in Hidx.
  - discriminate.
  - destruct (Ascii.eqb c d) eqn:Ecd.
    + injection Hidx as <-. apply Ascii.eqb_eq in Ecd. subst d.
      exists r. reflexivity.
    + destruct (indexOf c r) as [k |]; simpl in Hidx; [| discriminate].
      injection Hidx as <-. rewrite drop_S. apply IH. reflexivity.
Qed.

Lemma lastIndexOf_drop (c : ascii) (s : string) (i j : nat) :
  lastIndexOf c s = Some j -> (i <= j)%nat ->
  lastIndexOf c (drop i s) = Some (j - i)%nat.
Proof.
  revert s j. induction i as [| i IH]; intros s j Hlast Hle.
  - simpl. rewrite Hlast. f_equal. lia.
  - destruct s as [| d r]; [discriminate |].
    rewrite drop_S. simpl in Hlast.
    destruct (lastIndexOf c r) as [k |] eqn:E.
    + injection Hlast as <-. rewrite (IH r k E ltac:(lia)). reflexivity.
    + destruct (Ascii.eqb c d); [injection Hlast as <-; lia | discriminate].
Qed.

(** A text that [stripMarkdown] cuts to a brace pair starts with an open
    brace and ends with a close brace. *)
Lemma stripMarkdown_shape (raw : string) (i j : nat) :
  indexOf "{" raw = Some i -> lastIndexOf "}" raw = Some j -> (i < j)%nat ->
  (exists body, stripMarkdown raw = String "{" body)
  /\ last_char (stripMarkdown raw) = Some "}"%char.
Proof.
  intros Hopen Hclose Hlt. unfold stripMarkdown. rewrite Hopen, Hclose.
  destruct (Nat.ltb_spec i j) as [_ | Hge]; [| lia].
  destruct (indexOf_drop _ _ _ Hopen) as [post Hpost].
  pose proof (lastIndexOf_drop _ _ i j Hclose ltac:(lia)) as Hlast.
  replace (j + 1 - i)%nat with (S (j - i)) by lia.
  split.
  - rewrite Hpost, take_S. eexists. reflexivity.
  - apply (lastIndexOf_split _ _ _ Hlast).
Qed.

(** No brace is appended to a text that ends with a close brace. *)
Lemma close_braces_closed (s : string) :
  last_char s = Some "}"%char -> close_braces s = s.
Proof.
  intros Hlast. unfold close_braces.
  rewrite (last_char_lastIndexOf _ _ Hlast). simpl index_or_minus1.
  destruct s as [| c r]; [discriminate |].
  replace (Z.of_nat (String.length (String c r) - 1) <? Z.of_nat (String.length (String c r)) - 1)%Z
    with false; [reflexivity |].
  symmetry. apply Z.ltb_ge. simpl String.length. lia.
Qed.

Lemma from_first_brace_braced (body : string) :
  last_char (String "{" body) = Some "}"%char ->
  from_first_brace (String "{" body) = String "{" body.
Proof.
  intros Hlast. unfold from_first_brace, trim.
  rewrite (trimStart_plain "{" body eq_refl).
  rewrite (trimEnd_id _ _ Hlast eq_refl).
  assert (Hstart : startsWith (String "{" body) "{" = true)
    by (destruct body; reflexivity).
  rewrite Hstart. reflexivity.
Qed.

Lemma recovered_braced (body : string) :
  last_char (String "{" body) = Some "}"%char ->
  recovered (String "{" body) = String "{" body.
Proof.
  intros Hlast. unfold recovered.
  rewrite (from_first_brace_braced body Hlast).
  apply close_braces_closed. exact Hlast.
Qed.

Lemma take_all (s : string) : take (String.length s) s = s.
Proof.
  induction s as [| c r IH]; simpl; [reflexivity |]. rewrite IH. reflexivity.
Qed.

(** The guard of line 191 holds on a text with more open than close braces
    that does not end with a close brace. *)
Lemma close_braces_open (s : string) :
  last_char s <> Some "}"%char -> (0 < openBraces s)%Z ->
  close_braces s = s ++ repeat "}" (Z.to_nat (openBraces s)).
Proof.
  intros Hlast Hopen. unfold close_braces.
  assert (Hguard : (index_or_minus1 (lastIndexOf "}" s) <? Z.of_nat (String.length s) - 1)%Z
                   = true).
  { apply Z.ltb_lt. destruct (lastIndexOf "}" s) as [j |] eqn:E; simpl.
    - destruct (lastIndexOf_split _ _ _ E) as (Hl & _ & Hlen).
      destruct (Nat.eq_dec (S j) (String.length s)) as [Heq | Hne]; [| lia].
      rewrite Heq, take_all in Hl. contradiction.
    - destruct s as [| c r]; [discriminate | simpl String.length; lia]. }
  rewrite Hguard. apply Z.ltb_lt in Hopen. rewrite Hopen. reflexivity.
Qed.

Lemma indexOf_take (c : ascii) (s : string) (i : nat) :
  indexOf c s = Some i -> count c (take i s) = 0%nat.
Proof.
  revert i. induction s as [| d r IH]; intros i Hidx; simpl in Hidx; [discriminate |].
  destruct (Ascii.eqb c d) eqn:Ecd.
  - injection Hidx as <-. reflexivity.
  - destruct (indexOf c r) as [k |]; simpl in Hidx; [| discriminate].
    injection Hidx as <-. rewrite take_S. simpl. rewrite Ecd. apply IH. reflexivity.
Qed.

Lemma indexOf_None_count (c : ascii) (s : string) :
  indexOf c s = None -> count c s = 0%nat.
Proof.
  induction s as [| d r IH]; simpl; [reflexivity |].
  destruct (Ascii.eqb c d); [discriminate |].
  destruct (indexOf c r); [discriminate |].
  intros _. apply IH. reflexivity.
Qed.

Lemma startsWith_brace (t : string) :
  startsWith t "{" = true -> exists body, t = String "{" body.
Proof.
  unfold startsWith. destruct t as [| c body]; [discriminate |].
  cbn [String.prefix]. destruct (ascii_dec "{" c) as [<- | Hne]; [| discriminate].
  intros _. exists body. reflexivity.
Qed.

(** Lines 185-189: what is left of the trimmed text starts at its first
    open brace, when it has one, and is the trimmed text when it has none. *)
Lemma from_first_brace_split (text : string) :
  exists pre,
    trim text = pre ++ from_first_brace text
    /\ count "{" pre = 0%nat
    /\ ((pre = "" /\ count "{" (from_first_brace text) = 0%nat)
        \/ exists body, from_first_brace text = String "{" body).
Proof.
  unfold from_first_brace. set (t := trim text).
  destruct (startsWith t "{") eqn:Estart.
  { exists "". split; [reflexivity |]. split; [reflexivity |].
    right. apply startsWith_brace. exact Estart. }
  destruct (indexOf "{" t) as [i |] eqn:E.
  - exists (take i t). split; [symmetry; apply take_drop |].
    split; [apply indexOf_take; exact E |].
    right. apply (indexOf_drop _ _ _ E).
  - exists "". split; [reflexivity |]. split; [reflexivity |].
    left. split; [reflexivity | apply indexOf_None_count; exact E].
Qed.

(** C8, as the code has it.  On a text that fails strict parsing, the
    parser trims it and drops what comes before its first open brace (the
    part [pre], which has none and is empty when the text has none), giving
    [r]; it appends to [r] the excess of
    open over close braces only when that excess is positive and [r] does not
    already end with a close brace (the result then has as many close as open
    braces), and leaves [r] as it is otherwise, giving [r']; in particular a
    text that [stripMarkdown] cut to a brace pair is never extended.  It
    parses [r']; if that fails and the last close brace of [r'] is not at
    position 0, it parses the prefix of [r'] that ends at that last close
    brace; in every other case it fails. *)
Theorem recovery_steps {host : Host} (text : string) :
  JSON_parse text = None ->
  exists pre r r' : string,
    trim text = pre ++ r
    /\ count "{" pre = 0%nat
    /\ ((pre = "" /\ count "{" r = 0%nat) \/ exists body, r = String "{" body)
    /\ (let excess := (Z.of_nat (count "{" r) - Z.of_nat (count "}" r))%Z in
        (last_char r <> Some "}"%char -> (0 < excess)%Z ->
         r' = r ++ repeat "}" (Z.to_nat excess) /\ count "{" r' = count "}" r')
        /\ (last_char r = Some "}"%char \/ (excess <= 0)%Z -> r' = r))
    /\ tryParsePartialJSON text
       = match JSON_parse r' with
         | Some v => Some v
         | None =>
             match lastIndexOf "}" r' with
             | Some lastBrace =>
                 if (0 <? lastBrace)%nat then JSON_parse (take (lastBrace + 1) r') else None
             | None => None
             end
         end
    /\ (forall raw i j,
          text = stripMarkdown raw ->
          indexOf "{" raw = Some i -> lastIndexOf "}" raw = Some j -> (i < j)%nat ->
          pre = "" /\ r' = text).
Proof.
  intros Hfail.
  destruct (from_first_brace_split text) as (pre & Hsplit & Hpre & Hstart).
  exists pre, (from_first_brace text), (recovered text).
  split; [exact Hsplit |]. split; [exact Hpre |]. split; [exact Hstart |].
  set (r := from_first_brace text) in *.
  split.
  { cbv zeta. fold (openBraces r). split.
    - intros Hlast Hopen. unfold recovered. fold r.
      rewrite (close_braces_open r Hlast Hopen). split; [reflexivity |].
      unfold openBraces in *. rewrite !count_app, !count_repeat. simpl. lia.
    - intros [Hlast | Hbal]; unfold recovered; fold r.
      + apply close_braces_closed. exact Hlast.
      + unfold close_braces.
        destruct (Z.ltb_spec 0 (openBraces r)) as [Hpos | _]; [lia |].
        rewrite andb_false_r. reflexivity. }
  split.
  { unfold tryParsePartialJSON, truncated. rewrite Hfail.
    destruct (JSON_parse (recovered text)); [reflexivity |].
    destruct (lastIndexOf "}" (recovered text)) as [j |]; [| reflexivity].
    destruct (0 <? j)%nat; reflexivity. }
  intros raw i j -> Hopen Hclose Hlt.
  destruct (stripMarkdown_shape raw i j Hopen Hclose Hlt) as [[body Hbody] Hlast].
  subst r. rewrite Hbody in *.
  split; [| apply recovered_braced; exact Hlast].
  rewrite (from_first_brace_braced body Hlast) in Hsplit.
  unfold trim in Hsplit.
  rewrite (trimStart_plain "{" body eq_refl), (trimEnd_id _ _ Hlast eq_refl) in Hsplit.
  destruct pre as [| c pre']; [reflexivity |].
  apply (f_equal String.length) in Hsplit. simpl in Hsplit.
  rewrite length_append in Hsplit. simpl in Hsplit. lia.
Qed.

Lemma recovery_steps_witness :
  @JSON_parse completingHost paddedResponse = None
  /\ from_first_brace paddedResponse = "{" ++ quoted "scans" ++ ":[]"
  /\ recovered paddedResponse = "{" ++ quoted "scans" ++ ":[]}"
  /\ exists pre r r' : string,
       trim paddedResponse = pre ++ r
       /\ count "{" pre = 0%nat
       /\ tryParsePartialJSON (host := completingHost) paddedResponse
          = match @JSON_parse completingHost r' with
            | Some v => Some v
            | None =>
                match lastIndexOf "}" r' with
                | Some lastBrace =>
                    if (0 <? lastBrace)%nat
                    then @JSON_parse completingHost (take (lastBrace + 1) r')
                    else None
                | None => None
                end
            end.
Proof.
  split; [reflexivity |]. split; [reflexivity |]. split; [reflexivity |].
  destruct (recovery_steps (host := completingHost) paddedResponse eq_refl)
    as (pre & r & r' & Hsplit & Hpre & _ & _ & Hsteps & _).
  exists pre, r, r'. split; [exact Hsplit |]. split; [exact Hpre | exact Hsteps].
Defined.

(** C8, as stated, fails on a response cut just before its last brace: the
    text ends with a close brace, so no brace is appended although one open
    brace is unmatched; the parser then fails, where appending the missing
    brace gives a text that parses. *)
Lemma closed_tail_is_not_repaired :
  let text := stripMarkdown cutResponse in
  text = cutResponse
  /\ @JSON_parse completingHost text = None
  /\ openBraces text = 1%Z
  /\ recovered text = text
  /\ tryParsePartialJSON (host := completingHost) text = None
  /\ SpecWords.spec_recovery (host := completingHost) text
     = Some (Parsed.mk None (Some Signature.empty)).
Proof.
  vm_compute. repeat split; reflexivity.
Qed.

End Recovery.

(** ** Analysis client: retries, cancellation and degradation *)

Section Retry.

Import Run Service Analysis Orchestrator Scenario.
Local Open Scope string_scope.
Local Open Scope list_scope.
Local Open Scope Z_scope.

Context {host : Host}.

(** One turn of the loop of [analyzeUIScreen]: the token is read; the
    request is sent and settles; an abort error and a rejection with
    [undefined] or [null] leave the loop with an exception, a response with
    a [thought_signature] with the result, and every other outcome goes to
    the next turn after the backoff, or to the degraded result when no retry
    is left. *)
Lemma attempts_step (prev : Signature.t) (remaining : nat) (env : Env) (w : World) :
  attempts prev remaining env w
  = if signal_aborted env w then (Threw abortSentinel, w)
    else
      let again :=
        match remaining with
        | S fewer =>
            attempts prev fewer env
              (after_wait (Z.of_nat (S (maxRetries - remaining)) * 5000) (after_call env w))
        | O => (Returned (degraded prev), after_call env w)
        end in
      match backend env (calls w) with
      | RejectedNullish => (Threw typeError, after_call env w)
      | Rejected e =>
          if String.eqb (exn_name e) "AbortError" then (Threw e, after_call env w) else again
      | Replied text =>
          match tryParsePartialJSON (stripMarkdown (text_or text "{}")) with
          | Some parsed =>
              match Parsed.thought_signature parsed with
              | Some ts => (Returned (assembled prev parsed ts), after_call env w)
              | None => again
              end
          | None => again
          end
      end.
Proof.
  destruct remaining as [| fewer]; simpl attempts; unfold bind at 1, aborted;
    destruct (signal_aborted env w); try reflexivity;
    unfold bind at 1, generateContent;
    destruct (backend env (calls w)) as [text | e |]; try reflexivity;
    unfold try_catch, receive, caught, interpret, throw, ret, bind, wait;
    try (destruct (String.eqb (exn_name e) "AbortError"); reflexivity);
    destruct (tryParsePartialJSON _) as [parsed |]; try reflexivity;
    destruct (Parsed.thought_signature parsed); reflexivity.
Qed.

(** The three ways a turn can go. *)
Lemma attempts_cases (prev : Signature.t) (remaining : nat) (env : Env) (w : World) :
  signal_aborted env w = false ->
  (exists e, attempts prev remaining env w = (Threw e, after_call env w)
             /\ (e = typeError \/ String.eqb (exn_name e) "AbortError" = true))
  \/ (exists parsed ts, attempts prev remaining env w
                        = (Returned (assembled prev parsed ts), after_call env w))
  \/ (attempt_fails env (calls w) = true
      /\ attempts prev remaining env w
         = match remaining with
           | S fewer =>
               attempts prev fewer env
                 (after_wait (Z.of_nat (S (maxRetries - remaining)) * 5000) (after_call env w))
           | O => (Returned (degraded prev), after_call env w)
           end).
Proof.
  intros Hlive. rewrite attempts_step, Hlive. unfold attempt_fails. cbv zeta.
  destruct (backend env (calls w)) as [text | e |].
  - destruct (tryParsePartialJSON _) as [parsed |]; [| right; right; auto].
    destruct (Parsed.thought_signature parsed) as [ts |]; [| right; right; auto].
    right. left. exists parsed, ts. reflexivity.
  - destruct (String.eqb (exn_name e) "AbortError") eqn:Eab.
    + left. exists e. auto.
    + right. right. auto.
  - left. exists typeError. auto.
Qed.

(** A failure that the [catch] clause retries, spelled out. *)
Lemma attempt_fails_iff (env : Env) (n : nat) :
  attempt_fails env n = true
  <-> (exists e, backend env n = Rejected e /\ String.eqb (exn_name e) "AbortError" = false)
      \/ (exists text,
             backend env n = Replied text
             /\ (tryParsePartialJSON (stripMarkdown (text_or text "{}")) = None
                 \/ exists parsed,
                      tryParsePartialJSON (stripMarkdown (text_or text "{}")) = Some parsed
                      /\ Parsed.thought_signature parsed = None)).
Proof.
  unfold attempt_fails. destruct (backend env n) as [text | e |].
  - destruct (tryParsePartialJSON _) as [parsed |] eqn:Eparse.
    + destruct (Parsed.thought_signature parsed) as [ts |] eqn:Ets.
      * split; [discriminate |].
        intros [(e & He & _) | (t & Ht & [Hnone | (q & Hq & Hts)])]; try discriminate.
        -- injection Ht as <-. congruence.
        -- injection Ht as <-. rewrite Eparse in Hq. injection Hq as <-. congruence.
      * split; [| reflexivity]. intros _. right. exists text. split; [reflexivity |].
        right. exists parsed. auto.
    + split; [| reflexivity]. intros _. right. exists text. auto.
  - rewrite negb_true_iff. split.
    + intros Hne. left. exists e. auto.
    + intros [(e' & He & Hne) | (t & Ht & _)]; [| discriminate].
      injection He as <-. exact Hne.
  - split; [discriminate |].
    intros [(e & He & _) | (t & Ht & _)]; discriminate.
Qed.

(** Whatever the backend does, the loop sends its requests and waits along
    the schedule, leaves the React state alone, and throws nothing but
    cancellations and the TypeError of a rejection without a reason. *)
Lemma attempts_along_schedule (prev : Signature.t) (remaining : nat) (env : Env) (w : World) :
  (exists evs rest,
      trace (snd (attempts prev remaining env w)) = trace w ++ evs
      /\ schedule remaining (calls w) = evs ++ rest)
  /\ ui (snd (attempts prev remaining env w)) = ui w
  /\ (forall e, fst (attempts prev remaining env w) = Threw e ->
                e = abortSentinel \/ String.eqb (exn_name e) "AbortError" = true
                \/ e = typeError).
Proof.
  revert w. induction remaining as [| fewer IH]; intros w;
    destruct (signal_aborted env w) eqn:Elive.
  1, 3: (rewrite attempts_step, Elive;
         split; [exists []; eexists; rewrite app_nil_r; split; reflexivity |];
         split; [reflexivity | intros e Heq; inversion Heq; auto]).
  - destruct (attempts_cases prev 0 env w Elive)
      as [(e & -> & He) | [(parsed & ts & ->) | (_ & ->)]].
    + split; [exists [EvCall (calls w)], []; auto |].
      split; [reflexivity | intros e' Heq; inversion Heq; subst; tauto].
    + split; [exists [EvCall (calls w)], []; auto |].
      split; [reflexivity | discriminate].
    + split; [exists [EvCall (calls w)], []; auto |].
      split; [reflexivity | discriminate].
  - destruct (attempts_cases prev (S fewer) env w Elive)
      as [(e & -> & He) | [(parsed & ts & ->) | (_ & ->)]].
    + split; [exists [EvCall (calls w)], (tail (schedule (S fewer) (calls w))); auto |].
      split; [reflexivity | intros e' Heq; inversion Heq; subst; tauto].
    + split; [exists [EvCall (calls w)], (tail (schedule (S fewer) (calls w))); auto |].
      split; [reflexivity | discriminate].
    + set (d := Z.of_nat (S (maxRetries - S fewer)) * 5000).
      destruct (IH (after_wait d (after_call env w))) as ((evs & rest & Htr & Hsch) & Hui & Hthrow).
      split; [| split; [rewrite Hui; reflexivity | exact Hthrow]].
      exists (EvCall (calls w) :: EvWait d :: evs), rest.
      rewrite Htr. simpl trace. simpl calls in Hsch.
      split; [rewrite <- !app_assoc; reflexivity |].
      simpl schedule. fold d. rewrite Hsch. reflexivity.
Qed.

(** A failure that is retried: the backoff, then the rest of the loop. *)
Lemma attempts_retry (prev : Signature.t) (fewer : nat) (env : Env) (w : World) :
  signal_aborted env w = false ->
  attempt_fails env (calls w) = true ->
  attempts prev (S fewer) env w
  = attempts prev fewer env
      (after_wait (Z.of_nat (S (maxRetries - S fewer)) * 5000) (after_call env w)).
Proof.
  intros Hlive Hfail. rewrite attempts_step, Hlive. unfold attempt_fails in Hfail. cbv zeta.
  destruct (backend env (calls w)) as [text | e |]; [| | discriminate].
  - destruct (tryParsePartialJSON _) as [parsed |]; [| reflexivity].
    destruct (Parsed.thought_signature parsed); [discriminate | reflexivity].
  - apply negb_true_iff in Hfail. rewrite Hfail. reflexivity.
Qed.

(** A failure with no retry left: the degraded result. *)
Lemma attempts_last (prev : Signature.t) (env : Env) (w : World) :
  signal_aborted env w = false ->
  attempt_fails env (calls w) = true ->
  attempts prev 0 env w = (Returned (degraded prev), after_call env w).
Proof.
  intros Hlive Hfail. rewrite attempts_step, Hlive. unfold attempt_fails in Hfail. cbv zeta.
  destruct (backend env (calls w)) as [text | e |]; [| | discriminate].
  - destruct (tryParsePartialJSON _) as [parsed |]; [| reflexivity].
    destruct (Parsed.thought_signature parsed); [discriminate | reflexivity].
  - apply negb_true_iff in Hfail. rewrite Hfail. reflexivity.
Qed.

(** What a turn that starts in the world [v] does in the four cases in
    which it ends the call. *)
Lemma attempts_at (prev : Signature.t) (remaining : nat) (env : Env) (v : World) :
  (signal_aborted env v = true -> attempts prev remaining env v = (Threw abortSentinel, v))
  /\ (signal_aborted env v = false ->
      forall e, backend env (calls v) = Rejected e ->
                String.eqb (exn_name e) "AbortError" = true ->
                attempts prev remaining env v = (Threw e, after_call env v))
  /\ (signal_aborted env v = false ->
      backend env (calls v) = RejectedNullish ->
      attempts prev remaining env v = (Threw typeError, after_call env v))
  /\ (signal_aborted env v = false ->
      forall text parsed ts,
        backend env (calls v) = Replied text ->
        tryParsePartialJSON (stripMarkdown (text_or text "{}")) = Some parsed ->
        Parsed.thought_signature parsed = Some ts ->
        attempts prev remaining env v = (Returned (assembled prev parsed ts), after_call env v)).
Proof.
  rewrite attempts_step. repeat split.
  - intros ->. reflexivity.
  - intros -> e -> ->. reflexivity.
  - intros -> ->. reflexivity.
  - intros -> text parsed ts -> -> ->. reflexivity.
Qed.

(** Three failures in a row, with no cancellation: the degraded result. *)
Lemma attempts_exhausted (prev : Signature.t) (env : Env) (w : World) :
  cancelAt env = None ->
  attempt_fails env (calls w) = true ->
  attempt_fails env (S (calls w)) = true ->
  attempt_fails env (S (S (calls w))) = true ->
  analyzeUIScreen prev env w
  = (Returned (degraded prev),
     after_call env (after_wait 10000 (after_call env (after_wait 5000 (after_call env w))))).
Proof.
  intros Hnever F0 F1 F2.
  assert (Hlive : forall v, signal_aborted env v = false)
    by (intros v; unfold signal_aborted; rewrite Hnever; reflexivity).
  unfold analyzeUIScreen. change maxRetries with 2%nat.
  rewrite (attempts_retry prev 1 env w (Hlive _) F0).
  change (Z.of_nat (S (maxRetries - 2)) * 5000) with 5000.
  rewrite (attempts_retry prev 0 env (after_wait 5000 (after_call env w)) (Hlive _) F1).
  change (Z.of_nat (S (maxRetries - 1)) * 5000) with 10000.
  apply attempts_last; [apply Hlive | exact F2].
Qed.

(** One turn of the tile loop. *)
Lemma tileLoop_step (H i : Z) (later : list Z) (st : Loop) (env : Env) (w : World) :
  tileLoop H (i :: later) st env w
  = if signal_aborted env w then (Threw abortSentinel, w)
    else
      match analyzeUIScreen (loopSignature st) env
              (if 0 <? i then after_wait TILE_COOLDOWN w else w) with
      | (Threw e, w') => (Threw e, w')
      | (Returned result, w') =>
          if negb (Str.is_empty (text_or (ScanResponse.error result) ""))
          then (Returned st, final (setError (ScanResponse.error result)) env w')
          else
            let st' := absorb result (currentTileHeight H i) (offsetY i) H st in
            tileLoop H later st' env (final (emit st') env w')
      end.
Proof.
  simpl tileLoop. unfold bind at 1, aborted.
  destruct (signal_aborted env w); [reflexivity |].
  unfold bind at 1.
  destruct (0 <? i); unfold wait, ret;
    unfold bind at 1;
    destruct (analyzeUIScreen (loopSignature st) env _) as [[result | e] w']; try reflexivity;
    destruct (negb (Str.is_empty (text_or (ScanResponse.error result) ""))); reflexivity.
Qed.

(** X20: the retry loop, attempt by attempt.  About [analyzeUIScreen],
    called in the world [w] where [n] requests have been sent.  The attempts
    start in [w], in
    [w1] (5 s after the first request settled) and in [w2] (10 s after the
    second settled), each when the token is live and the attempt before it
    failed: its request was rejected with an error object whose name is not
    AbortError, or its text could not be parsed, or the parsed object had no
    [thought_signature].  At each attempt: with the token cancelled the call
    throws at once, sending nothing; an abort error of the backend is thrown
    on, with no wait and no further request; a rejection with [undefined] or
    [null] is not retried either, and a TypeError is thrown; a response that
    parses into an object with a [thought_signature] is returned, clamped and
    merged, with no error.  A third failure ends in the degraded result,
    which is returned: no findings, status Caution, a non-empty error.
    Nothing is thrown but a cancellation or that TypeError.  About the tile
    loop: when the analysis of a tile returns a result with an error, the
    loop ends there, with its variables and the displayed findings as the
    earlier tiles left them, the error displayed, and no further request. *)
Theorem retry_cancel_degrade :
  (forall (prev : Signature.t) (env : Env) (w : World),
      let n := calls w in
      let out := analyzeUIScreen prev env w in
      let w1 := after_wait 5000 (after_call env w) in
      let w2 := after_wait 10000 (after_call env w1) in
      let live (v : World) := signal_aborted env v = false in
      let fails (k : nat) :=
        (exists e, backend env k = Rejected e /\ String.eqb (exn_name e) "AbortError" = false)
        \/ (exists text,
               backend env k = Replied text
               /\ (tryParsePartialJSON (stripMarkdown (text_or text "{}")) = None
                   \/ exists parsed,
                        tryParsePartialJSON (stripMarkdown (text_or text "{}")) = Some parsed
                        /\ Parsed.thought_signature parsed = None)) in
      let at_attempt (k : nat) (v : World) :=
        (signal_aborted env v = true -> out = (Threw abortSentinel, v))
        /\ (live v ->
            forall e, backend env k = Rejected e ->
                      String.eqb (exn_name e) "AbortError" = true ->
                      out = (Threw e, after_call env v))
        /\ (live v -> backend env k = RejectedNullish ->
            out = (Threw typeError, after_call env v))
        /\ (live v ->
            forall text parsed ts,
              backend env k = Replied text ->
              tryParsePartialJSON (stripMarkdown (text_or text "{}")) = Some parsed ->
              Parsed.thought_signature parsed = Some ts ->
              exists r,
                out = (Returned r, after_call env v)
                /\ ScanResponse.error r = None
                /\ ScanResponse.scans r
                   = map clampScan (match Parsed.scans parsed with Some l => l | None => [] end)
                /\ ScanResponse.viewport_meta r = calculateSafetyMetrics (ScanResponse.scans r)
                /\ Signature.catalog_anchors (ScanResponse.thought_signature r)
                   = mergeAnchors (Signature.catalog_anchors prev)
                                  (Signature.catalog_anchors ts)) in
      at_attempt n w
      /\ (live w -> fails n -> at_attempt (S n) w1)
      /\ (live w -> fails n -> live w1 -> fails (S n) -> at_attempt (S (S n)) w2)
      /\ (live w -> fails n -> live w1 -> fails (S n) -> live w2 -> fails (S (S n)) ->
          out = (Returned (degraded prev), after_call env w2))
      /\ (forall e, fst out = Threw e ->
                    e = abortSentinel \/ String.eqb (exn_name e) "AbortError" = true
                    \/ e = typeError)
      /\ ScanResponse.scans (degraded prev) = []
      /\ ViewportMeta.status (ScanResponse.viewport_meta (degraded prev)) = Caution
      /\ ScanResponse.error (degraded prev)
         = Some "Neural Link Failure (Rate Limited or Busy).")
  /\ (forall (H i : Z) (later : list Z) (st : Loop) (env : Env) (w w' : World)
             (result : ScanResponse.t),
         signal_aborted env w = false ->
         analyzeUIScreen (loopSignature st) env
           (if 0 <? i then after_wait TILE_COOLDOWN w else w) = (Returned result, w') ->
         Str.is_empty (text_or (ScanResponse.error result) "") = false ->
         let w'' := final (setError (ScanResponse.error result)) env w' in
         tileLoop H (i :: later) st env w = (Returned st, w'')
         /\ scans (ui w'') = scans (ui w)
         /\ viewportMeta (ui w'') = viewportMeta (ui w)
         /\ error (ui w'') = ScanResponse.error result
         /\ calls w'' = calls w').
Proof.
  split.
  - intros prev env w n out w1 w2 live fails at_attempt.
    assert (Hat : forall remaining k v,
               calls v = k -> out = attempts prev remaining env v -> at_attempt k v).
    { intros remaining k v <- ->.
      destruct (attempts_at prev remaining env v) as (A1 & A2 & A3 & A4).
      unfold at_attempt, live. split; [exact A1 |]. split; [exact A2 |]. split; [exact A3 |].
      intros Hlive text parsed ts Hrep Hparse Hts.
      exists (assembled prev parsed ts). split; [eapply A4; eassumption |].
      repeat split. }
    assert (Hfails : forall k, fails k -> attempt_fails env k = true)
      by (intros k Hk; apply attempt_fails_iff; exact Hk).
    assert (E1 : live w -> fails n -> out = attempts prev 1 env w1).
    { intros Hl Hf. unfold out, analyzeUIScreen. change maxRetries with 2%nat.
      apply attempts_retry; [exact Hl | apply Hfails; exact Hf]. }
    assert (E2 : live w -> fails n -> live w1 -> fails (S n) -> out = attempts prev 0 env w2).
    { intros Hl Hf Hl1 Hf1. rewrite (E1 Hl Hf).
      apply (attempts_retry prev 0 env w1); [exact Hl1 | apply Hfails; exact Hf1]. }
    split; [apply (Hat 2%nat); reflexivity |].
    split; [intros Hl Hf; apply (Hat 1%nat); [reflexivity | apply E1; assumption] |].
    split; [intros Hl Hf Hl1 Hf1; apply (Hat 0%nat); [reflexivity | apply E2; assumption] |].
    split.
    { intros Hl Hf Hl1 Hf1 Hl2 Hf2. rewrite (E2 Hl Hf Hl1 Hf1).
      apply attempts_last; [exact Hl2 | apply Hfails; exact Hf2]. }
    split; [apply (attempts_along_schedule prev maxRetries env w) |].
    repeat split.
  - intros H i later st env w w' result Hlive Hres Herr w''.
    rewrite tileLoop_step, Hlive, Hres, Herr. simpl negb. cbv iota.
    split; [reflexivity |].
    destruct (attempts_along_schedule (loopSignature st) maxRetries env
                (if 0 <? i then after_wait TILE_COOLDOWN w else w)) as (_ & Hui & _).
    fold (analyzeUIScreen (loopSignature st)) in Hui. rewrite Hres in Hui. simpl in Hui.
    assert (Hsame : ui w' = ui w) by (rewrite Hui; destruct (0 <? i); reflexivity).
    unfold w'', final, setError, setUI. simpl. rewrite Hsame. auto.
Qed.

End Retry.

Section RetryWitness.

Import Run Service Analysis Orchestrator Scenario.
Local Open Scope string_scope.
Local Open Scope Z_scope.

Lemma retry_cancel_degrade_witness :
  analyzeUIScreen (host := twoTileHost) Signature.empty (busyEnv None) midWorld
  = (Returned (degraded Signature.empty),
     mkWorld 19000 4
       [EvCall 0; EvCall 1; EvWait 5000; EvCall 2; EvWait 10000; EvCall 3]
       (ui midWorld))
  /\ exists w'',
       tileLoop (host := twoTileHost) 4000 [0; 1; 2] midLoop (busyEnv None) midWorld
       = (Returned midLoop, w'')
       /\ scans (ui w'') = [earlierFinding]
       /\ calls w'' = 4%nat.
Proof.
  destruct (retry_cancel_degrade (host := twoTileHost)) as [Hanalysis Hloop].
  destruct (Hanalysis Signature.empty (busyEnv None) midWorld) as (_ & _ & _ & Hexhaust & _).
  assert (Hbusy : forall k,
             exists e, backend (busyEnv None) k = Rejected e
                       /\ String.eqb (exn_name e) "AbortError" = false)
    by (intros k; eexists; split; reflexivity).
  specialize (Hexhaust eq_refl (or_introl (Hbusy _)) eq_refl (or_introl (Hbusy _))
                       eq_refl (or_introl (Hbusy _))).
  split; [exact Hexhaust |].
  destruct (Hloop 4000 0 [1; 2] midLoop (busyEnv None) midWorld _ _ eq_refl Hexhaust eq_refl)
    as (Hrun & Hscans & _ & _ & Hcalls).
  eexists. split; [exact Hrun |]. split; [exact Hscans | exact Hcalls].
Defined.


End RetryWitness.

(** ** Cancellation and timers *)

Section Timers.

Import Run Service Analysis Orchestrator Scenario.
Local Open Scope string_scope.
Local Open Scope list_scope.
Local Open Scope Z_scope.

Context {host : Host}.

Lemma aborted_from (env : Env) (w : World) (t : Z) :
  cancelAt env = Some t -> t <= now w -> signal_aborted env w = true.
Proof.
  intros Hc Ht. unfold signal_aborted. rewrite Hc. apply Z.leb_le. exact Ht.
Qed.

Lemma live_before (env : Env) (w : World) (t : Z) :
  cancelAt env = Some t -> now w < t -> signal_aborted env w = false.
Proof.
  intros Hc Ht. unfold signal_aborted. rewrite Hc. apply Z.leb_gt. exact Ht.
Qed.

(** C9, as the code has it.  A cancellation that arrives while the cooldown
    before a tile is pending does not cut the timer short: the 5 s run to
    their end, the token is read right after, the run is thrown out with the
    cancellation at that instant, and the tile's request is not sent.  In the
    same way a cancellation that arrives during a failing request or during
    the backoff that follows it is seen only when the backoff has run to its
    end, before the next request. *)
Theorem waits_run_to_their_end :
  (forall (H i : Z) (later : list Z) (st : Loop) (env : Env) (w : World) (t : Z),
      0 < i ->
      cancelAt env = Some t ->
      now w < t <= now w + TILE_COOLDOWN ->
      tileLoop H (i :: later) st env w = (Threw abortSentinel, after_wait TILE_COOLDOWN w))
  /\ (forall (prev : Signature.t) (fewer : nat) (env : Env) (w : World) (t : Z),
         let backoff := Z.of_nat (S (maxRetries - S fewer)) * 5000 in
         cancelAt env = Some t ->
         attempt_fails env (calls w) = true ->
         now w < t <= now (after_call env w) + backoff ->
         attempts prev (S fewer) env w
         = (Threw abortSentinel, after_wait backoff (after_call env w))).
Proof.
  split.
  - intros H i later st env w t Hi Hc [Hlo Hhi].
    rewrite tileLoop_step, (live_before env w t Hc Hlo).
    destruct (Z.ltb_spec 0 i) as [_ | Hle]; [| lia].
    unfold analyzeUIScreen. rewrite attempts_step.
    rewrite (aborted_from env (after_wait TILE_COOLDOWN w) t Hc); [reflexivity |].
    simpl now. exact Hhi.
  - intros prev fewer env w t backoff Hc Hfail [Hlo Hhi]. subst backoff.
    rewrite (attempts_retry prev fewer env w (live_before env w t Hc Hlo) Hfail).
    rewrite attempts_step.
    rewrite (aborted_from env _ t Hc); [reflexivity |].
    simpl now. simpl now in Hhi. exact Hhi.
Qed.

End Timers.

Section TimerRuns.

Import Run Service Analysis Orchestrator Scenario.
Local Open Scope Z_scope.

Lemma waits_run_to_their_end_witness :
  tileLoop (host := twoTileHost) 2000 [1] midLoop (twoTileEnv (Some 1500) 1000) midWorld
  = (Threw abortSentinel, mkWorld 6000 1 [EvCall 0; EvWait 5000] (ui midWorld))
  /\ attempts (host := twoTileHost) Signature.empty 2 (busyEnv (Some 1500)) freshWorld
     = (Threw abortSentinel, mkWorld 6000 1 [EvCall 0; EvWait 5000] (ui freshWorld)).
Proof.
  destruct (waits_run_to_their_end (host := twoTileHost)) as [Hcool Hback].
  split.
  - apply (Hcool 2000 1 [] midLoop (twoTileEnv (Some 1500) 1000) midWorld 1500);
      [reflexivity | reflexivity | split; [reflexivity | discriminate]].
  - apply (Hback Signature.empty 1%nat (busyEnv (Some 1500)) freshWorld 1500);
      [reflexivity | reflexivity | split; [reflexivity | discriminate]].
Defined.

(** C9, as stated, fails.  A two-tile scan whose first request takes 1 s is
    cancelled at 1.5 s, half a second into the cooldown: the run ends at 6 s,
    when the 5 s timer has run to its end, not at 1.5 s.  A call whose first
    request fails at 1 s and that is cancelled at 1.5 s, during the backoff,
    ends at 6 s too. *)
Lemma cancellation_waits_for_timer :
  let scan := final (handleScan (host := twoTileHost) 2000)
                    (twoTileEnv (Some 1500) 1000) freshWorld in
  let call := final (analyzeUIScreen (host := twoTileHost) Signature.empty)
                    (busyEnv (Some 1500)) freshWorld in
  (now scan = 6000 /\ trace scan = [EvCall 0; EvWait 5000] /\ now scan <> 1500)
  /\ (now call = 6000 /\ trace call = [EvCall 0; EvWait 5000] /\ now call <> 1500).
Proof.
  vm_compute. repeat split; discriminate.
Qed.

End TimerRuns.

(** ** Clamping of coordinates *)

Section Clamp.

Import Run Service Analysis Orchestrator Scenario.
Local Open Scope Z_scope.

(** Every component [clampCoordinates] returns is an integer of [0, 1000],
    whatever value it is given. *)
Lemma clampComponent_in_range {host : Host} (c : jsval) :
  JS.int_in_range 0 1000 (clampComponent c).
Proof.
  assert (Hround : forall z : Z,
             JS.int_in_range 0 1000
               (JS.max (Fin 0) (JS.min (Fin 1000) (Fin (inject_Z z))))).
  { intros z. unfold JS.min, JS.max.
    destruct (Qle_bool 1000 (inject_Z z)) eqn:Ehi.
    - exists 1000. split; [reflexivity | lia].
    - destruct (Qle_bool 0 (inject_Z z)) eqn:Elo.
      + exists z. split; [reflexivity |].
        apply Qle_bool_iff in Elo. unfold Qle in Elo. simpl in Elo.
        apply not_true_iff_false in Ehi. rewrite Qle_bool_iff in Ehi.
        unfold Qle in Ehi. simpl in Ehi. lia.
      + exists 0. split; [reflexivity | lia]. }
  unfold clampComponent, JS.or_else, JS.truthy.
  destruct (Number c) as [| | | q].
  - exists 0. split; [reflexivity | lia].
  - exists 1000. split; [reflexivity | lia].
  - exists 0. split; [reflexivity | lia].
  - destruct (negb (JS.Qzero q)).
    + unfold JS.round. apply Hround.
    + exists 0. split; [reflexivity | lia].
Qed.

Lemma clampCoordinates_in_range {host : Host} (coords : jsval) (c : jsnum) :
  In c (clampCoordinates coords) -> JS.int_in_range 0 1000 c.
Proof.
  assert (Hzero : forall x, In x [Fin 0; Fin 0; Fin 0; Fin 0] -> JS.int_in_range 0 1000 x).
  { intros x Hx. exists 0. split; [| lia].
    simpl in Hx. intuition (subst; reflexivity). }
  unfold clampCoordinates.
  destruct coords as [| | b | n | s | l |]; try apply Hzero.
  destruct (length l <? 4)%nat; [apply Hzero |].
  intros Hin. apply in_map_iff in Hin. destruct Hin as (v & <- & _).
  apply clampComponent_in_range.
Qed.

(** C4 at a response whose finding and whose anchor carry the same box
    [1200, -5, 1500.5, 2000]: the finding comes back clamped and rounded, and
    the anchor comes back with the box it came with, two of whose components
    are not integers of [0, 1000]. *)
Theorem anchor_box_left_unclamped :
  (exists (result : ScanResponse.t) (w : World),
      analyzeUIScreen (host := wideHost) Signature.empty wideEnv freshWorld
      = (Returned result, w)
      /\ map DarkPatternScan.coordinates (ScanResponse.scans result)
         = [[Fin 1000; Fin 0; Fin 1000; Fin 1000]]
      /\ map CatalogAnchor.coordinates
             (Signature.catalog_anchors (ScanResponse.thought_signature result))
         = [[Fin 1200; Fin (-5); Fin (3001 # 2); Fin 2000]])
  /\ ~ JS.int_in_range 0 1000 (Fin 1200)
  /\ ~ JS.int_in_range 0 1000 (Fin (3001 # 2)).
Proof.
  split.
  - eexists. eexists. split; [vm_compute; reflexivity |].
    split; reflexivity.
  - split; intros (z & Hz & Hrange); injection Hz as Hnum; lia.
Qed.

End Clamp.

(** ** End to end *)

Section EndToEnd.

Import Run Service Analysis Orchestrator Scenario.
Local Open Scope string_scope.
Local Open Scope Z_scope.

(** Had the list of findings been given to [calculateSafetyMetrics], a
    synthetic finding alone would make the status Compromised. *)
Lemma synthetic_finding_is_compromising
    (anchor : CatalogAnchor.t) (tileHeight offset fullHeight : Z) :
  ViewportMeta.status
    (calculateSafetyMetrics [syntheticFinding anchor tileHeight offset fullHeight])
  = Compromised.
Proof. reflexivity. Qed.

(** C1 on a fresh session, for a two-tile image of height 2000 whose tiles
    report no finding of their own and report "sku1" at 10.00, then at 12.00,
    visible, with a non-zero box: the final list holds exactly one finding,
    the synthetic BAIT-AND-SWITCH of High severity that names the item, and
    the final Viewport Meta counts it, yet its status is Safe. *)
Theorem price_hike_leaves_status_safe (d : Z) :
  let w := final (handleScan (host := twoTileHost) 2000) (twoTileEnv None d) freshWorld in
  numTiles 2000 = 2
  /\ map (fun s => (DarkPatternScan.pattern_type s, DarkPatternScan.severity s,
                    DarkPatternScan.truth_label s)) (scans (ui w))
     = [("BAIT-AND-SWITCH", High, "Pro plan: Price hiked since session start.")]
  /\ viewportMeta (ui w)
     = Some (ViewportMeta.mk 1 Safe "Interface appears transparent. Safe to proceed.")
  /\ error (ui w) = None
  /\ calls w = 2%nat.
Proof.
  vm_compute. repeat split; reflexivity.
Qed.

End EndToEnd.

(* ================================================================== *)
(** * Further properties of the code *)
(* ================================================================== *)

(** ** Threat aggregation *)

Section Metrics.

Import Service.
Local Open Scope string_scope.
Local Open Scope nat_scope.

Lemma score_fold (l : list DarkPatternScan.t) (acc : nat) :
  fold_left (fun a s => a + severity_score (DarkPatternScan.severity s)) l acc
  = acc + fold_left (fun a s => a + severity_score (DarkPatternScan.severity s)) l 0.
Proof.
  revert acc. induction l as [| x r IH]; intros acc; simpl; [lia |].
  rewrite (IH (acc + _)), (IH (severity_score _)). lia.
Qed.

Lemma score_at_least_length (l : list DarkPatternScan.t) :
  length l <= fold_left (fun a s => a + severity_score (DarkPatternScan.severity s)) l 0.
Proof.
  induction l as [| x r IH]; simpl; [lia |].
  rewrite score_fold.
  assert (1 <= severity_score (DarkPatternScan.severity x))
    by (destruct (DarkPatternScan.severity x); simpl; lia).
  lia.
Qed.

Lemma metrics_status (l : list DarkPatternScan.t) :
  ViewportMeta.status (calculateSafetyMetrics l)
  = if (15 <=? fold_left (fun a s => a + severity_score (DarkPatternScan.severity s)) l 0)
       || existsb (fun s => Str.includes (DarkPatternScan.pattern_type s) "SWITCH"
                            || Str.includes (DarkPatternScan.pattern_type s) "BAIT") l
       || existsb (fun s => Str.includes (DarkPatternScan.pattern_type s) "SNEAK"
                            || Str.includes (DarkPatternScan.pattern_type s) "HIDDEN_FEE") l
    then Compromised
    else if 0 <? fold_left (fun a s => a + severity_score (DarkPatternScan.severity s)) l 0
         then Caution else Safe.
Proof.
  unfold calculateSafetyMetrics.
  destruct (_ || _ || _); [reflexivity |].
  destruct (0 <? _); reflexivity.
Qed.

Lemma metrics_count (l : list DarkPatternScan.t) :
  ViewportMeta.threat_count (calculateSafetyMetrics l) = length l.
Proof.
  unfold calculateSafetyMetrics. destruct (_ || _ || _); [reflexivity |].
  destruct (0 <? _); reflexivity.
Qed.

(** X1: [calculateSafetyMetrics] counts every finding it is given; its
    status is Safe for the empty list and for no other list; and findings
    added to a list never lower the status. *)
Theorem metrics_never_improve_with_findings (l more : list DarkPatternScan.t) :
  ViewportMeta.threat_count (calculateSafetyMetrics l) = length l
  /\ (ViewportMeta.status (calculateSafetyMetrics l) = Safe <-> l = [])
  /\ status_rank (ViewportMeta.status (calculateSafetyMetrics l))
     <= status_rank (ViewportMeta.status (calculateSafetyMetrics (l ++ more))).
Proof.
  split; [apply metrics_count |].
  split.
  { rewrite metrics_status. split.
    - intros Hsafe. destruct l as [| x r]; [reflexivity |].
      pose proof (score_at_least_length (x :: r)) as Hlen. simpl length in Hlen.
      destruct (_ || _ || _); [discriminate |].
      destruct (Nat.ltb_spec 0
                  (fold_left (fun a s => a + severity_score (DarkPatternScan.severity s))
                             (x :: r) 0)); [discriminate | lia].
    - intros ->. reflexivity. }
  rewrite !metrics_status, !existsb_app, fold_left_app.
  rewrite (score_fold more).
  set (sl := fold_left _ l 0).
  set (sm := fold_left (fun a s => a + severity_score (DarkPatternScan.severity s)) more 0).
  destruct (existsb _ l); [rewrite !orb_true_r; simpl; lia |].
  destruct (existsb _ l); [rewrite !orb_true_r; simpl; lia |].
  cbn [orb]. rewrite !orb_false_r.
  destruct (Nat.leb_spec 15 sl) as [Hhi | Hlo].
  - destruct (Nat.leb_spec 15 (sl + sm)); [simpl; lia | lia].
  - destruct (Nat.ltb_spec 0 sl) as [Hpos | Hzero].
    + match goal with
      | |- context [if ?c then Compromised else _] => destruct c; [simpl; lia |]
      end.
      destruct (Nat.ltb_spec 0 (sl + sm)); [simpl; lia | lia].
    + simpl status_rank at 1. lia.
Qed.

End Metrics.

(** ** Catalog reconciliation: matching and what a merge keeps *)

Section Catalog.

Import Service Scenario.
Local Open Scope string_scope.
Local Open Scope list_scope.
Local Open Scope nat_scope.

Context {host : Host}.

Lemma findIndex_Some {A : Type} (p : A -> bool) (l : list A) (i : nat) :
  findIndex p l = Some i ->
  exists x, l !! i = Some x /\ p x = true
            /\ forall j y, j < i -> l !! j = Some y -> p y = false.
Proof.
  revert i. induction l as [| x r IH]; intros i Hfind; simpl in Hfind; [discriminate |].
  destruct (p x) eqn:Epx.
  - injection Hfind as <-. exists x. repeat split; [exact Epx |]. intros j y Hj. lia.
  - destruct (findIndex p r) as [k |]; simpl in Hfind; [| discriminate].
    injection Hfind as <-. destruct (IH k eq_refl) as (y & Hy & Hpy & Hbefore).
    exists y. repeat split; [exact Hy | exact Hpy |].
    intros j z Hj Hz. destruct j as [| j]; simpl in Hz.
    + injection Hz as <-. exact Epx.
    + apply (Hbefore j z); [lia | exact Hz].
Qed.

Lemma findIndex_None {A : Type} (p : A -> bool) (l : list A) :
  findIndex p l = None <-> forall x, In x l -> p x = false.
Proof.
  induction l as [| x r IH]; simpl.
  - split; [intros _ y [] | reflexivity].
  - destruct (p x) eqn:Epx.
    + split; [discriminate |]. intros Hall. rewrite (Hall x (or_introl eq_refl)) in Epx.
      discriminate.
    + destruct (findIndex p r) as [k |]; simpl.
      * split; [discriminate |]. intros Hall.
        assert (Hnone : Some k = None)
          by (apply IH; intros y Hy; apply Hall; right; exact Hy).
        discriminate.
      * split; [| reflexivity]. intros _ y [<- | Hy]; [exact Epx |].
        apply (proj1 IH eq_refl). exact Hy.
Qed.

(** X2: what counts as the same anchor.  [existingIdx] returns the first
    anchor of the catalog that has the observation's id; only when no anchor
    has that id, and the observation has a name, the first anchor whose name
    equals the observation's name up to case and surrounding white space;
    and nothing in every other case. *)
Theorem anchors_match_by_id_then_name (cat : list CatalogAnchor.t) (obs : CatalogAnchor.t) :
  let same_id a := CatalogAnchor.id a = CatalogAnchor.id obs in
  let same_name a :=
    normal_name (CatalogAnchor.name a) = normal_name (CatalogAnchor.name obs) in
  match existingIdx cat obs with
  | Some i =>
      exists a, cat !! i = Some a
        /\ ((same_id a /\ forall j b, j < i -> cat !! j = Some b -> ~ same_id b)
            \/ ((forall b, In b cat -> ~ same_id b)
                /\ CatalogAnchor.name obs <> ""
                /\ same_name a
                /\ forall j b, j < i -> cat !! j = Some b -> ~ same_name b))
  | None =>
      (forall b, In b cat -> ~ same_id b)
      /\ (CatalogAnchor.name obs = "" \/ forall b, In b cat -> ~ same_name b)
  end.
Proof.
  intros same_id same_name. unfold existingIdx.
  destruct (findIndex (fun a => String.eqb (CatalogAnchor.id a) (CatalogAnchor.id obs)) cat)
    as [i |] eqn:Eid.
  - destruct (findIndex_Some _ _ _ Eid) as (a & Ha & Hpa & Hbefore).
    exists a. split; [exact Ha |]. left. split.
    + apply String.eqb_eq. exact Hpa.
    + intros j b Hj Hb Hsame. apply String.eqb_eq in Hsame.
      rewrite (Hbefore j b Hj Hb) in Hsame. discriminate.
  - assert (Hnoid : forall b, In b cat -> ~ same_id b).
    { intros b Hb Hsame. apply String.eqb_eq in Hsame.
      rewrite (proj1 (findIndex_None _ _) Eid b Hb) in Hsame. discriminate. }
    destruct (CatalogAnchor.name obs) as [| c rest] eqn:Ename; cbn [Str.is_empty negb].
    + split; [exact Hnoid | left; reflexivity].
    + clear Eid.
      match goal with
      | |- context [findIndex ?f cat] => destruct (findIndex f cat) as [i |] eqn:Ename_idx
      end.
      * destruct (findIndex_Some _ _ _ Ename_idx) as (a & Ha & Hpa & Hbefore).
        exists a. split; [exact Ha |]. right.
        split; [exact Hnoid |]. split; [discriminate |]. split.
        -- apply String.eqb_eq. exact Hpa.
        -- intros j b Hj Hb Hsame. apply String.eqb_eq in Hsame.
           rewrite (Hbefore j b Hj Hb) in Hsame. discriminate.
      * split; [exact Hnoid |]. right. intros b Hb Hsame. apply String.eqb_eq in Hsame.
        rewrite (proj1 (findIndex_None _ _) Ename_idx b Hb) in Hsame. discriminate.
Qed.

Lemma existingIdx_None (cat : list CatalogAnchor.t) (obs : CatalogAnchor.t) :
  (forall b, In b cat -> CatalogAnchor.id b <> CatalogAnchor.id obs) ->
  (CatalogAnchor.name obs = ""
   \/ forall b, In b cat ->
        normal_name (CatalogAnchor.name b) <> normal_name (CatalogAnchor.name obs)) ->
  existingIdx cat obs = None.
Proof.
  intros Hid Hname. unfold existingIdx.
  assert (Eid : findIndex (fun a => String.eqb (CatalogAnchor.id a) (CatalogAnchor.id obs)) cat
                = None).
  { apply findIndex_None. intros b Hb. apply String.eqb_neq. apply Hid. exact Hb. }
  rewrite Eid. destruct Hname as [-> | Hname]; [reflexivity |].
  destruct (negb _); [| reflexivity].
  apply findIndex_None. intros b Hb. apply String.eqb_neq. apply Hname. exact Hb.
Qed.

(** X3: an observation that matches no anchor of the catalog, by id or by
    name, is appended at the end of the catalog, which is otherwise left as it
    is; the new anchor has the observation's id, takes the observation's
    price as its baseline, and is not flagged, whatever flag the observation
    came with. *)
Theorem first_sighting_is_unflagged (cat : list CatalogAnchor.t) (obs : CatalogAnchor.t) :
  (forall b, In b cat -> CatalogAnchor.id b <> CatalogAnchor.id obs) ->
  (CatalogAnchor.name obs = ""
   \/ forall b, In b cat ->
        normal_name (CatalogAnchor.name b) <> normal_name (CatalogAnchor.name obs)) ->
  exists a,
    mergeAnchor cat obs = cat ++ [a]
    /\ CatalogAnchor.is_violation a = false
    /\ CatalogAnchor.id a = CatalogAnchor.id obs
    /\ CatalogAnchor.numeric_price a = CatalogAnchor.numeric_price obs
    /\ CatalogAnchor.original_numeric_price a = CatalogAnchor.numeric_price obs
    /\ CatalogAnchor.original_price a = Some (CatalogAnchor.price obs).
Proof.
  intros Hid Hname. exists (firstSighting obs).
  unfold mergeAnchor. rewrite (existingIdx_None cat obs Hid Hname).
  repeat split.
Qed.

Lemma kept_refl (a : CatalogAnchor.t) : kept a a.
Proof. unfold kept. auto. Qed.

Lemma kept_trans (a b c : CatalogAnchor.t) : kept a b -> kept b c -> kept a c.
Proof.
  intros (Hid1 & Hn1 & Hp1) (Hid2 & Hn2 & Hp2). unfold kept.
  split; [congruence |]. split.
  - intros x Hx. apply Hn2, Hn1, Hx.
  - intros p Hp Hne. apply Hp2; [apply Hp1; assumption | exact Hne].
Qed.

Lemma kept_mergedWith (existing obs : CatalogAnchor.t) : kept existing (mergedWith existing obs).
Proof.
  unfold kept. simpl. split; [reflexivity |]. split.
  - intros b Hb. unfold origNumeric. rewrite Hb. reflexivity.
  - intros p Hp Hne. rewrite Hp. destruct p; [contradiction | reflexivity].
Qed.

Lemma keeps_catalog_refl (cat : list CatalogAnchor.t) : keeps_catalog cat cat.
Proof. intros i a Ha. exists a. split; [exact Ha | apply kept_refl]. Qed.

Lemma keeps_catalog_trans (c1 c2 c3 : list CatalogAnchor.t) :
  keeps_catalog c1 c2 -> keeps_catalog c2 c3 -> keeps_catalog c1 c3.
Proof.
  intros H12 H23 i a Ha.
  destruct (H12 i a Ha) as (b & Hb & Hab).
  destruct (H23 i b Hb) as (c & Hc & Hbc).
  exists c. split; [exact Hc | eapply kept_trans; eassumption].
Qed.

Lemma mergeAnchor_keeps (cat : list CatalogAnchor.t) (obs : CatalogAnchor.t) :
  keeps_catalog cat (mergeAnchor cat obs)
  /\ length cat <= length (mergeAnchor cat obs) <= S (length cat).
Proof.
  unfold mergeAnchor.
  destruct (existingIdx cat obs) as [k |] eqn:Eidx.
  - pose proof (existingIdx_lt cat obs k Eidx) as Hlt.
    destruct (lookup_lt_is_Some_2 cat k Hlt) as [existing Hex]. rewrite Hex.
    split; [| rewrite length_insert; lia].
    intros i a Ha. destruct (Nat.eq_dec k i) as [-> | Hne].
    + exists (mergedWith existing obs). rewrite list_lookup_insert_eq by exact Hlt.
      split; [reflexivity |].
      assert (a = existing) by congruence. subst a. apply kept_mergedWith.
    + exists a. rewrite list_lookup_insert_ne by exact Hne.
      split; [exact Ha | apply kept_refl].
  - split; [| rewrite length_app; simpl; lia].
    intros i a Ha. exists a. split; [| apply kept_refl].
    rewrite lookup_app_l; [exact Ha |]. eapply lookup_lt_Some. exact Ha.
Qed.

Lemma mergeAnchors_keeps (previous incoming : list CatalogAnchor.t) :
  keeps_catalog previous (mergeAnchors previous incoming)
  /\ length previous <= length (mergeAnchors previous incoming)
     <= length previous + length incoming.
Proof.
  unfold mergeAnchors. revert previous.
  induction incoming as [| obs more IH]; intros previous; simpl.
  - split; [apply keeps_catalog_refl | lia].
  - destruct (mergeAnchor_keeps previous obs) as (Hk1 & Hl1).
    destruct (IH (mergeAnchor previous obs)) as (Hk2 & Hl2).
    split; [eapply keeps_catalog_trans; eassumption | lia].
Qed.

(** X4: merging a batch of observations into a catalog removes no anchor
    and moves none: every anchor that was in the catalog is still at its
    index, with its id, with its baseline price if it had one, and with its
    baseline price text if it had a non-empty one; the catalog grows by at
    most one anchor per observation. *)
Theorem merge_never_drops_an_anchor
    (previous incoming : list CatalogAnchor.t) (i : nat) (a : CatalogAnchor.t) :
  previous !! i = Some a ->
  (exists a', mergeAnchors previous incoming !! i = Some a' /\ kept a a')
  /\ length previous <= length (mergeAnchors previous incoming)
     <= length previous + length incoming.
Proof.
  intros Ha. destruct (mergeAnchors_keeps previous incoming) as (Hkeep & Hlen).
  split; [apply Hkeep; exact Ha | exact Hlen].
Qed.

End Catalog.

Section CatalogRuns.

Import Service Scenario.
Local Open Scope string_scope.
Local Open Scope list_scope.
Local Open Scope nat_scope.

Lemma first_sighting_is_unflagged_witness :
  exists a,
    mergeAnchor (host := twoTileHost) [firstSighting (sku1 "$10.00" 10 box1)]
      (CatalogAnchor.mk "sku2" "Team plan" "$30.00" (Some (Fin 30)) None None box1 true true)
    = [firstSighting (sku1 "$10.00" 10 box1)] ++ [a]
    /\ CatalogAnchor.is_violation a = false.
Proof.
  destruct (first_sighting_is_unflagged (host := twoTileHost)
              [firstSighting (sku1 "$10.00" 10 box1)]
              (CatalogAnchor.mk "sku2" "Team plan" "$30.00" (Some (Fin 30)) None None
                 box1 true true))
    as (a & Hmerge & Hflag & _).
  - intros b [<- | []]. discriminate.
  - right. intros b [<- | []]. discriminate.
  - exists a. split; assumption.
Defined.

Lemma merge_never_drops_an_anchor_witness :
  exists a',
    mergeAnchors (host := twoTileHost) [firstSighting (sku1 "$10.00" 10 box1)]
                 [sku1 "$12.00" 12 box1; sku1 "$9.00" 9 box1] !! 0
    = Some a'
    /\ CatalogAnchor.original_numeric_price a' = Some (Fin 10).
Proof.
  destruct (merge_never_drops_an_anchor (host := twoTileHost)
              [firstSighting (sku1 "$10.00" 10 box1)]
              [sku1 "$12.00" 12 box1; sku1 "$9.00" 9 box1] 0
              (firstSighting (sku1 "$10.00" 10 box1)) eq_refl)
    as ((a' & Ha' & _ & Hbase & _) & _).
  exists a'. split; [exact Ha' | apply Hbase; reflexivity].
Defined.

End CatalogRuns.

(** ** What the analysis client returns *)

Section Returned.

Import Run Service Analysis Orchestrator Scenario.
Local Open Scope string_scope.
Local Open Scope list_scope.
Local Open Scope nat_scope.

Context {host : Host}.

Lemma clampCoordinates_length (coords : jsval) : 4 <= length (clampCoordinates coords).
Proof.
  unfold clampCoordinates.
  destruct coords as [| | b | n | s | l |]; simpl; try lia.
  destruct (Nat.ltb_spec (length l) 4); [simpl; lia | rewrite length_map; lia].
Qed.

(** A result is either the degraded one or built from a parsed response. *)
Lemma attempts_returned (prev : Signature.t) (remaining : nat) (env : Env) (w w' : World)
    (r : ScanResponse.t) :
  attempts prev remaining env w = (Returned r, w') ->
  r = degraded prev
  \/ exists (raw : list RawScan.t) (ts : Signature.t),
       r = ScanResponse.mk
             (calculateSafetyMetrics (map clampScan raw))
             (map clampScan raw)
             (Signature.mk (Signature.reasoning_path ts) (Signature.security_brief ts)
                (mergeAnchors (Signature.catalog_anchors prev) (Signature.catalog_anchors ts)))
             None.
Proof.
  revert w. induction remaining as [| fewer IH]; intros w;
    destruct (signal_aborted env w) eqn:Elive.
  1, 3: rewrite attempts_step, Elive; discriminate.
  - destruct (attempts_cases prev 0 env w Elive)
      as [(e & -> & _) | [(parsed & ts & ->) | (_ & ->)]]; [discriminate | |].
    + intros Heq. injection Heq as <- _. right. eexists. exists ts. reflexivity.
    + intros Heq. injection Heq as <- _. left. reflexivity.
  - destruct (attempts_cases prev (S fewer) env w Elive)
      as [(e & -> & _) | [(parsed & ts & ->) | (_ & ->)]]; [discriminate | |].
    + intros Heq. injection Heq as <- _. right. eexists. exists ts. reflexivity.
    + apply IH.
Qed.

(** X5: whatever the backend answers, a result that [analyzeUIScreen]
    returns is well formed on the side of the findings: every box has at least
    four components, each an integer of [0, 1000]; the count of the Viewport
    Meta is the number of findings; a result without error carries the
    metrics of its own findings; and a result with an error is the degraded
    one. *)
Theorem returned_findings_are_clamped
    (prev : Signature.t) (env : Env) (w w' : World) (r : ScanResponse.t) :
  analyzeUIScreen prev env w = (Returned r, w') ->
  (forall scan, In scan (ScanResponse.scans r) ->
     4 <= length (DarkPatternScan.coordinates scan)
     /\ forall c, In c (DarkPatternScan.coordinates scan) -> JS.int_in_range 0 1000 c)
  /\ ViewportMeta.threat_count (ScanResponse.viewport_meta r) = length (ScanResponse.scans r)
  /\ (ScanResponse.error r = None ->
      ScanResponse.viewport_meta r = calculateSafetyMetrics (ScanResponse.scans r))
  /\ (ScanResponse.error r <> None -> r = degraded prev).
Proof.
  intros Hret. apply attempts_returned in Hret.
  destruct Hret as [-> | (raw & ts & ->)]; simpl.
  - split; [intros scan [] |]. split; [reflexivity |]. split; [discriminate | reflexivity].
  - split.
    { intros scan Hin. apply in_map_iff in Hin. destruct Hin as (s & <- & _). simpl.
      split; [apply clampCoordinates_length | apply clampCoordinates_in_range]. }
    split; [apply metrics_count |].
    split; [reflexivity | intros Hne; contradiction].
Qed.

Lemma analysis_catalog (prev : Signature.t) (env : Env) (w w' : World) (r : ScanResponse.t) :
  analyzeUIScreen prev env w = (Returned r, w') ->
  keeps_catalog (Signature.catalog_anchors prev)
                (Signature.catalog_anchors (ScanResponse.thought_signature r))
  /\ length (Signature.catalog_anchors prev)
     <= length (Signature.catalog_anchors (ScanResponse.thought_signature r))
  /\ (ScanResponse.error r <> None ->
      Signature.catalog_anchors (ScanResponse.thought_signature r)
      = Signature.catalog_anchors prev).
Proof.
  intros Hret. apply attempts_returned in Hret.
  destruct Hret as [-> | (raw & ts & ->)]; simpl.
  - split; [apply keeps_catalog_refl |]. split; [lia | reflexivity].
  - destruct (mergeAnchors_keeps (Signature.catalog_anchors prev) (Signature.catalog_anchors ts))
      as (Hkeep & Hlen).
    split; [exact Hkeep |]. split; [lia | intros Hne; contradiction].
Qed.

(** X6: the catalog that [analyzeUIScreen] returns, after any number of
    retries and whether the result is a success or the degraded one, still
    holds every anchor of the signature it was given, each at its index with
    its id and its baseline; the degraded result returns that catalog
    unchanged. *)
Theorem analysis_never_drops_an_anchor
    (prev : Signature.t) (env : Env) (w w' : World) (r : ScanResponse.t)
    (i : nat) (a : CatalogAnchor.t) :
  analyzeUIScreen prev env w = (Returned r, w') ->
  Signature.catalog_anchors prev !! i = Some a ->
  (exists a', Signature.catalog_anchors (ScanResponse.thought_signature r) !! i = Some a'
              /\ kept a a')
  /\ (ScanResponse.error r <> None ->
      Signature.catalog_anchors (ScanResponse.thought_signature r)
      = Signature.catalog_anchors prev).
Proof.
  intros Hret Ha. destruct (analysis_catalog prev env w w' r Hret) as (Hkeep & _ & Hsame).
  split; [apply Hkeep; exact Ha | exact Hsame].
Qed.

(** The request counter moves by at most one per attempt. *)
Lemma attempts_calls (prev : Signature.t) (remaining : nat) (env : Env) (w : World) :
  calls w <= calls (snd (attempts prev remaining env w)) <= calls w + S remaining.
Proof.
  revert w. induction remaining as [| fewer IH]; intros w;
    destruct (signal_aborted env w) eqn:Elive.
  1, 3: rewrite attempts_step, Elive; simpl; lia.
  - destruct (attempts_cases prev 0 env w Elive)
      as [(e & -> & _) | [(parsed & ts & ->) | (_ & ->)]]; simpl; lia.
  - destruct (attempts_cases prev (S fewer) env w Elive)
      as [(e & -> & _) | [(parsed & ts & ->) | (_ & ->)]]; simpl; try lia.
    specialize (IH (after_wait (Z.of_nat (S (maxRetries - S fewer)) * 5000) (after_call env w))).
    simpl calls in IH. lia.
Qed.

Lemma analysis_ui (prev : Signature.t) (env : Env) (w : World) :
  ui (snd (analyzeUIScreen prev env w)) = ui w.
Proof. apply (attempts_along_schedule prev maxRetries env w). Qed.

End Returned.

(** ** The tile loop: what accumulates and what is shown *)

Section Loop.

Import Run Service Analysis Orchestrator Scenario.
Local Open Scope string_scope.
Local Open Scope list_scope.
Local Open Scope nat_scope.

Context {host : Host}.

Lemma foldStatus_rank (meta : ViewportMeta.t) (st : Loop) :
  status_rank (fst (foldStatus meta st))
  = Nat.max (status_rank (finalStatus st)) (status_rank (ViewportMeta.status meta)).
Proof.
  unfold foldStatus.
  destruct (ViewportMeta.status meta), (finalStatus st); reflexivity.
Qed.

Lemma tileLoop_nil (H : Z) (st : Loop) (env : Env) (w : World) :
  tileLoop H [] st env w = (Returned st, w).
Proof. reflexivity. Qed.

Lemma emit_world (st : Loop) (env : Env) (w : World) :
  final (emit st) env w
  = mkWorld (now w) (calls w) (trace w)
      (mkUI (currentTotalScans st)
            (Some (ViewportMeta.mk (length (currentTotalScans st)) (finalStatus st)
                                   (finalAdvice st)))
            (loopSignature st) (loopHistory st) (error (ui w)) (loading (ui w))
            (hasCompletedInitialScan (ui w)) (persisted (ui w))).
Proof. reflexivity. Qed.

Lemma cooldown_world (i : Z) (w : World) :
  ui (if (0 <? i)%Z then after_wait TILE_COOLDOWN w else w) = ui w
  /\ calls (if (0 <? i)%Z then after_wait TILE_COOLDOWN w else w) = calls w.
Proof. destruct (0 <? i)%Z; split; reflexivity. Qed.

Lemma tileLoop_accumulates (H : Z) (todo : list Z) (st st' : Loop) (env : Env) (w w' : World) :
  tileLoop H todo st env w = (Returned st', w') ->
  (exists more, currentTotalScans st' = currentTotalScans st ++ more)
  /\ (exists more, loopHistory st' = loopHistory st ++ more)
  /\ keeps_catalog (Signature.catalog_anchors (loopSignature st))
                   (Signature.catalog_anchors (loopSignature st'))
  /\ status_rank (finalStatus st) <= status_rank (finalStatus st').
Proof.
  revert st w. induction todo as [| i later IH]; intros st w.
  - rewrite tileLoop_nil. intros Heq. injection Heq as <- _.
    split; [exists []; rewrite app_nil_r; reflexivity |].
    split; [exists []; rewrite app_nil_r; reflexivity |].
    split; [apply keeps_catalog_refl | lia].
  - rewrite tileLoop_step. destruct (signal_aborted env w); [discriminate |].
    destruct (analyzeUIScreen (loopSignature st) env _) as [[result | e] w1] eqn:Eres;
      [| discriminate].
    destruct (negb (Str.is_empty (text_or (ScanResponse.error result) ""))).
    + intros Heq. injection Heq as <- _.
      split; [exists []; rewrite app_nil_r; reflexivity |].
      split; [exists []; rewrite app_nil_r; reflexivity |].
      split; [apply keeps_catalog_refl | lia].
    + cbv zeta. intros Hrest.
      destruct (IH _ _ Hrest) as ((m1 & Hm1) & (m2 & Hm2) & Hkeep & Hrank).
      destruct (analysis_catalog _ _ _ _ _ Eres) as (Hkeep0 & _).
      split; [eexists; rewrite Hm1; simpl; rewrite <- app_assoc; reflexivity |].
      split; [eexists; rewrite Hm2; simpl; rewrite <- app_assoc; reflexivity |].
      split; [eapply keeps_catalog_trans; [exact Hkeep0 | exact Hkeep] |].
      simpl finalStatus in Hrank. rewrite foldStatus_rank in Hrank. lia.
Qed.

(** X7: across the tiles of a scan, the loop only accumulates: the findings
    and the history it ends with extend the ones it started with, the status
    it ends with is no better than the one it started with, and the catalog
    it ends with still holds every anchor it started with, at its index, with
    its id and baseline. *)
Theorem tile_loop_only_accumulates
    (H : Z) (todo : list Z) (st st' : Loop) (env : Env) (w w' : World) :
  tileLoop H todo st env w = (Returned st', w') ->
  (exists more, currentTotalScans st' = currentTotalScans st ++ more)
  /\ (exists more, loopHistory st' = loopHistory st ++ more)
  /\ (forall i a, Signature.catalog_anchors (loopSignature st) !! i = Some a ->
        exists a', Signature.catalog_anchors (loopSignature st') !! i = Some a' /\ kept a a')
  /\ status_rank (finalStatus st) <= status_rank (finalStatus st').
Proof.
  intros Hrun. destruct (tileLoop_accumulates H todo st st' env w w' Hrun)
    as (Hscans & Hhist & Hkeep & Hrank).
  repeat split; try assumption.
Qed.




Lemma tileLoop_calls (H : Z) (todo : list Z) (st : Loop) (env : Env) (w : World) :
  calls w <= calls (snd (tileLoop H todo st env w)) <= calls w + 3 * length todo.
Proof.
  revert st w. induction todo as [| i later IH]; intros st w.
  - rewrite tileLoop_nil. simpl. lia.
  - rewrite tileLoop_step. destruct (signal_aborted env w); [simpl; lia |].
    pose proof (attempts_calls (loopSignature st) maxRetries env
                  (if (0 <? i)%Z then after_wait TILE_COOLDOWN w else w)) as Hcalls.
    fold (analyzeUIScreen (loopSignature st)) in Hcalls.
    destruct (cooldown_world i w) as (_ & Hcool). rewrite Hcool in Hcalls.
    change (S maxRetries) with 3 in Hcalls.
    destruct (analyzeUIScreen (loopSignature st) env _) as [[result | e] w1]; simpl in Hcalls.
    + destruct (negb (Str.is_empty (text_or (ScanResponse.error result) ""))).
      * simpl snd. change (calls (final (setError (ScanResponse.error result)) env w1))
          with (calls w1). simpl length. lia.
      * cbv zeta.
        set (st1 := absorb result (currentTileHeight H i) (offsetY i) H st).
        specialize (IH st1 (final (emit st1) env w1)).
        change (calls (final (emit st1) env w1)) with (calls w1) in IH.
        simpl length. lia.
    + simpl snd. simpl length. lia.
Qed.

(** The loop leaves the error shown as it is when it throws. *)
Lemma tileLoop_threw_error (H : Z) (todo : list Z) (st : Loop) (env : Env) (w w' : World)
    (e : Exn) :
  tileLoop H todo st env w = (Threw e, w') ->
  error (ui w') = error (ui w)
  /\ hasCompletedInitialScan (ui w') = hasCompletedInitialScan (ui w)
  /\ persisted (ui w') = persisted (ui w)
  /\ (e = abortSentinel \/ String.eqb (exn_name e) "AbortError" = true \/ e = typeError).
Proof.
  revert st w. induction todo as [| i later IH]; intros st w.
  - rewrite tileLoop_nil. discriminate.
  - rewrite tileLoop_step. destruct (signal_aborted env w).
    { intros Heq. injection Heq as <- <-. auto. }
    pose proof (analysis_ui (loopSignature st) env
                  (if (0 <? i)%Z then after_wait TILE_COOLDOWN w else w)) as Hui.
    destruct (cooldown_world i w) as (Hcool & _). rewrite Hcool in Hui.
    pose proof (attempts_along_schedule (loopSignature st) maxRetries env
                  (if (0 <? i)%Z then after_wait TILE_COOLDOWN w else w)) as (_ & _ & Hthrow).
    fold (analyzeUIScreen (loopSignature st)) in Hthrow.
    destruct (analyzeUIScreen (loopSignature st) env _) as [[result | e1] w1]; simpl in Hui.
    + destruct (negb (Str.is_empty (text_or (ScanResponse.error result) ""))); [discriminate |].
      cbv zeta. intros Hrest. apply IH in Hrest. rewrite emit_world in Hrest. simpl in Hrest.
      rewrite Hui in Hrest. exact Hrest.
    + intros Heq. injection Heq as <- <-. rewrite Hui.
      split; [reflexivity |]. split; [reflexivity |]. split; [reflexivity |].
      apply Hthrow. reflexivity.
Qed.

(** Persisting never throws and touches nothing but the storage: the
    signature is stored unless its write raises, and the history is stored
    when neither write raises. *)
Lemma persistScanState_run (sig : Signature.t) (history : list HistoryItem.t)
    (env : Env) (w : World) :
  persistScanState sig history env w
  = (Returned tt,
     mkWorld (now w) (calls w) (trace w)
       (mkUI (scans (ui w)) (viewportMeta (ui w)) (lastSignature (ui w)) (auditHistory (ui w))
             (error (ui w)) (loading (ui w)) (hasCompletedInitialScan (ui w))
             (if storageFull env SIGNATURE then persisted (ui w)
              else if storageFull env HISTORY then (Some sig, snd (persisted (ui w)))
                   else (Some sig, Some (drop (length history - 100) history))))).
Proof.
  unfold persistScanState, try_catch, bind, setItem, setPersisted, setUI, ret.
  destruct w as [t n tr u]. destruct u. simpl.
  destruct (storageFull env SIGNATURE); [reflexivity |].
  simpl. destruct (storageFull env HISTORY); reflexivity.
Qed.

(** X9: [handleScan] never throws and always ends with the loading flag
    down, whatever the backend does and whenever the run is cancelled; it
    sends at most three requests for each tile of the image; and when the tile
    loop is thrown out, the run is not marked as completed, nothing is
    persisted, and the error shown is none when the exception carries the
    message of a cancellation, and the fixed failure message otherwise. *)
Theorem scan_always_ends (H : Z) (env : Env) (w : World) :
  let started :=
    mkWorld (now w) (calls w) (trace w)
      (mkUI [] (viewportMeta (ui w)) (lastSignature (ui w)) (auditHistory (ui w)) None true
            (hasCompletedInitialScan (ui w)) (persisted (ui w))) in
  exists w',
    handleScan H env w = (Returned tt, w')
    /\ loading (ui w') = false
    /\ calls w <= calls w' <= calls w + 3 * Z.to_nat (numTiles H)
    /\ (forall e w1,
          tileLoop H (tileIndices H) (initialLoop (ui w)) env started = (Threw e, w1) ->
          hasCompletedInitialScan (ui w') = hasCompletedInitialScan (ui w)
          /\ persisted (ui w') = persisted (ui w)
          /\ error (ui w')
             = if String.eqb (exn_message e) "AbortError" then None
               else Some "Audit Failure. System Overload.").
Proof.
  intros started.
  pose proof (tileLoop_calls H (tileIndices H) (initialLoop (ui w)) env started) as Hcalls.
  assert (Hlen : length (tileIndices H) = Z.to_nat (numTiles H))
    by (unfold tileIndices; rewrite length_map, length_seq; reflexivity).
  rewrite Hlen in Hcalls. simpl calls in Hcalls at 1 3.
  unfold handleScan, bind, try_catch, setLoading, setError, setScans, setUI.
  match goal with
  | |- context [tileLoop H (tileIndices H) (initialLoop (ui w)) env ?x] =>
      change x with started
  end.
  destruct (tileLoop H (tileIndices H) (initialLoop (ui w)) env started)
    as [[st' | e] w1] eqn:Erun; simpl in Hcalls.
  - rewrite persistScanState_run. unfold setHasCompletedInitialScan, setUI.
    eexists. split; [reflexivity |]. simpl. split; [reflexivity |].
    split; [lia | intros e w2 Heq; discriminate].
  - destruct (tileLoop_threw_error _ _ _ _ _ _ _ Erun) as (Herr & Hdone & Hpers & _).
    simpl in Herr, Hdone, Hpers.
    destruct (String.eqb (exn_message e) "AbortError") eqn:Emsg.
    + eexists. split; [reflexivity |]. simpl. split; [reflexivity |].
      split; [lia |]. intros e' w2 Heq. injection Heq as <- <-.
      rewrite Emsg. auto.
    + eexists. split; [reflexivity |]. simpl. split; [reflexivity |].
      split; [lia |]. intros e' w2 Heq. injection Heq as <- <-.
      rewrite Emsg. auto.
Qed.

End Loop.

Section LoopRuns.

Import Run Service Analysis Orchestrator Scenario.
Local Open Scope string_scope.
Local Open Scope list_scope.

Lemma returned_findings_are_clamped_witness :
  exists r w',
    analyzeUIScreen (host := wideHost) Signature.empty wideEnv freshWorld = (Returned r, w')
    /\ ViewportMeta.threat_count (ScanResponse.viewport_meta r) = length (ScanResponse.scans r)
    /\ ScanResponse.viewport_meta r = calculateSafetyMetrics (ScanResponse.scans r).
Proof.
  eexists. eexists. split; [vm_compute; reflexivity |].
  match goal with
  | |- ViewportMeta.threat_count (ScanResponse.viewport_meta ?r) = _ /\ _ =>
      destruct (returned_findings_are_clamped (host := wideHost)
                  Signature.empty wideEnv freshWorld
                  (mkWorld 1000 1 [EvCall 0] idleUI) r)
        as (_ & Hcount & Hmeta & _)
  end.
  - vm_compute. reflexivity.
  - split; [exact Hcount | apply Hmeta; reflexivity].
Defined.

Lemma analysis_never_drops_an_anchor_witness :
  exists r w' a',
    analyzeUIScreen (host := twoTileHost)
      (Signature.mk None None [firstSighting (sku1 "$9.00" 9 box1)])
      (twoTileEnv None 1000) freshWorld = (Returned r, w')
    /\ Signature.catalog_anchors (ScanResponse.thought_signature r) !! 0%nat = Some a'
    /\ CatalogAnchor.original_numeric_price a' = Some (Fin 9).
Proof.
  eexists. eexists.
  match goal with
  | |- exists a', ?lhs = (Returned ?r, ?w') /\ _ =>
      assert (Hrun : lhs = (Returned r, w')) by (vm_compute; reflexivity);
      destruct (analysis_never_drops_an_anchor (host := twoTileHost)
                  (Signature.mk None None [firstSighting (sku1 "$9.00" 9 box1)])
                  (twoTileEnv None 1000) freshWorld w' r 0
                  (firstSighting (sku1 "$9.00" 9 box1)) Hrun eq_refl)
        as ((a' & Ha' & _ & Hbase & _) & _)
  end.
  exists a'. split; [exact Hrun |]. split; [exact Ha' | apply Hbase; reflexivity].
Defined.

Lemma tile_loop_only_accumulates_witness :
  exists st' w' more,
    tileLoop (host := twoTileHost) 2000 [0; 1]%Z midLoop (twoTileEnv None 1000) midWorld
    = (Returned st', w')
    /\ currentTotalScans st' = [earlierFinding] ++ more.
Proof.
  eexists. eexists.
  match goal with
  | |- exists more, ?lhs = (Returned ?st', ?w') /\ _ =>
      assert (Hrun : lhs = (Returned st', w')) by (vm_compute; reflexivity);
      destruct (tile_loop_only_accumulates (host := twoTileHost) 2000 [0; 1]%Z midLoop st'
                  (twoTileEnv None 1000) midWorld w' Hrun)
        as ((more & Hmore) & _)
  end.
  exists more. split; [exact Hrun | exact Hmore].
Defined.

Lemma scan_always_ends_witness :
  exists w',
    handleScan (host := twoTileHost) 2000 (twoTileEnv (Some 1500%Z) 1000) freshWorld
    = (Returned tt, w')
    /\ loading (ui w') = false
    /\ error (ui w') = None.
Proof.
  destruct (scan_always_ends (host := twoTileHost) 2000 (twoTileEnv (Some 1500%Z) 1000)
              freshWorld) as (w' & Hrun & Hload & _ & Hthrown).
  exists w'. split; [exact Hrun |]. split; [exact Hload |].
  destruct (Hthrown abortSentinel
              (mkWorld 6000 1 [EvCall 0; EvWait 5000]
                 (mkUI [] (Some (ViewportMeta.mk 0 Safe
                                   "Interface appears transparent. Safe to proceed."))
                       (Signature.mk (Some "trace") (Some "brief")
                          [firstSighting (sku1 "$10.00" 10 box1)])
                       [] None true false (None, None))))
    as (_ & _ & Herr).
  - vm_compute. reflexivity.
  - exact Herr.
Defined.

End LoopRuns.

(** ** Clamping, once more *)

Section ClampAgain.

Import Service Scenario.
Local Open Scope list_scope.
Local Open Scope Z_scope.

Context {host : Host}.

Lemma Qfloor_half (z : Z) : Qfloor (inject_Z z + (1 # 2)) = z.
Proof.
  unfold Qfloor, Qplus, inject_Z. simpl.
  symmetry. apply (Z.div_unique (z * 2 + 1) 2 z 1); lia.
Qed.

Lemma clampComponent_fixed (z : Z) :
  0 <= z <= 1000 -> clampComponent (JNum (JS.ofZ z)) = JS.ofZ z.
Proof.
  intros Hz. unfold clampComponent, Number, JS.ofZ, JS.or_else, JS.truthy.
  destruct (negb (JS.Qzero (inject_Z z))) eqn:Ezero.
  - unfold JS.round. rewrite Qfloor_half. unfold JS.min, JS.max.
    destruct (Qle_bool 1000 (inject_Z z)) eqn:Ehi.
    + apply Qle_bool_iff in Ehi. unfold Qle in Ehi. simpl in Ehi.
      assert (z = 1000) by lia. subst z. reflexivity.
    + destruct (Qle_bool 0 (inject_Z z)) eqn:Elo; [reflexivity |].
      apply not_true_iff_false in Elo. rewrite Qle_bool_iff in Elo.
      unfold Qle in Elo. simpl in Elo. lia.
  - apply negb_false_iff in Ezero. unfold JS.Qzero in Ezero. apply Qeq_bool_iff in Ezero.
    unfold Qeq in Ezero. simpl in Ezero. assert (z = 0) by lia. subst z. reflexivity.
Qed.

(** X10: [clampCoordinates] is total: for any value whatever (not an
    array, too short, holding text or nothing) it returns at least four
    components, each an integer of [0, 1000]; a value that is not an array of
    at least four elements gives four zeros; an array of at least four
    integers of [0, 1000] is returned as it is, and extra elements beyond the
    fourth are kept, not cut. *)
Theorem clamp_is_total_and_fixes_valid_boxes (coords : jsval) :
  (4 <= length (clampCoordinates coords))%nat
  /\ (forall c, In c (clampCoordinates coords) -> JS.int_in_range 0 1000 c)
  /\ ((forall l, coords = JArr l -> (length l < 4)%nat) ->
      clampCoordinates coords = [Fin 0; Fin 0; Fin 0; Fin 0])
  /\ (forall zs : list Z,
        coords = JArr (map (fun z => JNum (JS.ofZ z)) zs) ->
        (4 <= length zs)%nat ->
        (forall z, In z zs -> 0 <= z <= 1000) ->
        clampCoordinates coords = map JS.ofZ zs).
Proof.
  split; [apply clampCoordinates_length |].
  split; [apply clampCoordinates_in_range |].
  split.
  - intros Hshort. unfold clampCoordinates.
    destruct coords as [| | b | n | s | l |]; try reflexivity.
    specialize (Hshort l eq_refl).
    destruct (Nat.ltb_spec (length l) 4); [reflexivity | lia].
  - intros zs -> Hlen Hrange. unfold clampCoordinates. rewrite length_map.
    destruct (Nat.ltb_spec (length zs) 4); [lia |].
    clear Hlen H. induction zs as [| z r IH]; [reflexivity |].
    simpl. rewrite clampComponent_fixed by (apply Hrange; left; reflexivity).
    f_equal. apply IH. intros y Hy. apply Hrange. right. exact Hy.
Qed.

End ClampAgain.

Section ClampRuns.

Import Service Scenario.
Local Open Scope list_scope.
Local Open Scope Z_scope.

Lemma clamp_is_total_and_fixes_valid_boxes_witness :
  clampCoordinates (host := wideHost) (JArr [JNum (Fin 1); JNum (Fin 2); JNum (Fin 3)])
  = [Fin 0; Fin 0; Fin 0; Fin 0]
  /\ clampCoordinates (host := wideHost)
       (JArr (map (fun z => JNum (JS.ofZ z)) [0; 250; 1000; 500; 7]))
     = map JS.ofZ [0; 250; 1000; 500; 7].
Proof.
  split.
  - apply (clamp_is_total_and_fixes_valid_boxes (host := wideHost)).
    intros l Heq. injection Heq as <-. simpl. lia.
  - apply (clamp_is_total_and_fixes_valid_boxes (host := wideHost)
             (JArr (map (fun z => JNum (JS.ofZ z)) [0; 250; 1000; 500; 7]))).
    + reflexivity.
    + simpl. lia.
    + intros z Hz. simpl in Hz. intuition lia.
Defined.

End ClampRuns.

(** ** Stripping and recovery: what reaches [JSON.parse] *)

Section Stripping.

Import Str Service Scenario.
Local Open Scope string_scope.

Lemma indexOf_count_zero (c : ascii) (s : string) : count c s = 0%nat -> indexOf c s = None.
Proof.
  induction s as [| d r IH]; simpl; [reflexivity |].
  destruct (Ascii.eqb c d); [discriminate |]. simpl. intros Hc. rewrite (IH Hc). reflexivity.
Qed.

Lemma lastIndexOf_count_zero (c : ascii) (s : string) :
  count c s = 0%nat -> lastIndexOf c s = None.
Proof.
  induction s as [| d r IH]; simpl; [reflexivity |].
  destruct (Ascii.eqb c d); [discriminate |]. simpl. intros Hc. rewrite (IH Hc). reflexivity.
Qed.

(** X11: [stripMarkdown] returns a part of the text it is given, and a
    second application changes nothing; a text without an open brace, or
    without a close brace, is returned as it is. *)
Theorem stripMarkdown_cuts_once (text : string) :
  stripMarkdown (stripMarkdown text) = stripMarkdown text
  /\ (exists pre post, text = pre ++ stripMarkdown text ++ post)
  /\ (count "{" text = 0%nat \/ count "}" text = 0%nat -> stripMarkdown text = text).
Proof.
  assert (Hwhole : exists pre post, text = pre ++ text ++ post).
  { exists "", "". simpl. rewrite append_nil_r. reflexivity. }
  split; [| split].
  - assert (Hcase : stripMarkdown text = text
                    \/ exists i j, indexOf "{" text = Some i /\ lastIndexOf "}" text = Some j
                                   /\ (i < j)%nat).
    { unfold stripMarkdown.
      destruct (indexOf "{" text) as [i |]; [| left; reflexivity].
      destruct (lastIndexOf "}" text) as [j |]; [| left; reflexivity].
      destruct (Nat.ltb_spec i j); [right; exists i, j; auto | left; reflexivity]. }
    destruct Hcase as [Hsame | (i & j & Eopen & Eclose & Hlt)]; [rewrite !Hsame; reflexivity |].
    destruct (stripMarkdown_shape text i j Eopen Eclose Hlt) as [[body Hbody] Hlast].
    rewrite Hbody in *.
    unfold stripMarkdown. simpl indexOf. rewrite (last_char_lastIndexOf _ _ Hlast).
    destruct body as [| c r]; [discriminate |].
    simpl String.length.
    change (drop 0 (String "{" (String c r))) with (String "{" (String c r)).
    change (0 <? S (S (String.length r)) - 1)%nat with true. cbv iota.
    replace (S (S (String.length r)) - 1 + 1 - 0)%nat with (S (S (String.length r))) by lia.
    apply (take_all (String "{" (String c r))).
  - unfold stripMarkdown.
    destruct (indexOf "{" text) as [i |]; [| exact Hwhole].
    destruct (lastIndexOf "}" text) as [j |]; [| exact Hwhole].
    destruct (i <? j)%nat; [| exact Hwhole].
    exists (take i text), (drop (j + 1 - i) (drop i text)).
    rewrite take_drop, take_drop. reflexivity.
  - intros [Hopen | Hclose]; unfold stripMarkdown.
    + rewrite (indexOf_count_zero _ _ Hopen). reflexivity.
    + rewrite (lastIndexOf_count_zero _ _ Hclose).
      destruct (indexOf "{" text); reflexivity.
Qed.

(** The text the recovery works on is a part of the text it was given. *)
Lemma from_first_brace_part (text : string) :
  exists pre post, text = pre ++ from_first_brace text ++ post.
Proof.
  destruct (trimStart_suffix text) as [pre1 Hpre].
  destruct (trimEnd_prefix (trimStart text)) as [post1 Hpost].
  fold (trim text) in Hpost.
  unfold from_first_brace.
  destruct (startsWith (trim text) "{").
  - exists pre1, post1. rewrite <- Hpost. exact Hpre.
  - destruct (indexOf "{" (trim text)) as [i |].
    + exists (pre1 ++ take i (trim text)), post1.
      rewrite append_assoc, <- (append_assoc (take i (trim text))), take_drop, <- Hpost.
      exact Hpre.
    + exists pre1, post1. rewrite <- Hpost. exact Hpre.
Qed.

Lemma recovered_closes (text : string) :
  exists k, recovered text = from_first_brace text ++ repeat "}" k.
Proof.
  unfold recovered, close_braces.
  destruct (_ && _).
  - eexists. reflexivity.
  - exists 0%nat. simpl. rewrite append_nil_r. reflexivity.
Qed.

(** X12: recovery never makes text up.  Whatever [tryParsePartialJSON]
    returns is what [JSON.parse] gives on a text that is a prefix of a part
    of the input followed by closing braces only. *)
Theorem recovery_only_cuts_and_closes {host : Host} (text : string) (v : Parsed.t) :
  tryParsePartialJSON text = Some v ->
  exists parsedText pre core post rest k,
    JSON_parse parsedText = Some v
    /\ text = pre ++ core ++ post
    /\ core ++ repeat "}" k = parsedText ++ rest.
Proof.
  unfold tryParsePartialJSON.
  destruct (JSON_parse text) as [v0 |] eqn:E0.
  { intros Heq. injection Heq as <-.
    exists text, "", text, "", "", 0%nat. simpl. rewrite !append_nil_r. auto. }
  destruct (from_first_brace_part text) as (pre & post & Hpart).
  destruct (recovered_closes text) as (k & Hk).
  destruct (JSON_parse (recovered text)) as [v1 |] eqn:E1.
  { intros Heq. injection Heq as <-.
    exists (recovered text), pre, (from_first_brace text), post, "", k.
    rewrite append_nil_r. auto. }
  unfold truncated.
  destruct (lastIndexOf "}" (recovered text)) as [j |]; [| discriminate].
  destruct (0 <? j)%nat; [| discriminate].
  intros Hparse.
  exists (take (j + 1) (recovered text)), pre, (from_first_brace text), post,
         (drop (j + 1) (recovered text)), k.
  split; [exact Hparse |]. split; [exact Hpart |].
  rewrite take_drop. symmetry. exact Hk.
Qed.

End Stripping.

Section StrippingRuns.

Import Str Service Scenario.
Local Open Scope string_scope.

Lemma stripMarkdown_cuts_once_witness :
  stripMarkdown "no braces here" = "no braces here".
Proof.
  apply (stripMarkdown_cuts_once "no braces here"). left. reflexivity.
Defined.

Lemma recovery_only_cuts_and_closes_witness :
  exists parsedText pre core post rest k,
    @JSON_parse completingHost parsedText = Some (Parsed.mk None (Some Signature.empty))
    /\ ("  noise " ++ "{" ++ quoted "thought_signature" ++ ":{" ++ quoted "catalog_anchors"
        ++ ":[]") = pre ++ core ++ post
    /\ core ++ repeat "}" k = parsedText ++ rest.
Proof.
  apply (recovery_only_cuts_and_closes (host := completingHost)
           ("  noise " ++ "{" ++ quoted "thought_signature" ++ ":{" ++ quoted "catalog_anchors"
            ++ ":[]")).
  vm_compute. reflexivity.
Defined.

End StrippingRuns.

(** ** Price normalizer: what it can and cannot return *)

Section PriceRange.

Import Str Price.
Local Open Scope string_scope.

Lemma digits_value_nonneg (s : string) (acc : Z) : (0 <= acc -> 0 <= digits_value s acc)%Z.
Proof.
  revert acc. induction s as [| c r IH]; intros acc Hacc; simpl; [exact Hacc |].
  apply IH. lia.
Qed.

(** A number that is not negative is rounded to a double that is not
    negative, or overflows to +Infinity. *)
Lemma round64_nonneg (x : Q) :
  (0 <= x)%Q ->
  JS.round64 x = PInf \/ exists q, JS.round64 x = Fin q /\ (0 <= q)%Q.
Proof.
  intros Hx. pose proof (round64_mono 0 x Hx) as Hle.
  change (JS.round64 0) with (Fin 0) in Hle. apply lte_Fin_l. exact Hle.
Qed.

Lemma parseFloat_nonneg (s : string) :
  parseFloat s = NaN \/ parseFloat s = PInf
  \/ exists q, parseFloat s = Fin q /\ (0 <= q)%Q.
Proof.
  unfold parseFloat.
  destruct (span is_digit (trimStart s)) as [ip rest].
  set (fp := match rest with String "." r => fst (span is_digit r) | _ => "" end).
  destruct (is_empty ip && is_empty fp); [left; reflexivity |].
  right. apply round64_nonneg.
  pose proof (digits_value_nonneg ip 0 ltac:(lia)) as Hip.
  pose proof (digits_value_nonneg fp 0 ltac:(lia)) as Hfp.
  assert (Hpow : (0 < 10 ^ Z.of_nat (String.length fp))%Z)
    by (apply Z.pow_pos_nonneg; lia).
  assert (H1 : (0 <= inject_Z (digits_value ip 0))%Q) by (unfold Qle; simpl; lia).
  assert (H2 : (0 <= inject_Z (digits_value fp 0)
                     / inject_Z (10 ^ Z.of_nat (String.length fp)))%Q).
  { apply Qle_shift_div_l; [unfold Qlt; simpl; lia |].
    rewrite Qmult_0_l. unfold Qle; simpl; lia. }
  lra.
Qed.

(** X13: [cleanPrice] returns NaN, +Infinity or a finite double that is not
    negative: no negative price and no -Infinity, whatever the text holds (a
    minus sign before the digits is dropped with the other characters that
    are not digits, commas or dots).  +Infinity is returned, for a price of
    four hundred digits. *)
Theorem cleanPrice_is_never_negative (val : option string) :
  (cleanPrice val = NaN \/ cleanPrice val = PInf
   \/ exists q, cleanPrice val = Fin q /\ (0 <= q)%Q)
  /\ cleanPrice (Some ("$" ++ repeat "9" 400)) = PInf.
Proof.
  split; [| vm_compute; reflexivity].
  unfold cleanPrice. destruct val as [val |]; [| left; reflexivity].
  destruct (is_empty val || is_empty (trim val)); [left; reflexivity |].
  destruct (includes (toLowerCase val) "free" || includes (toLowerCase val) "gratis").
  { right. right. exists 0%Q. split; [reflexivity | discriminate]. }
  cbv zeta.
  destruct (negb (any_char is_digit _)); [left; reflexivity |].
  apply parseFloat_nonneg.
Qed.

Lemma any_char_take (p : ascii -> bool) (k : nat) (s : string) :
  any_char p (take k s) = true -> any_char p s = true.
Proof.
  revert s. induction k as [| k IH]; intros [| c r]; simpl; try discriminate.
  intros Hany. apply orb_true_iff in Hany. apply orb_true_iff.
  destruct Hany as [Hc | Hr]; [left; exact Hc | right; apply IH; exact Hr].
Qed.

Lemma any_char_drop (p : ascii -> bool) (k : nat) (s : string) :
  any_char p (drop k s) = true -> any_char p s = true.
Proof.
  revert s. induction k as [| k IH]; intros [| c r]; simpl; try discriminate; try tauto.
  intros Hany. apply orb_true_iff. right. apply IH. exact Hany.
Qed.

Lemma any_char_keep (p q : ascii -> bool) (s : string) :
  any_char p (keep q s) = true -> any_char p s = true.
Proof.
  induction s as [| c r IH]; simpl; [discriminate |].
  destruct (q c); simpl; intros Hany; apply orb_true_iff.
  - apply orb_true_iff in Hany. destruct Hany as [Hc | Hr]; [left; exact Hc | right; auto].
  - right. auto.
Qed.

Lemma any_char_span (p q : ascii -> bool) (s : string) :
  any_char p (fst (span q s)) = true -> any_char p s = true.
Proof.
  induction s as [| c r IH]; simpl; [discriminate |].
  destruct (q c); [| discriminate].
  destruct (span q r) as [a b]. simpl in *. intros Hany.
  apply orb_true_iff in Hany. apply orb_true_iff.
  destruct Hany as [Hc | Hr]; [left; exact Hc | right; auto].
Qed.

Lemma any_char_until_white (p : ascii -> bool) (s : string) :
  any_char p (until_white s) = true -> any_char p s = true.
Proof.
  induction s as [| c r IH]; [discriminate |].
  unfold until_white; fold until_white.
  destruct (white_len (String c r) =? 0)%nat; [| discriminate].
  simpl. intros Hany. apply orb_true_iff in Hany. apply orb_true_iff.
  destruct Hany as [Hc | Hr]; [left; exact Hc | right; auto].
Qed.

Lemma first_some_In {A B : Type} (f : A -> option B) (l : list A) (y : B) :
  first_some f l = Some y -> exists x, In x l /\ f x = Some y.
Proof.
  induction l as [| x r IH]; simpl; [discriminate |].
  destruct (f x) as [z |] eqn:E.
  - intros Heq. injection Heq as <-. exists x. auto.
  - intros Hr. destruct (IH Hr) as (x' & Hin & Hx'). exists x'. auto.
Qed.

Lemma strip_anchor_drop (anchors : list string) (s after : string) :
  strip_anchor anchors s = Some after -> exists n, after = drop n s.
Proof.
  induction anchors as [| a more IH]; simpl; [discriminate |].
  destruct (String.prefix a (toLowerCase s)); [| exact IH].
  intros Heq. injection Heq as <-. eexists. reflexivity.
Qed.

Lemma opt_space_drop (s t : string) : In t (opt_space s) -> exists n, t = drop n s.
Proof.
  unfold opt_space. destruct (white_len s) as [| k].
  - intros [<- | []]. exists 0%nat. destruct s; reflexivity.
  - intros [<- | [<- | []]]; [exists (S k) | exists 0%nat; destruct s]; reflexivity.
Qed.

Lemma number_candidates_take (s : string) (k : nat) (a b : string) :
  In (a, b) (number_candidates s k) -> exists k', a = take k' s /\ b = drop k' s.
Proof.
  induction k as [| k IH]; [intros [] |].
  unfold number_candidates; fold number_candidates. intros Hin.
  apply in_app_or in Hin. destruct Hin as [Hhere | Hlater]; [| auto].
  destruct (_ && _); [| destruct Hhere].
  destruct Hhere as [Heq | []]. exists (S k). split; congruence.
Qed.

Lemma drop_drop (n m : nat) (s : string) : drop n (drop m s) = drop (m + n) s.
Proof.
  revert s. induction m as [| m IH]; intros s; [reflexivity |].
  destruct s as [| c r]; simpl; [destruct n; reflexivity | apply IH].
Qed.

(** What the pattern captures is a piece of the text. *)
Lemma price_match_piece (s g : string) :
  price_match s = Some g -> exists m k, g = take k (drop m s).
Proof.
  induction s as [| c r IH].
  - unfold price_match. simpl. discriminate.
  - unfold price_match; fold price_match.
    destruct (match_anchor_first (String c r)) as [g1 |] eqn:E1.
    { intros Heq. injection Heq as <-. unfold match_anchor_first in E1.
      destruct (match_currency (String c r)) as [after |] eqn:Ecur; [| discriminate].
      destruct (strip_anchor_drop _ _ _ Ecur) as (n & ->).
      destruct (first_some_In _ _ _ E1) as (t & Ht & Hnum).
      destruct (opt_space_drop _ _ Ht) as (n' & ->).
      unfold number_matches in Hnum.
      destruct (number_candidates _ _) as [| [a b] rest] eqn:Ecand; [discriminate |].
      simpl in Hnum. injection Hnum as <-.
      assert (Hin : In (a, b) (number_candidates (drop n' (drop n (String c r)))
                                 (String.length (fst (span is_price_char
                                                        (drop n' (drop n (String c r))))))))
        by (rewrite Ecand; left; reflexivity).
      destruct (number_candidates_take _ _ _ _ Hin) as (k & -> & _).
      rewrite drop_drop. eexists. eexists. reflexivity. }
    destruct (match_number_first (String c r)) as [g2 |] eqn:E2.
    { intros Heq. injection Heq as <-. unfold match_number_first in E2.
      destruct (first_some_In _ _ _ E2) as ([a b] & Hin & Hrest).
      destruct (first_some_In _ _ _ Hrest) as (t & _ & Ht).
      destruct (match_currency t); [| discriminate]. simpl in Ht. injection Ht as <-.
      destruct (number_candidates_take _ _ _ _ Hin) as (k & -> & _).
      exists 0%nat, k. reflexivity. }
    intros Hlater. destruct (IH Hlater) as (m & k & ->).
    exists (S m), k. reflexivity.
Qed.

(** X14: without a digit there is no price.  [cleanPrice] returns NaN for
    an absent, empty or blank text, and for every text that holds no digit and
    neither of the words free and gratis. *)
Theorem cleanPrice_needs_a_digit (val : string) :
  cleanPrice None = NaN
  /\ (is_empty (trim val) = true -> cleanPrice (Some val) = NaN)
  /\ (any_char is_digit val = false ->
      includes (toLowerCase val) "free" = false ->
      includes (toLowerCase val) "gratis" = false ->
      cleanPrice (Some val) = NaN).
Proof.
  split; [reflexivity |]. split.
  - intros Hblank. unfold cleanPrice. rewrite Hblank, orb_true_r. reflexivity.
  - intros Hnodigit Hfree Hgratis. unfold cleanPrice.
    destruct (is_empty val || is_empty (trim val)); [reflexivity |].
    rewrite Hfree, Hgratis. cbn [orb]. cbv zeta.
    match goal with
    | |- (if negb (any_char is_digit ?raw) then _ else _) = _ =>
        assert (Hraw : any_char is_digit raw = false)
    end.
    { apply not_true_iff_false. intros Hdigit. apply not_true_iff_false in Hnodigit.
      apply Hnodigit.
      destruct (price_match val) as [g |] eqn:Ematch.
      - apply any_char_keep in Hdigit.
        destruct (price_match_piece _ _ Ematch) as (m & k & ->).
        apply any_char_take, any_char_drop in Hdigit. exact Hdigit.
      - apply any_char_keep in Hdigit. unfold first_word in Hdigit.
        apply any_char_until_white, any_char_trim in Hdigit. exact Hdigit. }
    rewrite Hraw. reflexivity.
Qed.

Lemma cleanPrice_needs_a_digit_witness :
  cleanPrice (Some "   ") = NaN /\ cleanPrice (Some "Call us: N/A") = NaN.
Proof.
  split.
  - exact (proj1 (proj2 (cleanPrice_needs_a_digit "   ")) eq_refl).
  - exact (proj2 (proj2 (cleanPrice_needs_a_digit "Call us: N/A")) eq_refl eq_refl eq_refl).
Defined.

End PriceRange.

(** ** Tiles and coordinates, once more *)

Section Geometry.

Import Orchestrator.
Local Open Scope Z_scope.

Ltac tile_consts :=
  unfold in_tile, currentTileHeight, offsetY, effectiveTileHeight, maxTileHeight, overlap in *.

(** X15: the number of tiles is at least one, never decreases when the
    image gets taller, and beyond one tile grows by exactly one for every
    1386 further rows; the last tile always starts inside the image. *)
Theorem tile_count_grows_with_height (H : Z) :
  1 <= numTiles H
  /\ (forall H', H <= H' -> numTiles H <= numTiles H')
  /\ (maxTileHeight < H -> numTiles (H + effectiveTileHeight) = numTiles H + 1)
  /\ (0 < H -> offsetY (numTiles H - 1) < H).
Proof.
  assert (Hone : forall h, 1 <= numTiles h).
  { intros h. destruct (Z_le_gt_dec h maxTileHeight) as [Hs | Ht].
    - rewrite (numTiles_short h Hs). lia.
    - destruct (numTiles_tall h ltac:(lia)) as (_ & _ & Hn). lia. }
  split; [apply Hone |]. split; [| split].
  - intros H' Hle.
    destruct (Z_le_gt_dec H maxTileHeight) as [Hs | Ht].
    + rewrite (numTiles_short H Hs). apply Hone.
    + destruct (numTiles_tall H ltac:(lia)) as (_ & Hc & _).
      destruct (numTiles_tall H' ltac:(lia)) as (_ & Hc' & _).
      tile_consts. lia.
  - intros Ht.
    destruct (numTiles_tall H Ht) as (_ & Hc & _).
    destruct (numTiles_tall (H + effectiveTileHeight)) as (_ & Hc' & _);
      [tile_consts; lia |].
    tile_consts. lia.
  - intros Hpos.
    destruct (Z_le_gt_dec H maxTileHeight) as [Hs | Ht].
    + rewrite (numTiles_short H Hs). tile_consts. lia.
    + destruct (numTiles_tall H ltac:(lia)) as (_ & Hc & _). tile_consts. lia.
Qed.

Lemma tile_count_grows_with_height_witness :
  numTiles 3000 <= numTiles 5000 /\ numTiles (2000 + 1386) = numTiles 2000 + 1.
Proof.
  split.
  - apply (tile_count_grows_with_height 3000). lia.
  - apply (tile_count_grows_with_height 2000). reflexivity.
Defined.

Lemma round64_not_NaN (x : Q) : JS.round64 x <> NaN.
Proof.
  destruct (Q_dec x 0) as [[Hx | Hx] | Hx].
  - rewrite (round64_neg x Hx). destruct (Qle_bool _ _); discriminate.
  - rewrite (round64_pos x Hx). destruct (Qle_bool _ _); discriminate.
  - rewrite (round64_zero x Hx). discriminate.
Qed.

Lemma lte_NInf (a : jsnum) : a <> NaN -> JS.lte NInf a = true.
Proof. destruct a; [contradiction | reflexivity ..]. Qed.

Lemma lte_PInf (a : jsnum) : a <> NaN -> JS.lte a PInf = true.
Proof. destruct a; [contradiction | reflexivity ..]. Qed.

Lemma Qneg_pos (d : Q) : (0 < d)%Q -> JS.Qneg d = false /\ JS.Qzero d = false.
Proof.
  intros Hd. unfold JS.Qneg, JS.Qzero. split.
  - apply negb_false_iff. apply Qle_bool_iff. apply Qlt_le_weak. exact Hd.
  - destruct (Qeq_bool d 0) eqn:E; [| reflexivity].
    apply Qeq_bool_iff in E. rewrite E in Hd. discriminate.
Qed.

(** Division and multiplication by a positive double, and addition of a
    finite one, keep the order of doubles and of infinities. *)
Lemma fdiv_mono (a b : jsnum) (d : Q) :
  (0 < d)%Q -> JS.lte a b = true -> JS.lte (JS.fdiv a (Fin d)) (JS.fdiv b (Fin d)) = true.
Proof.
  intros Hd Hle. destruct (Qneg_pos d Hd) as [Hneg Hzero].
  assert (Hinv : (0 <= / d)%Q) by (apply Qinv_le_0_compat, Qlt_le_weak; exact Hd).
  destruct a as [| | | p]; destruct b as [| | | q]; try discriminate;
    cbn [JS.fdiv JS.div]; rewrite ?Hzero, ?Hneg; cbn [negb JS.inf_of_sign];
    try reflexivity;
    try (apply lte_NInf, round64_not_NaN); try (apply lte_PInf, round64_not_NaN).
  apply round64_mono. unfold Qdiv. apply Qmult_le_compat_r; [| exact Hinv].
  apply Qle_bool_iff. exact Hle.
Qed.

Lemma fmul_mono (a b : jsnum) (d : Q) :
  (0 < d)%Q -> JS.lte a b = true -> JS.lte (JS.fmul a (Fin d)) (JS.fmul b (Fin d)) = true.
Proof.
  intros Hd Hle. destruct (Qneg_pos d Hd) as [Hneg Hzero].
  destruct a as [| | | p]; destruct b as [| | | q]; try discriminate;
    cbn [JS.fmul JS.mul]; rewrite ?Hzero, ?Hneg; cbn [negb JS.inf_of_sign];
    try reflexivity;
    try (apply lte_NInf, round64_not_NaN); try (apply lte_PInf, round64_not_NaN).
  apply round64_mono. apply Qmult_le_compat_r; [| apply Qlt_le_weak; exact Hd].
  apply Qle_bool_iff. exact Hle.
Qed.

Lemma fadd_mono (a b : jsnum) (c : Q) :
  JS.lte a b = true -> JS.lte (JS.fadd a (Fin c)) (JS.fadd b (Fin c)) = true.
Proof.
  intros Hle.
  destruct a as [| | | p]; destruct b as [| | | q]; try discriminate;
    cbn [JS.fadd JS.add];
    try reflexivity;
    try (apply lte_NInf, round64_not_NaN); try (apply lte_PInf, round64_not_NaN).
  apply round64_mono. apply Qle_bool_iff in Hle. lra.
Qed.

(** A real of magnitude at most [2^1023] is rounded to a finite double. *)
Lemma round64_finite (x : Q) : (Qabs x <= JS.pow2 1023)%Q -> exists r, JS.round64 x = Fin r.
Proof.
  intros Hx. apply Qabs_Qle_condition in Hx. destruct Hx as [Hlo Hhi].
  destruct (Qlt_le_dec x 0) as [Hneg | Hpos].
  - destruct (round64_err (- x)) as (r & Hr & _); [lra | lra |].
    apply round64_opp in Hr.
    rewrite (round64_comp (- - x) x) in Hr by ring.
    eexists. exact Hr.
  - destruct (round64_err x Hpos Hhi) as (r & Hr & _). exists r. exact Hr.
Qed.

(** X16: remapping keeps the order of ordinates.  For two doubles
    [y1 <= y2], a positive image height and a tile height that is not
    negative, the remapped [y1] is at most the remapped [y2], in the order of
    doubles and infinities (a product that overflows gives an infinity); and
    for ordinates of [0, 1000] in a tile that lies in an image of at most
    2^53 rows, both are finite: a box whose [y_min] is at most its [y_max]
    in the tile has them in the same order in the image.  Outside that range
    the result need not be finite: the ordinate [3 * 2^1022] of the single
    tile of an image of 1536 rows is remapped to +Infinity. *)
Theorem remap_keeps_box_upright (H h off : Z) (y1 y2 : Q) :
  0 < H -> 0 <= h ->
  (Qabs y1 <= JS.pow2 1024)%Q -> (Qabs y2 <= JS.pow2 1024)%Q ->
  (y1 <= y2)%Q ->
  JS.lte (remapY (Fin y1) h off H) (remapY (Fin y2) h off H) = true
  /\ (H <= 2 ^ 53 -> 0 <= off -> off + h <= H -> (0 <= y1)%Q -> (y2 <= 1000)%Q ->
      exists g1 g2,
        remapY (Fin y1) h off H = Fin g1
        /\ remapY (Fin y2) h off H = Fin g2
        /\ (g1 <= g2)%Q)
  /\ remapY (Fin (3 * JS.pow2 1022)) 1536 0 1536 = PInf.
Proof.
  intros HH Hh Hb1 Hb2 Hle.
  assert (Horder : JS.lte (remapY (Fin y1) h off H) (remapY (Fin y2) h off H) = true).
  { assert (Hscaled : forall y, (Qabs y <= JS.pow2 1024)%Q ->
                                exists a, JS.fdiv (Fin y) (Fin 1000) = Fin a).
    { intros y Hy. cbn [JS.fdiv]. change (JS.Qzero 1000) with false. cbv iota.
      apply round64_finite.
      assert (Hdouble : (JS.pow2 1024 == 2 * JS.pow2 1023)%Q) by reflexivity.
      pose proof (pow2_pos 1023) as Hp.
      apply Qabs_Qle_condition in Hy. destruct Hy as [Hlo Hhi].
      apply Qabs_Qle_condition. rewrite Hdouble in Hlo, Hhi.
      set (P := JS.pow2 1023) in *. clearbody P.
      split.
      - apply Qle_shift_div_l; [reflexivity | lra].
      - apply Qle_shift_div_r; [reflexivity | lra]. }
    assert (Hfirst : JS.lte (JS.fdiv (Fin y1) (Fin 1000)) (JS.fdiv (Fin y2) (Fin 1000)) = true)
      by (apply fdiv_mono; [reflexivity | apply Qle_bool_iff; exact Hle]).
    destruct (Hscaled y1 Hb1) as [a1 E1]. destruct (Hscaled y2 Hb2) as [a2 E2].
    unfold remapY. rewrite E1, E2 in *.
    apply fmul_mono; [reflexivity |].
    apply fdiv_mono; [unfold JS.ofZ; rewrite <- (Zlt_Qlt 0); exact HH |].
    apply fadd_mono.
    cbn [JS.fmul JS.ofZ]. apply round64_mono.
    apply Qmult_le_compat_r; [apply Qle_bool_iff; exact Hfirst |].
    rewrite <- (Zle_Qle 0). exact Hh. }
  split; [exact Horder |]. split; [| vm_compute; reflexivity].
  intros Hmax Hoff Hfit Hy1 Hy2.
  destruct (remapY_steps y1 h off H) as (_ & _ & _ & _ & g1 & _ & _ & _ & _ & _ & E1 & _);
    [lia | exact Hh | exact Hoff | exact Hfit | split; lra |].
  destruct (remapY_steps y2 h off H) as (_ & _ & _ & _ & g2 & _ & _ & _ & _ & _ & E2 & _);
    [lia | exact Hh | exact Hoff | exact Hfit | split; lra |].
  exists g1, g2. split; [exact E1 |]. split; [exact E2 |].
  rewrite E1, E2 in Horder. apply Qle_bool_iff. exact Horder.
Qed.

Lemma remap_keeps_box_upright_witness :
  exists g1 g2,
    remapY (Fin 100) 614 1386 2000 = Fin g1
    /\ remapY (Fin 200) 614 1386 2000 = Fin g2
    /\ (g1 <= g2)%Q.
Proof.
  destruct (remap_keeps_box_upright 2000 614 1386 100 200) as (_ & Hfinite & _);
    try lia; try (vm_compute; discriminate).
  apply Hfinite; try lia; discriminate.
Defined.

End Geometry.

(** ** The overlay boxes *)

Section OverlayBoxes.

Import Orchestrator Overlay.
Local Open Scope list_scope.
Local Open Scope Z_scope.



End OverlayBoxes.

Section OverlayOrder.

Import Orchestrator Overlay.
Local Open Scope list_scope.
Local Open Scope nat_scope.









End OverlayOrder.

Section OverlayRuns.

Import Orchestrator Overlay Scenario.
Local Open Scope list_scope.


End OverlayRuns.

(** ** The end of a scan *)

Section Persist.

Import Run Service Analysis Orchestrator Scenario.
Local Open Scope string_scope.
Local Open Scope list_scope.
Local Open Scope nat_scope.

Context {host : Host}.

(** With the 2D context at hand at every tile, the loop with line 268 is
    the loop without it. *)
Lemma tileLoopOn_present (H : Z) (todo : list Z) (st : Loop) (env : Env) (w : World) :
  tileLoopOn (fun _ => true) H todo st env w
  = match tileLoop H todo st env w with
    | (Returned st', w') => (Returned (Some st'), w')
    | (Threw e, w') => (Threw e, w')
    end.
Proof.
  revert st w. induction todo as [| i later IH]; intros st w; [reflexivity |].
  rewrite tileLoop_step. simpl tileLoopOn. unfold bind at 1, aborted.
  destruct (signal_aborted env w); [reflexivity |].
  unfold bind at 1.
  destruct (0 <? i)%Z; unfold wait, ret;
    unfold bind at 1;
    destruct (analyzeUIScreen (loopSignature st) env _) as [[result | e] w']; try reflexivity;
    destruct (negb (Str.is_empty (text_or (ScanResponse.error result) ""))); try reflexivity;
    apply IH.
Qed.

Lemma handleScanOn_present (H : Z) (env : Env) (w : World) :
  handleScanOn (fun _ => true) H env w = handleScan H env w.
Proof.
  unfold handleScanOn, handleScan, bind, try_catch, setLoading, setError, setScans, setUI.
  rewrite tileLoopOn_present.
  destruct (tileLoop H (tileIndices H) (initialLoop (ui w)) env _) as [[st' | e] w1];
    reflexivity.
Qed.

(** X19: the end of [handleScan], with the exit of line 268 kept.  When the
    tile loop ends without throwing and without that exit (after the last
    tile, or at a tile that came back degraded), [handleScan] marks the scan
    as completed, whether or not the storage takes the writes.  The signature
    of the loop is stored unless its write raises; the last entries of the
    history, at most 100 of them, are stored when neither write raises; a
    write that raises is dropped without a message on display, and what was
    stored under its key stays.  The error set by a degraded tile stays on
    display.  When the canvas gives no 2D context at a tile, [handleScan]
    returns there: the scan is not marked as completed and nothing is
    stored.  In both cases the loading flag is reset.  With the context at
    hand at every tile this is [handleScan]. *)
Theorem finished_scan_is_persisted
    (context2d : Z -> bool) (H : Z) (env : Env) (w w1 : World) :
  let started :=
    mkWorld (now w) (calls w) (trace w)
      (mkUI [] (viewportMeta (ui w)) (lastSignature (ui w)) (auditHistory (ui w)) None true
            (hasCompletedInitialScan (ui w)) (persisted (ui w))) in
  let ended := tileLoopOn context2d H (tileIndices H) (initialLoop (ui w)) env started in
  (forall st' : Loop,
      ended = (Returned (Some st'), w1) ->
      exists w' stored older,
        handleScanOn context2d H env w = (Returned tt, w')
        /\ hasCompletedInitialScan (ui w') = true
        /\ loopHistory st' = older ++ stored
        /\ length stored = Nat.min 100 (length (loopHistory st'))
        /\ persisted (ui w')
           = (if storageFull env SIGNATURE then persisted (ui w1)
              else if storageFull env HISTORY
                   then (Some (loopSignature st'), snd (persisted (ui w1)))
                   else (Some (loopSignature st'), Some stored))
        /\ error (ui w') = error (ui w1)
        /\ scans (ui w') = scans (ui w1)
        /\ loading (ui w') = false)
  /\ (ended = (Returned None, w1) ->
      exists w',
        handleScanOn context2d H env w = (Returned tt, w')
        /\ hasCompletedInitialScan (ui w') = hasCompletedInitialScan (ui w1)
        /\ persisted (ui w') = persisted (ui w1)
        /\ error (ui w') = error (ui w1)
        /\ scans (ui w') = scans (ui w1)
        /\ calls w' = calls w1
        /\ loading (ui w') = false)
  /\ (forall (env' : Env) (w' : World),
         handleScanOn (fun _ => true) H env' w' = handleScan H env' w').
Proof.
  intros started ended.
  split; [| split; [| intros env' w'; apply handleScanOn_present]].
  - intros st' Hrun.
    unfold handleScanOn, bind, try_catch, setLoading, setError, setScans, setUI.
    match goal with
    | |- context [tileLoopOn context2d H (tileIndices H) (initialLoop (ui w)) env ?x] =>
        change x with started
    end.
    fold ended. rewrite Hrun, persistScanState_run. unfold setHasCompletedInitialScan, setUI.
    eexists. exists (drop (length (loopHistory st') - 100) (loopHistory st')).
    exists (take (length (loopHistory st') - 100) (loopHistory st')).
    split; [reflexivity |].
    split; [reflexivity |].
    split; [symmetry; apply stdpp.list_basics.list.take_drop |].
    split; [rewrite length_drop; lia |].
    split; [reflexivity |]. split; [reflexivity |]. split; reflexivity.
  - intros Hrun.
    unfold handleScanOn, bind, try_catch, setLoading, setError, setScans, setUI.
    match goal with
    | |- context [tileLoopOn context2d H (tileIndices H) (initialLoop (ui w)) env ?x] =>
        change x with started
    end.
    fold ended. rewrite Hrun. unfold ret.
    eexists. split; [reflexivity |]. repeat split.
Qed.

End Persist.

Section PersistRuns.

Import Run Service Analysis Orchestrator Scenario.
Local Open Scope string_scope.
Local Open Scope list_scope.

Lemma finished_scan_is_persisted_witness :
  (exists w' stored,
      handleScanOn (host := twoTileHost) (fun _ => true) 2000 (busyEnv None) freshWorld
      = (Returned tt, w')
      /\ hasCompletedInitialScan (ui w') = true
      /\ persisted (ui w') = (Some Signature.empty, Some stored)
      /\ error (ui w') = Some "Neural Link Failure (Rate Limited or Busy).")
  /\ (exists w',
         handleScanOn (host := twoTileHost) (fun i => i =? 0)%Z 2000 (twoTileEnv None 1000)
                      freshWorld
         = (Returned tt, w')
         /\ hasCompletedInitialScan (ui w') = false
         /\ persisted (ui w') = (None, None)
         /\ calls w' = 1%nat
         /\ loading (ui w') = false).
Proof.
  split.
  - destruct (finished_scan_is_persisted (host := twoTileHost) (fun _ => true) 2000
                (busyEnv None) freshWorld
                (mkWorld 18000 3 [EvCall 0; EvWait 5000; EvCall 1; EvWait 10000; EvCall 2]
                   (mkUI [] None Signature.empty []
                         (Some "Neural Link Failure (Rate Limited or Busy).")
                         true false (None, None))))
      as (Hdone & _).
    destruct (Hdone (initialLoop idleUI))
      as (w' & stored & older & Hrun & Hflag & _ & _ & Hstored & Herr & _);
      [vm_compute; reflexivity |].
    exists w', stored. split; [exact Hrun |]. split; [exact Hflag |].
    split; [exact Hstored | exact Herr].
  - destruct (finished_scan_is_persisted (host := twoTileHost) (fun i => i =? 0)%Z 2000
                (twoTileEnv None 1000) freshWorld
                (snd (tileLoopOn (host := twoTileHost) (fun i => i =? 0)%Z 2000
                        (tileIndices 2000) (initialLoop idleUI) (twoTileEnv None 1000)
                        (mkWorld 0 0 [] (mkUI [] None Signature.empty [] None true false
                                              (None, None))))))
      as (_ & Hexit & _).
    destruct Hexit as (w' & Hrun & Hflag & Hstored & _ & _ & Hcalls & Hload);
      [vm_compute; reflexivity |].
    exists w'. split; [exact Hrun |]. split; [exact Hflag |].
    split; [exact Hstored |]. split; [exact Hcalls | exact Hload].
Defined.

End PersistRuns.
